(** * Adobaru: the polygon-constrained placement engine

    A shallow embedding of [src/utils/layoutEngine.ts] (containment tester
    and greedy row sweep), [src/utils/geometry.ts] (rectilinear snapping)
    and the constants they read, and of the code around them: the handlers
    of [src/App.tsx] that call the engine, edit the catalog and compute
    totals and areas, the drawing and editing handlers of the canvas and
    the table and the pages of the estimate.

    Numbers.  A TypeScript [number] is modelled as an exact rational [Q];
    numeric equality ([===] on numbers, the key comparison of a [Map]) is
    [Qeq], decided by [Qeq_bool].  Rounding, infinities and NaN of IEEE
    doubles are outside the model; the one place where the code relies on
    an infinity (the bounding box of an empty vertex list) is written out.
    Where the code may divide by zero the case is written out, and
    [Math.sqrt], which has no counterpart on the rationals, is a parameter
    where it is used. *)

From Stdlib Require Import String.
From Stdlib Require Import ZArith QArith Qminmax Qabs Qround Lqa Lia.
From Stdlib Require Import Bool List Permutation.
Import ListNotations.

Open Scope Q_scope.

(** ** Numbers *)

(** [a < b] and [a > b] on numbers, as booleans. *)
Definition Qltb (a b : Q) : bool := negb (Qle_bool b a).
Definition Qgtb (a b : Q) : bool := Qltb b a.

(** ** Data model *)

(** [interface Point { x: number; y: number }] (services/geminiService.ts) *)
Record Point : Type := mkPoint { x : Q; y : Q }.

(** [interface FurnitureSet] (constants); [enabled?: boolean] is optional. *)
Record FurnitureSet : Type := mkFurnitureSet {
  id : string;
  name : string;
  tableWidth : Q;
  tableDepth : Q;
  chairCount : Q;
  unitPrice : Q;
  color : string;
  enabled : option bool
}.

(** [FURNITURE_TYPES]: the catalog; no entry carries an [enabled] field. *)
Definition type1 : FurnitureSet :=
  mkFurnitureSet "type1" "タイプ1 (1800x450)" 1800 450 3 50000 "#3b82f6" None.
Definition type2 : FurnitureSet :=
  mkFurnitureSet "type2" "タイプ2 (1500x450)" 1500 450 2 45000 "#10b981" None.
Definition type3 : FurnitureSet :=
  mkFurnitureSet "type3" "タイプ3 (1200x450)" 1200 450 2 40000 "#f59e0b" None.
Definition FURNITURE_TYPES : list FurnitureSet := [type1; type2; type3].

(** [CHAIR_DIMENSIONS = { width: 500, depth: 600 }] *)
Module CHAIR_DIMENSIONS.
Definition width : Q := 500.
Definition depth : Q := 600.
End CHAIR_DIMENSIONS.

(** [type LayoutPattern = 'cramped' | 'standard' | 'spacious'] *)
Inductive LayoutPattern : Type := cramped | standard | spacious.

(** [PATTERN_CONFIG[p].aisleGap] *)
Module PATTERN_CONFIG.
Definition aisleGap (p : LayoutPattern) : Q :=
  match p with
  | cramped => 1000
  | standard => 1300
  | spacious => 1600
  end.
End PATTERN_CONFIG.

(** [interface PlacedItem]; the fields [id], [x], [y] are prefixed because
    [Point] and [FurnitureSet] already own these names. *)
Record PlacedItem : Type := mkPlacedItem {
  item_id : string;
  item_x : Q;
  item_y : Q;
  rotation : Q;
  type : FurnitureSet
}.

(** ** Containment tester (layoutEngine.ts) *)

(** The body of the ray-casting loop: does the edge [(vi, vj)] cross the
    horizontal ray from [(px, py)] to the right? *)
Definition intersect (px py : Q) (vi vj : Point) : bool :=
  xorb (Qgtb (y vi) py) (Qgtb (y vj) py)
  && Qltb px ((x vj - x vi) * (py - y vi) / (y vj - y vi) + x vi).

(** [for (i = 0, j = vs.length - 1; i < vs.length; j = i++)]: the edge of
    iteration [i] joins [vs[i]] to the vertex visited just before it. *)
Fixpoint rayLoop (px py : Q) (vj : Point) (vs : list Point) (inside : bool)
  : bool :=
  match vs with
  | [] => inside
  | vi :: rest =>
      rayLoop px py vi rest
        (if intersect px py vi vj then negb inside else inside)
  end.

Definition isPointInPolygon (point : Point) (vs : list Point) : bool :=
  match vs with
  | [] => false
  | v0 :: _ => rayLoop (x point) (y point) (last vs v0) vs false
  end.

(** The five sample points of [isRectValid]. *)
Definition corners (x0 y0 w h : Q) : list Point :=
  [ mkPoint x0 y0;
    mkPoint (x0 + w) y0;
    mkPoint (x0 + w) (y0 + h);
    mkPoint x0 (y0 + h);
    mkPoint (x0 + w / 2) (y0 + h / 2) ].

(** [for (const hole of holes) if (corners.some(...)) return false] *)
Fixpoint outsideHoles (cs : list Point) (holes : list (list Point)) : bool :=
  match holes with
  | [] => true
  | hole :: rest =>
      if existsb (fun p => isPointInPolygon p hole) cs then false
      else outsideHoles cs rest
  end.

Definition isRectValid (x0 y0 w h : Q) (polygon : list Point)
    (holes : list (list Point)) : bool :=
  let cs := corners x0 y0 w h in
  let insideMain := forallb (fun p => isPointInPolygon p polygon) cs in
  if negb insideMain then false else outsideHoles cs holes.

(** ** Placement engine (layoutEngine.ts) *)

(** [Math.min(...vs)] and [Math.max(...vs)] on a non-empty argument list. *)
Definition minOf (v : Q) (vs : list Q) : Q := fold_left Qmin vs v.
Definition maxOf (v : Q) (vs : list Q) : Q := fold_left Qmax vs v.

(** The four bounds computed at the top of [generateLayout]. *)
Record Bounds : Type := mkBounds { minX : Q; maxX : Q; minY : Q; maxY : Q }.

Definition boundsOf (p0 : Point) (rest : list Point) : Bounds :=
  mkBounds (minOf (x p0) (map x rest)) (maxOf (x p0) (map x rest))
           (minOf (y p0) (map y rest)) (maxOf (y p0) (map y rest)).

(** The state the column loop updates: the items pushed so far, the
    number of identifiers drawn, and the height of the current row. *)
Record RowState : Type := mkRowState {
  items : list PlacedItem;
  drawn : nat;
  rowHeight : Q
}.

Section Sweep.

(** The inputs of one call, fixed during the sweep.  [ids] is the sequence
    of identifiers that successive calls of [crypto.randomUUID()] return. *)
Variable ids : nat -> string.
Variable polygon : list Point.
Variable holes : list (list Point).
Variable scale : Q.
Variable furnitureTypes : list FurnitureSet.
Variable bounds : Bounds.
Variable pxAisleGap : Q.

(** [for (const fType of furnitureTypes)] at one cursor position: the first
    enabled entry whose footprint is valid, with its [w] and [totalH]. *)
Fixpoint firstFit (currentX currentY : Q) (fTypes : list FurnitureSet)
  : option (FurnitureSet * Q * Q) :=
  match fTypes with
  | [] => None
  | fType :: rest =>
      match enabled fType with
      | Some false => firstFit currentX currentY rest
      | _ =>
          let w := tableWidth fType * scale in
          let h := tableDepth fType * scale in
          let chairD := CHAIR_DIMENSIONS.depth * scale in
          let totalH := h + chairD in
          if isRectValid currentX currentY w totalH polygon holes
          then Some (fType, w, totalH)
          else firstFit currentX currentY rest
      end
  end.

(** [while (currentX < maxX)]; [None] when the fuel runs out. *)
Fixpoint columnLoop (fuel : nat) (currentY currentX : Q) (st : RowState)
  : option RowState :=
  match fuel with
  | O => None
  | S fuel' =>
      if Qltb currentX (maxX bounds) then
        match firstFit currentX currentY furnitureTypes with
        | Some (fType, w, totalH) =>
            columnLoop fuel' currentY (currentX + (w + 50 * scale))
              (mkRowState
                 (items st ++
                    [mkPlacedItem (ids (drawn st)) currentX currentY 0 fType])
                 (S (drawn st))
                 (Qmax (rowHeight st) totalH))
        | None =>
            columnLoop fuel' currentY (currentX + 50 * scale) st
        end
      else Some st
  end.

(** [while (currentY < maxY)]; [None] when the fuel runs out. *)
Fixpoint rowLoop (fuel : nat) (currentY : Q) (acc : list PlacedItem)
    (n : nat) : option (list PlacedItem) :=
  match fuel with
  | O => None
  | S fuel' =>
      if Qltb currentY (maxY bounds) then
        match columnLoop fuel' currentY (minX bounds + pxAisleGap)
                (mkRowState acc n 0) with
        | Some st =>
            if Qltb 0 (rowHeight st)
            then rowLoop fuel' (currentY + (rowHeight st + pxAisleGap))
                   (items st) (drawn st)
            else rowLoop fuel' (currentY + 100 * scale)
                   (items st) (drawn st)
        | None => None
        end
      else Some acc
  end.

End Sweep.

(** [generateLayout].  The parameter [pattern] is accepted and never read.
    For an empty [polygon] the code computes [minY = Infinity] and
    [maxY = -Infinity], so the row loop's test is false at once and the
    empty list is returned; that case is written out here.  The result is
    [None] when [fuel] iterations do not finish the sweep. *)
Definition generateLayout (fuel : nat) (ids : nat -> string)
    (polygon : list Point) (holes : list (list Point)) (scale : Q)
    (pattern : LayoutPattern) (furnitureTypes : list FurnitureSet)
    (aisleGap : Q) : option (list PlacedItem) :=
  match polygon with
  | [] => Some []
  | p0 :: rest =>
      let bounds := boundsOf p0 rest in
      let pxAisleGap := aisleGap * scale in
      rowLoop ids polygon holes scale furnitureTypes bounds pxAisleGap
        fuel (minY bounds + pxAisleGap) [] 0
  end.

(** ** Rectilinear normalizer (geometry.ts) *)

(** [[...values].sort((a, b) => a - b)]: a stable ascending sort. *)
Fixpoint insertAsc (v : Q) (l : list Q) : list Q :=
  match l with
  | [] => [v]
  | h :: t => if Qle_bool v h then v :: l else h :: insertAsc v t
  end.

Definition sortAsc (values : list Q) : list Q :=
  fold_right insertAsc [] values.

(** The grouping loop of [snapValues].  [currentGroup] is the array that was
    pushed last on [groups] and is extended in place, so [groups] is
    [closed ++ [currentGroup]] throughout. *)
Fixpoint groupLoop (tolerance : Q) (rest : list Q) (closed : list (list Q))
    (currentGroup : list Q) : list (list Q) :=
  match rest with
  | [] => closed ++ [currentGroup]
  | val :: rest' =>
      let prev := last currentGroup 0 in
      if Qle_bool (Qabs (val - prev)) tolerance
      then groupLoop tolerance rest' closed (currentGroup ++ [val])
      else groupLoop tolerance rest' (closed ++ [currentGroup]) [val]
  end.

(** [group.reduce((a, b) => a + b, 0) / group.length] *)
Definition average (group : list Q) : Q :=
  fold_left Qplus group 0 / inject_Z (Z.of_nat (length group)).

(** [Map<number, number>]: an association list with at most one binding
    per key, keys compared as numbers. *)
Definition NumMap : Type := list (Q * Q).

Fixpoint mapSet (k v : Q) (m : NumMap) : NumMap :=
  match m with
  | [] => [(k, v)]
  | (k', v') :: m' =>
      if Qeq_bool k' k then (k', v) :: m' else (k', v') :: mapSet k v m'
  end.

Fixpoint mapGet (k : Q) (m : NumMap) : option Q :=
  match m with
  | [] => None
  | (k', v') :: m' => if Qeq_bool k' k then Some v' else mapGet k m'
  end.

(** [groups.forEach(group => { avg = ...; group.forEach(v => set(v, avg)) })] *)
Definition setGroup (m : NumMap) (group : list Q) : NumMap :=
  let avg := average group in
  fold_left (fun m' v => mapSet v avg m') group m.

Definition buildValueMap (groups : list (list Q)) : NumMap :=
  fold_left setGroup groups [].

(** [valueMap.get(v) || v]: the right operand is taken when the left one is
    [undefined] or the number zero. *)
Definition getOr (m : NumMap) (v : Q) : Q :=
  match mapGet v m with
  | Some a => if Qeq_bool a 0 then v else a
  | None => v
  end.

Definition snapValues (values : list Q) (tolerance : Q) : list Q :=
  match sortAsc values with
  | [] => []
  | s0 :: rest =>
      let groups := groupLoop tolerance rest [] [s0] in
      let valueMap := buildValueMap groups in
      map (getOr valueMap) values
  end.

(** [snapToRectilinear(points, threshold = 20)].  The last [map] reads
    [newXs[i]] and [newYs[i]] at the indices of [points], which are in
    range because [snapValues] keeps the length. *)
Definition snapToRectilinear (points : list Point) (threshold : Q)
  : list Point :=
  if Nat.ltb (length points) 3 then points
  else
    let xs := map x points in
    let ys := map y points in
    let newXs := snapValues xs threshold in
    let newYs := snapValues ys threshold in
    map (fun i => mkPoint (nth i newXs 0) (nth i newYs 0))
        (seq 0 (length points)).

(** ** The normalizer as the specification words it *)

(** The arithmetic mean of a chain. *)
Definition sumQ (l : list Q) : Q := fold_right Qplus 0 l.
Definition mean (l : list Q) : Q := sumQ l / inject_Z (Z.of_nat (length l)).

(** A chain: each value differs from the previous one by at most [t]. *)
Inductive chained (t : Q) : list Q -> Prop :=
| chained_one a : chained t [a]
| chained_cons a b l :
    Qabs (b - a) <= t -> chained t (b :: l) -> chained t (a :: b :: l).

(** Consecutive chains are separated by a gap exceeding [t]. *)
Inductive separated (t : Q) : list (list Q) -> Prop :=
| separated_nil : separated t []
| separated_one g : separated t [g]
| separated_cons g a g' gs :
    t < Qabs (a - last g 0) ->
    separated t ((a :: g') :: gs) -> separated t (g :: (a :: g') :: gs).

(** [gs] is the partition of [sorted] into maximal consecutive chains. *)
Definition chainPartition (t : Q) (sorted : list Q) (gs : list (list Q))
  : Prop :=
  concat gs = sorted /\ Forall (chained t) gs /\ separated t gs.

(** Ascending order. *)
Inductive ascending : list Q -> Prop :=
| ascending_nil : ascending []
| ascending_one a : ascending [a]
| ascending_cons a b l :
    a <= b -> ascending (b :: l) -> ascending (a :: b :: l).

(** One axis of the snapping contract.  [outs] lists, in the order of
    [values], for each value the mean of the chain it belongs to; [cond]
    selects the chains, by their mean, for which this is required.  Equal
    values receive equal results. *)
Definition chainMeanSnap (cond : Q -> Prop) (t : Q) (values outs : list Q)
  : Prop :=
  (length outs = length values)%nat /\
  exists sorted gs,
    Permutation sorted values /\ ascending sorted /\
    chainPartition t sorted gs /\
    (forall i v o,
        nth_error values i = Some v -> nth_error outs i = Some o ->
        exists g, In g gs /\ In v g /\ (cond (mean g) -> o == mean g)) /\
    (forall i j v v' o o',
        nth_error values i = Some v -> nth_error values j = Some v' ->
        nth_error outs i = Some o -> nth_error outs j = Some o' ->
        v == v' -> o == o').

(** The snapping contract of [snapToRectilinear]: same length and order,
    and the chain-mean contract on each axis. *)
Definition snapContract (cond : Q -> Prop) (points : list Point) (t : Q)
  : Prop :=
  (length (snapToRectilinear points t) = length points)%nat /\
  chainMeanSnap cond t (map x points) (map x (snapToRectilinear points t)) /\
  chainMeanSnap cond t (map y points) (map y (snapToRectilinear points t)).

(** Equality of point lists, coordinate by coordinate as numbers. *)
Definition Point_eq (p q : Point) : Prop := x p == x q /\ y p == y q.
Definition Points_eq : list Point -> list Point -> Prop := Forall2 Point_eq.

(** ** Rooms used in the concrete scenarios *)

(** The square room with corners [(0,0)], [(l,0)], [(l,l)], [(0,l)]. *)
Definition squareRoom (l : Q) : list Point :=
  [mkPoint 0 0; mkPoint l 0; mkPoint l l; mkPoint 0 l].

(** The axis-aligned rectangular room with corners [(x0,y0)], [(x1,y0)],
    [(x1,y1)], [(x0,y1)]. *)
Definition rectRoom (x0 y0 x1 y1 : Q) : list Point :=
  [mkPoint x0 y0; mkPoint x1 y0; mkPoint x1 y1; mkPoint x0 y1].

(** An L-shaped room: a neck 2300 wide above y = 1250, 6000 wide below. *)
Definition ellRoom : list Point :=
  [mkPoint 0 0; mkPoint 2300 0; mkPoint 2300 1250; mkPoint 6000 1250;
   mkPoint 6000 2400; mkPoint 0 2400].

(** The number of items placed for a density pattern, with the aisle gap
    [PATTERN_CONFIG] gives it. *)
Definition countFor (fuel : nat) (ids : nat -> string) (polygon : list Point)
    (holes : list (list Point)) (scale : Q) (fts : list FurnitureSet)
    (p : LayoutPattern) : option nat :=
  option_map (@length PlacedItem)
    (generateLayout fuel ids polygon holes scale p fts
       (PATTERN_CONFIG.aisleGap p)).

(** Monotonicity under the aisle gap: tight places at least as many items
    as standard, and standard at least as many as generous. *)
Definition gapMonotone (ids : nat -> string) (polygon : list Point)
    (holes : list (list Point)) (scale : Q) (fts : list FurnitureSet)
  : Prop :=
  exists fuel nTight nStandard nGenerous,
    countFor fuel ids polygon holes scale fts cramped = Some nTight /\
    countFor fuel ids polygon holes scale fts standard = Some nStandard /\
    countFor fuel ids polygon holes scale fts spacious = Some nGenerous /\
    (nStandard <= nTight)%nat /\ (nGenerous <= nStandard)%nat.

(** An identifier sequence for the scenarios. *)
Definition noIds : nat -> string := fun _ => EmptyString.

(** ** Notions used in the statements and proofs *)

(** A sample point is admissible when it lies in the room and in no hole. *)
Definition admissible (polygon : list Point) (holes : list (list Point))
    (p : Point) : Prop :=
  isPointInPolygon p polygon = true /\
  Forall (fun hole => isPointInPolygon p hole = false) holes.

(** The footprint height the engine computes for a catalog entry. *)
Definition totalHOf (scale : Q) (f : FurnitureSet) : Q :=
  tableDepth f * scale + CHAIR_DIMENSIONS.depth * scale.

(** The invariant of the sweep: what holds of every item pushed. *)
Definition emitted (polygon : list Point) (holes : list (list Point))
    (scale : Q) (furnitureTypes : list FurnitureSet) (it : PlacedItem)
  : Prop :=
  In (type it) furnitureTypes /\ enabled (type it) <> Some false /\
  rotation it = 0 /\
  isRectValid (item_x it) (item_y it) (tableWidth (type it) * scale)
    (totalHOf scale (type it)) polygon holes = true.

(** [n] steps of length [d]. *)
Definition steps (n : nat) (d : Q) : Q := inject_Z (Z.of_nat n) * d.

(** The number of positions [a, a + d, a + 2d, ...] strictly below [B]. *)
Definition fits (a d B : Q) (c : nat) : Prop :=
  (forall j, (j < c)%nat -> a + steps j d < B) /\ ~ (a + steps c d < B).

(** A catalog entry 50 mm "narrower than nothing": placing it leaves the
    column cursor where it was. *)
Definition stallingEntry : FurnitureSet :=
  mkFurnitureSet "stall" "stall" (- (50)) 450 0 0 "" None.

(** Two catalog entries, 3000 mm and 1000 mm wide, in this priority order. *)
Definition wideEntry : FurnitureSet :=
  mkFurnitureSet "wide" "wide" 3000 450 0 0 "" None.
Definition narrowEntry : FurnitureSet :=
  mkFurnitureSet "narrow" "narrow" 1000 450 0 0 "" None.

(** The row loop's test at the first cursor position. *)
Definition sweepEntered (polygon : list Point) (scale aisleGap : Q) : Prop :=
  match polygon with
  | [] => False
  | p0 :: rest =>
      minY (boundsOf p0 rest) + aisleGap * scale < maxY (boundsOf p0 rest)
  end.

(** The number of entries of [l] equal, as numbers, to [q]. *)
Definition countQ (q : Q) (l : list Q) : nat :=
  length (filter (Qeq_bool q) l).

(** The groups of a list that is already sorted. *)
Definition groupsOfSorted (t : Q) (sorted : list Q) : list (list Q) :=
  match sorted with
  | [] => []
  | s0 :: rest => groupLoop t rest [] [s0]
  end.

(** The groups [snapValues] forms from [values]. *)
Definition groupsOf (t : Q) (values : list Q) : list (list Q) :=
  match sortAsc values with
  | [] => []
  | s0 :: rest => groupLoop t rest [] [s0]
  end.

(** Every value of [g] is strictly below every value of [g']. *)
Definition below (g g' : list Q) : Prop :=
  forall u v, In u g -> In v g' -> u < v.

(** [k] is, as a number, one of the values of [g]. *)
Definition memQ (k : Q) (g : list Q) : bool :=
  existsb (fun u => Qeq_bool u k) g.

(** The value [snapValues] gives to the members of a group. *)
Definition snapIn (g : list Q) (v : Q) : Q :=
  if Qeq_bool (average g) 0 then v else average g.

(** A group after snapping. *)
Definition snapGroup (g : list Q) : list Q := map (snapIn g) g.

(** Consecutive groups, each starting more than [t] above the end of the
    previous one. *)
Inductive stepped (t : Q) : list (list Q) -> Prop :=
| stepped_nil : stepped t []
| stepped_one g : stepped t [g]
| stepped_cons g a g' gs :
    last g 0 + t < a ->
    stepped t ((a :: g') :: gs) -> stepped t (g :: (a :: g') :: gs).

(** ** Notions used in the further properties of the engine *)

(** The clearance between two items, [a] pushed before [b]: in the same
    row, [b] starts 50 mm (scaled) right of the table of [a]; in a later
    row, [b] starts an aisle below the footprint of [a]. *)
Definition clearOf (scale pxAisleGap : Q) (a b : PlacedItem) : Prop :=
  (item_y a = item_y b /\
   item_x a + tableWidth (type a) * scale + 50 * scale <= item_x b) \/
  item_y a + totalHOf scale (type a) + pxAisleGap <= item_y b.

(** An item whose catalog entry is replaced by its image under [g]. *)
Definition retype (g : FurnitureSet -> FurnitureSet) (it : PlacedItem)
  : PlacedItem :=
  mkPlacedItem (item_id it) (item_x it) (item_y it) (rotation it)
    (g (type it)).

Definition retypeState (g : FurnitureSet -> FurnitureSet) (st : RowState)
  : RowState :=
  mkRowState (map (retype g) (items st)) (drawn st) (rowHeight st).

(** [g] changes neither the table size of a catalog entry nor whether it
    is switched off. *)
Definition keepsFootprint (g : FurnitureSet -> FurnitureSet) : Prop :=
  forall f,
    tableWidth (g f) = tableWidth f /\ tableDepth (g f) = tableDepth f /\
    (enabled (g f) = Some false <-> enabled f = Some false).

(** The edges the ray-casting loop visits, in its order: each vertex of
    [vs] paired with the vertex visited before it, [vj] for the first. *)
Fixpoint edgesFrom (vj : Point) (vs : list Point) : list (Point * Point) :=
  match vs with
  | [] => []
  | vi :: rest => (vi, vj) :: edgesFrom vi rest
  end.

(** The parity of the number of edges of [es] the ray crosses. *)
Definition crossings (px py : Q) (es : list (Point * Point)) : bool :=
  fold_right (fun e acc => xorb (intersect px py (fst e) (snd e)) acc)
    false es.

(** The edges of the closed polygon [vs]. *)
Definition closedEdges (vs : list Point) : list (Point * Point) :=
  match vs with
  | [] => []
  | v0 :: _ => edgesFrom (last vs v0) vs
  end.

(** An edge walked the other way. *)
Definition swapEdge (e : Point * Point) : Point * Point := (snd e, fst e).

(** [p] lies left of, right of, above or below the bounding box; the left
    and the top side belong to the box, the right and the bottom side do
    not. *)
Definition outsideBounds (b : Bounds) (p : Point) : Prop :=
  x p < minX b \/ maxX b <= x p \/ y p < minY b \/ maxY b <= y p.

(** [p] lies in the bounding box, in the same sense. *)
Definition withinBounds (b : Bounds) (p : Point) : Prop :=
  (minX b <= x p /\ x p < maxX b) /\ (minY b <= y p /\ y p < maxY b).

(** Every value of [g'] exceeds every value of [g] by more than [t]. *)
Definition apart (t : Q) (g g' : list Q) : Prop :=
  forall u v, In u g -> In v g' -> u + t < v.

(** None of the sample points [cs] lies in the bounding box of the
    vertices of [hole]. *)
Definition clearOfBox (cs : list Point) (hole : list Point) : Prop :=
  match hole with
  | [] => True
  | v0 :: rest => forall c, In c cs -> outsideBounds (boundsOf v0 rest) c
  end.

(** ** The caller of the engine (App.tsx) *)

(** [t.enabled !== false], the test of [activeTypes] in
    [handleGenerateLayout] and of the catalog check boxes. *)
Definition isActive (t : FurnitureSet) : bool :=
  match enabled t with
  | Some false => false
  | _ => true
  end.

(** [furnitureTypes.filter(t => t.enabled !== false)] *)
Definition activeTypes (furnitureTypes : list FurnitureSet)
  : list FurnitureSet :=
  filter isActive furnitureTypes.

(** [{ ...t, unitPrice: price }] and [{ ...t, enabled: b }] *)
Definition withUnitPrice (t : FurnitureSet) (price : Q) : FurnitureSet :=
  mkFurnitureSet (id t) (name t) (tableWidth t) (tableDepth t) (chairCount t)
    price (color t) (enabled t).

Definition withEnabled (t : FurnitureSet) (b : bool) : FurnitureSet :=
  mkFurnitureSet (id t) (name t) (tableWidth t) (tableDepth t) (chairCount t)
    (unitPrice t) (color t) (Some b).

(** The body of the [map] in [handlePriceChange]. *)
Definition setPrice (id0 : string) (price : Q) (t : FurnitureSet)
  : FurnitureSet :=
  if String.eqb (id t) id0 then withUnitPrice t price else t.

Definition handlePriceChange (prev : list FurnitureSet) (id0 : string)
    (price : Q) : list FurnitureSet :=
  map (setPrice id0 price) prev.

(** The truth value of [t.enabled]: an absent flag is falsy. *)
Definition truthy (flag : option bool) : bool :=
  match flag with
  | Some b => b
  | None => false
  end.

(** The body of the [map] in [handleToggleType]: [enabled: !t.enabled]. *)
Definition toggle (id0 : string) (t : FurnitureSet) : FurnitureSet :=
  if String.eqb (id t) id0 then withEnabled t (negb (truthy (enabled t)))
  else t.

Definition handleToggleType (prev : list FurnitureSet) (id0 : string)
  : list FurnitureSet :=
  map (toggle id0) prev.

(** The catalogs the application can hold: the state starts as
    [FURNITURE_TYPES] and is written by these two handlers only. *)
Inductive catalogOfApp : list FurnitureSet -> Prop :=
| catalog_initial : catalogOfApp FURNITURE_TYPES
| catalog_price fts id0 price :
    catalogOfApp fts -> catalogOfApp (handlePriceChange fts id0 price)
| catalog_toggle fts id0 :
    catalogOfApp fts -> catalogOfApp (handleToggleType fts id0).

(** ** Totals of a layout (App.tsx) *)

(** [Record<string, number>]: the own keys in insertion order, one binding
    per key.  Keys that [Object.prototype] defines and keys that read as
    array indices are outside the model. *)
Definition Counts : Type := list (string * Q).

Fixpoint countsGet (k : string) (c : Counts) : option Q :=
  match c with
  | [] => None
  | (k', v) :: c' => if String.eqb k' k then Some v else countsGet k c'
  end.

Fixpoint countsSet (k : string) (v : Q) (c : Counts) : Counts :=
  match c with
  | [] => [(k, v)]
  | (k', v') :: c' =>
      if String.eqb k' k then (k', v) :: c' else (k', v') :: countsSet k v c'
  end.

(** [counts[name] || 0]: zero when the key is absent or bound to zero. *)
Definition orZero (o : option Q) : Q :=
  match o with
  | Some v => if Qeq_bool v 0 then 0 else v
  | None => 0
  end.

(** The body of [generatedItems.forEach]: [cost += item.type.unitPrice] and
    [counts[item.type.name] = (counts[item.type.name] || 0) + 1]. *)
Definition tallyStep (acc : Q * Counts) (item : PlacedItem) : Q * Counts :=
  (fst acc + unitPrice (type item),
   countsSet (name (type item))
     (orZero (countsGet (name (type item)) (snd acc)) + 1) (snd acc)).

Definition tally (generatedItems : list PlacedItem) : Q * Counts :=
  fold_left tallyStep generatedItems (0, []).

(** [newResults[p] = { items, cost, counts }] *)
Record LayoutResult : Type := mkLayoutResult {
  result_items : list PlacedItem;
  result_cost : Q;
  result_counts : Counts
}.

Definition resultOf (generatedItems : list PlacedItem) : LayoutResult :=
  mkLayoutResult generatedItems (fst (tally generatedItems))
    (snd (tally generatedItems)).

(** The identifiers still to come after [k] of them were drawn. *)
Definition idsFrom (ids : nat -> string) (k : nat) : nat -> string :=
  fun n => ids (k + n)%nat.

(** What [handleGenerateLayout] does: it raises the alert and stops, or it
    stores one result per density pattern. *)
Inductive Outcome : Type :=
| Alerted
| Generated (crampedResult standardResult spaciousResult : LayoutResult).

(** One round of [patterns.forEach]. *)
Definition generateFor (fuel : nat) (ids : nat -> string)
    (polygon : list Point) (holes : list (list Point)) (scale : Q)
    (active : list FurnitureSet) (p : LayoutPattern) : option LayoutResult :=
  option_map resultOf
    (generateLayout fuel ids polygon holes scale p active
       (PATTERN_CONFIG.aisleGap p)).

(** [handleGenerateLayout].  The guard [!scale] is true for the number
    zero.  The three calls of [generateLayout] draw their identifiers from
    the same generator, one after the other.  [None] when [fuel] iterations
    do not finish one of the calls. *)
Definition handleGenerateLayout (fuel : nat) (ids : nat -> string)
    (polygon : list Point) (holes : list (list Point)) (scale : Q)
    (furnitureTypes : list FurnitureSet) : option Outcome :=
  if Nat.ltb (length polygon) 3 || Qeq_bool scale 0 then Some Alerted
  else
    let active := activeTypes furnitureTypes in
    match generateFor fuel ids polygon holes scale active cramped with
    | None => None
    | Some r1 =>
        let n1 := length (result_items r1) in
        match generateFor fuel (idsFrom ids n1) polygon holes scale active
                standard with
        | None => None
        | Some r2 =>
            let n2 := length (result_items r2) in
            match generateFor fuel (idsFrom ids (n1 + n2)) polygon holes
                    scale active spacious with
            | None => None
            | Some r3 => Some (Generated r1 r2 r3)
            end
        end
    end.

(** ** The estimate table (EstimateModal.tsx) *)

Record TableRow : Type := mkTableRow {
  row_name : string;
  row_count : Q;
  row_unitPrice : Q;
  subtotal : Q
}.

(** The body of [Object.entries(counts).map]: [null] when no item carries
    the name. *)
Definition tableRow (items : list PlacedItem) (entry : string * Q)
  : option TableRow :=
  match find (fun i => String.eqb (name (type i)) (fst entry)) items with
  | None => None
  | Some item =>
      Some (mkTableRow (fst entry) (snd entry) (unitPrice (type item))
              (unitPrice (type item) * snd entry))
  end.

(** [.filter(Boolean)] on a list of rows and [null]s. *)
Fixpoint filterBoolean {A : Type} (l : list (option A)) : list A :=
  match l with
  | [] => []
  | Some a :: l' => a :: filterBoolean l'
  | None :: l' => filterBoolean l'
  end.

Definition tableRows (items : list PlacedItem) (counts : Counts)
  : list TableRow :=
  filterBoolean (map (tableRow items) counts).

(** The sum of the amounts the table lists. *)
Definition rowsTotal (items : list PlacedItem) (counts : Counts) : Q :=
  sumQ (map subtotal (tableRows items counts)).

(** The number of items that carry the name [n], as a number. *)
Definition itemsNamed (n : string) (l : list PlacedItem) : Q :=
  inject_Z (Z.of_nat
    (length (filter (fun i => String.eqb (name (type i)) n) l))).

(** ** A layout with two kinds of tables *)

(** What [generateLayout] returns for the 6300 x 6000 room at scale 1 with
    the standard aisle: two rows of two type-1 tables and a type-3 table. *)
Definition mixedLayout : list PlacedItem :=
  [mkPlacedItem "" 1300 1300 0 type1; mkPlacedItem "" 3150 1300 0 type1;
   mkPlacedItem "" 5000 1300 0 type3; mkPlacedItem "" 1300 3650 0 type1;
   mkPlacedItem "" 3150 3650 0 type1; mkPlacedItem "" 5000 3650 0 type3].

(** ** Drawing the room and the holes (App.tsx, LayoutCanvas.tsx) *)

Inductive Mode : Type :=
| view
| edit_polygon
| set_scale
| draw_polygon
| draw_hole.

(** The part of the application state the drawing handlers read and
    write. *)
Record Drawing : Type := mkDrawing {
  polygon : list Point;
  holes : list (list Point);
  mode : Mode;
  tempPoints : list Point;
  scaleLine : option (Point * Point)
}.

(** [setTempPoints(prev => prev.slice(0, -1))] *)
Definition handleUndo (s : Drawing) : Drawing :=
  mkDrawing (polygon s) (holes s) (mode s) (removelast (tempPoints s))
    (scaleLine s).

(** [handleFinish] of App.tsx; the boolean tells whether the alert was
    raised. *)
Definition handleFinish (s : Drawing) : Drawing * bool :=
  if Nat.leb 3 (length (tempPoints s)) then
    (match mode s with
     | draw_polygon =>
         mkDrawing (tempPoints s) (holes s) view [] (scaleLine s)
     | draw_hole =>
         mkDrawing (polygon s) (holes s ++ [tempPoints s]) (mode s) []
           (scaleLine s)
     | _ => mkDrawing (polygon s) (holes s) (mode s) [] (scaleLine s)
     end, false)
  else (s, true).

(** [handleFinishDrawing] of LayoutCanvas.tsx, run when the first vertex
    of the outline being drawn is clicked: [onPolygonChange] is the
    application's [setPolygon] and [onFinishDrawing] its [handleFinish],
    which reads [tempPoints], [mode] and [holes] as they were. *)
Definition handleFinishDrawing (s : Drawing) : Drawing * bool :=
  if Nat.leb 3 (length (tempPoints s)) then
    handleFinish
      (mkDrawing (tempPoints s) (holes s) (mode s) (tempPoints s)
         (scaleLine s))
  else (s, false).

(** The Shift-key logic of [handleStageClick]: the position is moved onto
    the horizontal or the vertical line through the last point. *)
Definition axisLock (lastPoint pos : Point) : Point :=
  let dx := Qabs (x pos - x lastPoint) in
  let dy := Qabs (y pos - y lastPoint) in
  if Qgtb dx dy then mkPoint (x pos) (y lastPoint)
  else mkPoint (x lastPoint) (y pos).

Definition lockedPos (shiftKey : bool) (temp : list Point) (pos : Point)
  : Point :=
  if shiftKey && Nat.ltb 0 (length temp)
  then axisLock (last temp (mkPoint 0 0)) pos
  else pos.

(** [handleStageClick] of LayoutCanvas.tsx.  [pointer] is the result of
    [getStagePointerPos], [None] for [null]; the callbacks are the setters
    of the application. *)
Definition handleStageClick (s : Drawing) (shiftKey : bool)
    (pointer : option Point) : Drawing :=
  match pointer with
  | None => s
  | Some pos0 =>
      let pos := lockedPos shiftKey (tempPoints s) pos0 in
      match mode s with
      | draw_polygon | draw_hole =>
          mkDrawing (polygon s) (holes s) (mode s) (tempPoints s ++ [pos])
            (scaleLine s)
      | set_scale =>
          match scaleLine s with
          | Some _ => s
          | None =>
              match tempPoints s with
              | [] =>
                  mkDrawing (polygon s) (holes s) (mode s) [pos] (scaleLine s)
              | start :: _ =>
                  mkDrawing (polygon s) (holes s) (mode s) []
                    (Some (start, pos))
              end
          end
      | _ => s
      end
  end.

(** ** Editing the room (LayoutCanvas.tsx) *)

(** [handlePointDblClick]: the polygon after the handler, which removes
    the vertex at [index] unless a triangle or less would remain. *)
Definition handlePointDblClick (m : Mode) (poly : list Point) (index : nat)
  : list Point :=
  match m with
  | edit_polygon =>
      if Nat.leb (length poly) 3 then poly
      else firstn index poly ++ skipn (S index) poly
  | _ => poly
  end.

Section Distance.

(** [Math.sqrt], which has no counterpart on the rationals, is a parameter. *)
Variable sqrt : Q -> Q.

(** [pDistance]: the distance from [(x, y)] to the segment from [(x1, y1)]
    to [(x2, y2)]. *)
Definition pDistance (x y x1 y1 x2 y2 : Q) : Q :=
  let A := x - x1 in
  let B := y - y1 in
  let C := x2 - x1 in
  let D := y2 - y1 in
  let dot := A * C + B * D in
  let len_sq := C * C + D * D in
  let param := if Qeq_bool len_sq 0 then - (1) else dot / len_sq in
  let xx := if Qltb param 0 then x1
            else if Qgtb param 1 then x2 else x1 + param * C in
  let yy := if Qltb param 0 then y1
            else if Qgtb param 1 then y2 else y1 + param * D in
  let dx := x - xx in
  let dy := y - yy in
  sqrt (dx * dx + dy * dy).

(** The distance from the pointer to segment [i] of the polygon, from
    vertex [i] to vertex [(i + 1) % polygon.length]. *)
Definition segmentDistance (poly : list Point) (pointer : Point) (i : nat)
  : Q :=
  let p1 := nth i poly (mkPoint 0 0) in
  let p2 := nth ((i + 1) mod length poly) poly (mkPoint 0 0) in
  pDistance (x pointer) (y pointer) (x p1) (y p1) (x p2) (y p2).

(** The body of the search loop of [handleLineClick].  The state holds
    [minDistance], [None] standing for [Infinity], and [insertIndex],
    [None] standing for -1. *)
Definition closestStep (poly : list Point) (pointer : Point)
    (st : option Q * option nat) (i : nat) : option Q * option nat :=
  let dist := segmentDistance poly pointer i in
  let closer := match fst st with
                | None => true
                | Some minDistance => Qltb dist minDistance
                end in
  if closer then (Some dist, Some (i + 1)%nat) else st.

Definition closestSegment (poly : list Point) (pointer : Point)
  : option Q * option nat :=
  fold_left (closestStep poly pointer) (seq 0 (length poly)) (None, None).

(** [handleLineClick]: the polygon after a click at [pointer], which
    inserts the clicked point after the first vertex of the closest
    segment. *)
Definition handleLineClick (m : Mode) (poly : list Point) (pointer : Point)
  : list Point :=
  match m with
  | edit_polygon =>
      match snd (closestSegment poly pointer) with
      | Some insertIndex =>
          firstn insertIndex poly ++
            mkPoint (x pointer) (y pointer) :: skipn insertIndex poly
      | None => poly
      end
  | _ => poly
  end.

End Distance.

(** ** The floor area (App.tsx) *)

(** The body of the loop of [calculatePolygonArea], with
    [j = (i + 1) % poly.length]. *)
Definition shoelaceStep (poly : list Point) (area : Q) (i : nat) : Q :=
  let j := ((i + 1) mod length poly)%nat in
  let pi := nth i poly (mkPoint 0 0) in
  let pj := nth j poly (mkPoint 0 0) in
  area + x pi * y pj - x pj * y pi.

Definition shoelace (poly : list Point) : Q :=
  fold_left (shoelaceStep poly) (seq 0 (length poly)) 0.

(** [calculatePolygonArea], in square metres.  With a scale whose square
    is zero the code divides by zero and the result is [Infinity] or [NaN],
    no number of this model: [None]. *)
Definition calculatePolygonArea (poly : list Point) (currentScale : Q)
  : option Q :=
  if Nat.ltb (length poly) 3 then Some 0
  else
    let area := Qabs (shoelace poly) / 2 in
    if Qeq_bool (currentScale * currentScale) 0 then None
    else Some (area / (currentScale * currentScale) / 1000000).

(** The term an edge contributes to the shoelace sum; the edge is given
    as the ray-casting loop lists it, its end point first. *)
Definition cross (e : Point * Point) : Q :=
  x (snd e) * y (fst e) - x (fst e) * y (snd e).

(** Equality of two results of [calculatePolygonArea], as numbers. *)
Definition sameArea (a b : option Q) : Prop :=
  match a, b with
  | Some u, Some v => u == v
  | None, None => True
  | _, _ => False
  end.

(** ** The pages of the estimate (EstimateModal.tsx) *)

(** The loop [while (heightLeft >= 0)] of [handleDownloadPDF], with the
    page height 297: the vertical positions at which the image was drawn
    on the pages added so far.  [None] when the fuel runs out. *)
Fixpoint pageLoop (fuel : nat) (imgHeight heightLeft : Q)
    (positions : list Q) : option (list Q) :=
  match fuel with
  | O => None
  | S fuel' =>
      if Qle_bool 0 heightLeft then
        pageLoop fuel' imgHeight (heightLeft - 297)
          (positions ++ [heightLeft - imgHeight])
      else Some positions
  end.

(** The positions of the image on the pages of the document, the first
    page included. *)
Definition pagePositions (fuel : nat) (imgHeight : Q) : option (list Q) :=
  pageLoop fuel imgHeight (imgHeight - 297) [0].

(** The number of pages the loop produces for an image of a given
    height: one, and one more for every whole page height the image
    spans. *)
Definition pageCount (imgHeight : Q) : nat :=
  S (Z.to_nat (Qfloor (imgHeight / 297))).

(** ** The chairs of a placed table (LayoutCanvas.tsx) *)

(** [spacing] and [xPos] of chair [i], relative to the item.  They are
    computed once per chair drawn, so with [chairCount] at least 1 and a
    positive divisor. *)
Definition chairSpacing (scale : Q) (f : FurnitureSet) : Q :=
  (tableWidth f * scale - chairCount f * (CHAIR_DIMENSIONS.width * scale)) /
  (chairCount f + 1).

Definition chairXPos (scale : Q) (f : FurnitureSet) (i : nat) : Q :=
  chairSpacing scale f +
  inject_Z (Z.of_nat i) *
    (CHAIR_DIMENSIONS.width * scale + chairSpacing scale f).

(** The lower edges of the two rectangles of a chair, relative to the
    item: the body starts at the table's lower edge and is [chairD * 0.7]
    high, the back starts [chairD * 0.5] lower and is [chairD * 0.2]
    high. *)
Definition chairBodyBottom (scale : Q) (f : FurnitureSet) : Q :=
  tableDepth f * scale + CHAIR_DIMENSIONS.depth * scale * (7 # 10).

Definition chairBackBottom (scale : Q) (f : FurnitureSet) : Q :=
  tableDepth f * scale +
  (CHAIR_DIMENSIONS.depth * scale * (5 # 10) +
   CHAIR_DIMENSIONS.depth * scale * (2 # 10)).

(** * Properties of the containment tester *)

#[global] Instance Qltb_comp : Proper (Qeq ==> Qeq ==> eq) Qltb.
Proof. intros a a' Ha b b' Hb. unfold Qltb. now rewrite Ha, Hb. Qed.

#[global] Instance Qgtb_comp : Proper (Qeq ==> Qeq ==> eq) Qgtb.
Proof. intros a a' Ha b b' Hb. unfold Qgtb. now rewrite Ha, Hb. Qed.

Lemma Qltb_lt a b : Qltb a b = true <-> a < b.
Proof.
  unfold Qltb. rewrite negb_true_iff, <- not_true_iff_false, Qle_bool_iff.
  split; [apply Qnot_le_lt | apply Qlt_not_le].
Qed.

Lemma Qltb_ge a b : Qltb a b = false <-> b <= a.
Proof. unfold Qltb. now rewrite negb_false_iff, Qle_bool_iff. Qed.

(** The crossing test does not depend on the direction in which the edge
    is walked: both directions compute the same intersection abscissa. *)
Lemma intersect_sym px py a b : intersect px py a b = intersect px py b a.
Proof.
  unfold intersect. rewrite (xorb_comm (Qgtb (y a) py)).
  destruct (xorb (Qgtb (y b) py) (Qgtb (y a) py)) eqn:E; [simpl | reflexivity].
  assert (Hne : ~ y b - y a == 0).
  { intro H. assert (Hab : y b == y a) by lra.
    rewrite Hab, xorb_nilpotent in E. discriminate. }
  apply Qltb_comp; [reflexivity | field]. split; [lra | exact Hne].
Qed.

(** A vertex list with fewer than three vertices contains no point. *)
Lemma isPointInPolygon_degenerate point vs :
  (length vs < 3)%nat -> isPointInPolygon point vs = false.
Proof.
  destruct vs as [|a [|b [|c vs]]]; intros Hlen; simpl in Hlen; try lia.
  - reflexivity.
  - unfold isPointInPolygon; simpl. unfold intersect.
    now rewrite xorb_nilpotent.
  - unfold isPointInPolygon; simpl.
    rewrite (intersect_sym _ _ b a).
    now destruct (intersect (x point) (y point) a b).
Qed.



#[global] Instance intersect_comp :
  Proper (Qeq ==> Qeq ==> eq ==> eq ==> eq) intersect.
Proof.
  intros px px' Hx py py' Hy vi vi' <- vj vj' <-. unfold intersect.
  now rewrite Hx, Hy.
Qed.

Lemma rayLoop_comp px px' py py' vj vs inside :
  px == px' -> py == py' ->
  rayLoop px py vj vs inside = rayLoop px' py' vj vs inside.
Proof.
  intros Hx Hy. revert vj inside.
  induction vs as [|vi rest IH]; intros vj inside; simpl; [reflexivity|].
  now rewrite IH, (intersect_comp _ _ Hx _ _ Hy vi vi eq_refl vj vj eq_refl).
Qed.

(** The test reads a point only through the value of its coordinates. *)
Lemma isPointInPolygon_comp p q vs :
  Point_eq p q -> isPointInPolygon p vs = isPointInPolygon q vs.
Proof.
  intros [Hx Hy]. destruct vs as [|v0 vs]; [reflexivity|].
  unfold isPointInPolygon. now apply rayLoop_comp.
Qed.

Lemma admissible_comp polygon holes p q :
  Point_eq p q -> admissible polygon holes p -> admissible polygon holes q.
Proof.
  intros Hpq [Hin Hout]. split.
  - now rewrite <- (isPointInPolygon_comp p q).
  - eapply Forall_impl; [|exact Hout]. intros hole Hh; simpl in Hh.
    now rewrite <- (isPointInPolygon_comp p q).
Qed.

Lemma outsideHoles_true cs holes :
  outsideHoles cs holes = true ->
  Forall (fun p => Forall (fun hole => isPointInPolygon p hole = false) holes)
         cs.
Proof.
  induction holes as [|hole rest IH]; simpl; intros H.
  - apply Forall_forall. intros; constructor.
  - destruct (existsb _ cs) eqn:E; [discriminate|].
    specialize (IH H). rewrite Forall_forall in IH |- *.
    intros p Hp. constructor; [|now apply IH].
    destruct (isPointInPolygon p hole) eqn:Ep; [|reflexivity].
    assert (existsb (fun p => isPointInPolygon p hole) cs = true)
      by (apply existsb_exists; eauto).
    congruence.
Qed.

(** What [isRectValid] establishes when it answers [true]. *)
Lemma isRectValid_true x0 y0 w h polygon holes :
  isRectValid x0 y0 w h polygon holes = true ->
  Forall (admissible polygon holes) (corners x0 y0 w h).
Proof.
  unfold isRectValid.
  destruct (forallb _ (corners x0 y0 w h)) eqn:E; simpl; [|discriminate].
  intros H. apply outsideHoles_true in H.
  rewrite forallb_forall in E. rewrite Forall_forall in H |- *.
  intros p Hp. split; [now apply E | now apply H].
Qed.

Lemma corners_comp x0 y0 w h h' :
  h == h' -> Forall2 Point_eq (corners x0 y0 w h) (corners x0 y0 w h').
Proof.
  intros Hh. unfold corners.
  repeat constructor; simpl; try reflexivity; now rewrite Hh.
Qed.

Lemma Forall_admissible_comp polygon holes l l' :
  Forall2 Point_eq l l' ->
  Forall (admissible polygon holes) l -> Forall (admissible polygon holes) l'.
Proof.
  induction 1 as [|p q l l' Hpq _ IH]; intros H; [constructor|].
  inversion H; subst. constructor; [|now apply IH].
  now apply (admissible_comp _ _ p q).
Qed.

(** * Properties of the placement engine *)

Section SweepFacts.

Variable ids : nat -> string.
Variable polygon : list Point.
Variable holes : list (list Point).
Variable scale : Q.
Variable furnitureTypes : list FurnitureSet.
Variable bounds : Bounds.
Variable pxAisleGap : Q.

Local Abbreviation firstFit := (firstFit polygon holes scale).
Local Abbreviation columnLoop :=
  (columnLoop ids polygon holes scale furnitureTypes bounds).
Local Abbreviation rowLoop :=
  (rowLoop ids polygon holes scale furnitureTypes bounds pxAisleGap).

Lemma firstFit_Some cx cy fTypes f w totalH :
  firstFit cx cy fTypes = Some (f, w, totalH) ->
  In f fTypes /\ enabled f <> Some false /\
  w = tableWidth f * scale /\ totalH = totalHOf scale f /\
  isRectValid cx cy w totalH polygon holes = true.
Proof.
  induction fTypes as [|g rest IH]; simpl; [discriminate|].
  assert (Hrest : firstFit cx cy rest = Some (f, w, totalH) ->
          In f (g :: rest) /\ enabled f <> Some false /\
          w = tableWidth f * scale /\ totalH = totalHOf scale f /\
          isRectValid cx cy w totalH polygon holes = true).
  { intros H. destruct (IH H) as (Hin & Hrem). split; [now right | exact Hrem]. }
  assert (Htry :
    (if isRectValid cx cy (tableWidth g * scale)
          (tableDepth g * scale + CHAIR_DIMENSIONS.depth * scale)
          polygon holes
     then Some (g, tableWidth g * scale,
                tableDepth g * scale + CHAIR_DIMENSIONS.depth * scale)
     else firstFit cx cy rest) = Some (f, w, totalH) ->
    enabled g <> Some false ->
    In f (g :: rest) /\ enabled f <> Some false /\
    w = tableWidth f * scale /\ totalH = totalHOf scale f /\
    isRectValid cx cy w totalH polygon holes = true).
  { destruct (isRectValid cx cy (tableWidth g * scale) _ polygon holes)
      eqn:E;
      [|intros H _; now apply Hrest].
    intros H Hen. inversion H; subst. unfold totalHOf.
    repeat split; auto. now left. }
  destruct (enabled g) as [[|]|] eqn:En; auto;
    intros H; apply Htry; auto; discriminate.
Qed.

Lemma columnLoop_emitted fuel : forall cy cx st st',
  Forall (emitted polygon holes scale furnitureTypes) (items st) ->
  columnLoop fuel cy cx st = Some st' ->
  Forall (emitted polygon holes scale furnitureTypes) (items st').
Proof.
  induction fuel as [|fuel IH]; intros cy cx st st' Hst; simpl;
    [discriminate|].
  destruct (Qltb cx (maxX bounds)); [|now intros [= <-]].
  destruct (firstFit cx cy furnitureTypes) as [[[f w] totalH]|] eqn:E.
  - apply IH. simpl. apply Forall_app; split; [exact Hst|].
    constructor; [|constructor].
    destruct (firstFit_Some _ _ _ _ _ _ E) as (Hin & Hen & -> & -> & Hv).
    now repeat split.
  - now apply IH.
Qed.

Lemma rowLoop_emitted fuel : forall cy acc n res,
  Forall (emitted polygon holes scale furnitureTypes) acc ->
  rowLoop fuel cy acc n = Some res ->
  Forall (emitted polygon holes scale furnitureTypes) res.
Proof.
  induction fuel as [|fuel IH]; intros cy acc n res Hacc; simpl;
    [discriminate|].
  destruct (Qltb cy (maxY bounds)); [|now intros [= <-]].
  destruct (columnLoop fuel cy _ _) as [st|] eqn:E; [|discriminate].
  apply columnLoop_emitted in E; [|exact Hacc].
  destruct (Qltb 0 (rowHeight st)); now apply IH.
Qed.

End SweepFacts.

(** C1.  Every item returned by [generateLayout] passed the containment
    test when it was pushed: the four corners and the centre of its
    footprint, [tableWidth * scale] wide and [(tableDepth + 600) * scale]
    high, are inside the main polygon and inside no hole. *)
Theorem generateLayout_containment :
  forall fuel ids polygon holes scale pattern furnitureTypes aisleGap res it,
    generateLayout fuel ids polygon holes scale pattern furnitureTypes
      aisleGap = Some res ->
    In it res ->
    Forall (fun p =>
              isPointInPolygon p polygon = true /\
              Forall (fun hole => isPointInPolygon p hole = false) holes)
      (corners (item_x it) (item_y it)
         (tableWidth (type it) * scale)
         ((tableDepth (type it) + 600) * scale)).
Proof.
  intros fuel ids polygon holes scale pattern fts gap res it Hrun Hin.
  assert (Hall : Forall (emitted polygon holes scale fts) res).
  { unfold generateLayout in Hrun. destruct polygon as [|p0 rest].
    - injection Hrun as <-. constructor.
    - eapply rowLoop_emitted; [|exact Hrun]. constructor. }
  rewrite Forall_forall in Hall.
  destruct (Hall it Hin) as (_ & _ & _ & Hv).
  apply isRectValid_true in Hv.
  eapply (Forall_admissible_comp polygon holes); [|exact Hv].
  apply corners_comp. unfold totalHOf, CHAIR_DIMENSIONS.depth. ring.
Qed.

Lemma generateLayout_containment_witness :
  Forall (fun p =>
            isPointInPolygon p (squareRoom 6000) = true /\
            Forall (fun hole => isPointInPolygon p hole = false) [])
    (corners 1300 1300 (1200 * 1) ((450 + 600) * 1)).
Proof.
  apply (generateLayout_containment 64 noIds (squareRoom 6000) [] 1 standard
           [type3] 1300
           [mkPlacedItem "" 1300 1300 0 type3;
            mkPlacedItem "" 2550 1300 0 type3;
            mkPlacedItem "" 3800 1300 0 type3;
            mkPlacedItem "" 1300 3650 0 type3;
            mkPlacedItem "" 2550 3650 0 type3;
            mkPlacedItem "" 3800 3650 0 type3]
           (mkPlacedItem "" 1300 1300 0 type3)).
  - vm_compute. reflexivity.
  - simpl. left. reflexivity.
Defined.

(** ** Fuel and identifiers *)

Section Fuel.

Variable ids : nat -> string.
Variable polygon : list Point.
Variable holes : list (list Point).
Variable scale : Q.
Variable furnitureTypes : list FurnitureSet.
Variable bounds : Bounds.
Variable pxAisleGap : Q.

Local Abbreviation columnLoop :=
  (columnLoop ids polygon holes scale furnitureTypes bounds).
Local Abbreviation rowLoop :=
  (rowLoop ids polygon holes scale furnitureTypes bounds pxAisleGap).

(** A loop that finished within [fuel] iterations finishes, with the same
    result, within any larger number. *)
Lemma columnLoop_fuel_mono fuel : forall fuel' cy cx st r,
  (fuel <= fuel')%nat ->
  columnLoop fuel cy cx st = Some r -> columnLoop fuel' cy cx st = Some r.
Proof.
  induction fuel as [|fuel IH]; intros fuel' cy cx st r Hle; simpl;
    [discriminate|].
  destruct fuel' as [|fuel']; [lia|]. simpl.
  destruct (Qltb cx (maxX bounds)); [|auto].
  destruct (firstFit _ _ _ _ _ _) as [[[f w] totalH]|]; apply IH; lia.
Qed.

Lemma rowLoop_fuel_mono fuel : forall fuel' cy acc n r,
  (fuel <= fuel')%nat ->
  rowLoop fuel cy acc n = Some r -> rowLoop fuel' cy acc n = Some r.
Proof.
  induction fuel as [|fuel IH]; intros fuel' cy acc n r Hle; simpl;
    [discriminate|].
  destruct fuel' as [|fuel']; [lia|]. simpl.
  destruct (Qltb cy (maxY bounds)); [|auto].
  destruct (columnLoop fuel cy _ _) as [st|] eqn:E; [|discriminate].
  rewrite (columnLoop_fuel_mono fuel fuel' _ _ _ st) by (lia || exact E).
  destruct (Qltb 0 (rowHeight st)); apply IH; lia.
Qed.

End Fuel.

(** The loops read the identifier sequence only through its values. *)
Lemma columnLoop_ids_ext ids ids' polygon holes scale fts bounds fuel :
  (forall n, ids n = ids' n) ->
  forall cy cx st,
    columnLoop ids polygon holes scale fts bounds fuel cy cx st =
    columnLoop ids' polygon holes scale fts bounds fuel cy cx st.
Proof.
  intros Hids. induction fuel as [|fuel IH]; intros cy cx st; simpl;
    [reflexivity|].
  destruct (Qltb cx (maxX bounds)); [|reflexivity].
  destruct (firstFit _ _ _ _ _ _) as [[[f w] totalH]|];
    now rewrite ?Hids, IH.
Qed.

Lemma rowLoop_ids_ext ids ids' polygon holes scale fts bounds gap fuel :
  (forall n, ids n = ids' n) ->
  forall cy acc n,
    rowLoop ids polygon holes scale fts bounds gap fuel cy acc n =
    rowLoop ids' polygon holes scale fts bounds gap fuel cy acc n.
Proof.
  intros Hids. induction fuel as [|fuel IH]; intros cy acc n; simpl;
    [reflexivity|].
  destruct (Qltb cy (maxY bounds)); [|reflexivity].
  rewrite (columnLoop_ids_ext ids ids' _ _ _ _ _ fuel Hids).
  destruct (columnLoop ids' _ _ _ _ _ fuel cy _ _) as [st|]; [|reflexivity].
  destruct (Qltb 0 (rowHeight st)); apply IH.
Qed.

Lemma generateLayout_fuel_mono fuel fuel' ids polygon holes scale pattern
    furnitureTypes aisleGap r :
  (fuel <= fuel')%nat ->
  generateLayout fuel ids polygon holes scale pattern furnitureTypes aisleGap
    = Some r ->
  generateLayout fuel' ids polygon holes scale pattern furnitureTypes aisleGap
    = Some r.
Proof.
  unfold generateLayout. destruct polygon as [|p0 rest]; [auto|].
  apply rowLoop_fuel_mono.
Qed.

(** C9.  Two calls with the same inputs and the same sequence of generated
    identifiers return the same list: same items, same order. *)
Theorem generateLayout_deterministic :
  forall fuel1 fuel2 ids1 ids2 polygon holes scale pattern furnitureTypes
         aisleGap r1 r2,
    (forall n, ids1 n = ids2 n) ->
    generateLayout fuel1 ids1 polygon holes scale pattern furnitureTypes
      aisleGap = Some r1 ->
    generateLayout fuel2 ids2 polygon holes scale pattern furnitureTypes
      aisleGap = Some r2 ->
    r1 = r2.
Proof.
  intros fuel1 fuel2 ids1 ids2 polygon holes scale pattern fts gap r1 r2
    Hids H1 H2.
  apply (generateLayout_fuel_mono _ (Nat.max fuel1 fuel2)) in H1; [|lia].
  apply (generateLayout_fuel_mono _ (Nat.max fuel1 fuel2)) in H2; [|lia].
  unfold generateLayout in H1, H2. destruct polygon as [|p0 rest].
  - congruence.
  - rewrite (rowLoop_ids_ext ids1 ids2 _ _ _ _ _ _ _ Hids) in H1. congruence.
Qed.

Lemma generateLayout_deterministic_witness :
  generateLayout 64 noIds (squareRoom 6000) [] 1 standard [type3] 1300 =
  generateLayout 80 noIds (squareRoom 6000) [] 1 standard [type3] 1300.
Proof.
  destruct (generateLayout 64 noIds (squareRoom 6000) [] 1 standard [type3]
              1300) as [r1|] eqn:E1; [|vm_compute in E1; discriminate].
  destruct (generateLayout 80 noIds (squareRoom 6000) [] 1 standard [type3]
              1300) as [r2|] eqn:E2; [|vm_compute in E2; discriminate].
  f_equal.
  exact (generateLayout_deterministic 64 80 noIds noIds (squareRoom 6000) []
           1 standard [type3] 1300 r1 r2 (fun n => eq_refl) E1 E2).
Defined.

(** C2.  Scenario B: in the 6000 x 6000 square, at one pixel per
    millimetre, with one enabled 1200 x 450 entry and a 1300 mm aisle gap,
    the sweep returns six items, three per row, at x = 1300, 2550, 3800 and
    y = 1300, 3650, row by row. *)
Theorem generateLayout_scenario_B :
  forall ids pattern entry,
    tableWidth entry = 1200 -> tableDepth entry = 450 ->
    enabled entry <> Some false ->
    exists fuel,
      generateLayout fuel ids (squareRoom 6000) [] 1 pattern [entry] 1300 =
      Some [ mkPlacedItem (ids 0%nat) 1300 1300 0 entry;
             mkPlacedItem (ids 1%nat) 2550 1300 0 entry;
             mkPlacedItem (ids 2%nat) 3800 1300 0 entry;
             mkPlacedItem (ids 3%nat) 1300 3650 0 entry;
             mkPlacedItem (ids 4%nat) 2550 3650 0 entry;
             mkPlacedItem (ids 5%nat) 3800 3650 0 entry ].
Proof.
  intros ids pattern [i n w d c u col en] Hw Hd Hen; simpl in *. subst w d.
  exists 64%nat.
  destruct en as [[|]|]; [| congruence |]; vm_compute; reflexivity.
Qed.

Lemma generateLayout_scenario_B_witness :
  exists fuel,
    generateLayout fuel noIds (squareRoom 6000) [] 1 standard [type3] 1300 =
    Some [ mkPlacedItem "" 1300 1300 0 type3;
           mkPlacedItem "" 2550 1300 0 type3;
           mkPlacedItem "" 3800 1300 0 type3;
           mkPlacedItem "" 1300 3650 0 type3;
           mkPlacedItem "" 2550 3650 0 type3;
           mkPlacedItem "" 3800 3650 0 type3 ].
Proof.
  apply (generateLayout_scenario_B noIds standard type3).
  - reflexivity.
  - reflexivity.
  - simpl. discriminate.
Defined.

(** ** Progress of the two cursors *)

Lemma steps_S n d : steps (S n) d == steps n d + d.
Proof.
  unfold steps. rewrite Nat2Z.inj_succ, <- Z.add_1_r, inject_Z_plus. ring.
Qed.

Lemma steps_0 d : steps 0 d == 0.
Proof. unfold steps. simpl. ring. Qed.

(** Any distance is covered by finitely many steps of positive length. *)
Lemma steps_reach (q d : Q) : 0 < d -> exists n, q <= steps n d.
Proof.
  intros Hd. exists (Z.to_nat (Qceiling (q / d))). unfold steps.
  assert (H1 : q / d <= inject_Z (Qceiling (q / d))) by apply Qle_ceiling.
  assert (H2 : inject_Z (Qceiling (q / d)) <=
               inject_Z (Z.of_nat (Z.to_nat (Qceiling (q / d))))).
  { rewrite <- Zle_Qle. lia. }
  assert (H3 : q == q / d * d) by (field; lra).
  rewrite H3 at 1. apply Qmult_le_compat_r; lra.
Qed.

(** A positive lower bound for the positive values of [g] over a catalog. *)
Lemma positive_lower_bound (g : FurnitureSet -> Q) (l : list FurnitureSet)
    (c : Q) :
  0 < c ->
  exists d, 0 < d /\ d <= c /\ forall f, In f l -> 0 < g f -> d <= g f.
Proof.
  intros Hc. induction l as [|a l (d & Hd & Hdc & Hl)].
  - exists c. repeat split; [lra | lra | intros f []].
  - destruct (Qlt_le_dec (g a) d) as [Hlt|Hge].
    + destruct (Qlt_le_dec 0 (g a)) as [Hpos|Hneg].
      * exists (g a). repeat split; [lra | lra |].
        intros f [<-|Hin] Hf; [lra|]. specialize (Hl f Hin Hf). lra.
      * exists d. repeat split; [lra | lra |].
        intros f [<-|Hin] Hf; [lra | now apply Hl].
    + exists d. repeat split; [lra | lra |].
      intros f [<-|Hin] Hf; [lra | now apply Hl].
Qed.

Lemma Qmax_cases a b : Qmax a b = a \/ Qmax a b = b.
Proof.
  unfold Qmax, GenericMinMax.gmax. destruct (a ?= b); auto.
Qed.

Section Progress.

Variable ids : nat -> string.
Variable polygon : list Point.
Variable holes : list (list Point).
Variable scale : Q.
Variable furnitureTypes : list FurnitureSet.
Variable bounds : Bounds.
Variable pxAisleGap : Q.

Local Abbreviation firstFit := (firstFit polygon holes scale).
Local Abbreviation columnLoop :=
  (columnLoop ids polygon holes scale furnitureTypes bounds).
Local Abbreviation rowLoop :=
  (rowLoop ids polygon holes scale furnitureTypes bounds pxAisleGap).

(** The column loop ends when every iteration moves the cursor to the
    right by at least [d]. *)
Lemma columnLoop_terminates d cy :
  0 < d -> d <= 50 * scale ->
  (forall cx f w h,
      firstFit cx cy furnitureTypes = Some (f, w, h) ->
      d <= w + 50 * scale) ->
  forall n cx st,
    maxX bounds - cx <= steps n d ->
    exists st', columnLoop (S n) cy cx st = Some st'.
Proof.
  intros Hd Hskip Hfit.
  induction n as [|n IH]; intros cx st Hdist.
  - rewrite steps_0 in Hdist. simpl.
    destruct (Qltb cx (maxX bounds)) eqn:E; [|eauto].
    apply Qltb_lt in E. lra.
  - rewrite steps_S in Hdist.
    change (columnLoop (S (S n)) cy cx st) with
      (if Qltb cx (maxX bounds) then
         match firstFit cx cy furnitureTypes with
         | Some (fType, w, totalH) =>
             columnLoop (S n) cy (cx + (w + 50 * scale))
               (mkRowState
                  (items st ++ [mkPlacedItem (ids (drawn st)) cx cy 0 fType])
                  (S (drawn st)) (Qmax (rowHeight st) totalH))
         | None => columnLoop (S n) cy (cx + 50 * scale) st
         end
       else Some st).
    destruct (Qltb cx (maxX bounds)); [|eauto].
    destruct (firstFit cx cy furnitureTypes) as [[[f w] h]|] eqn:F.
    + apply IH. specialize (Hfit _ _ _ _ F). lra.
    + apply IH. lra.
Qed.

(** The row height the column loop leaves is the one it started with or
    the footprint height of a catalog entry. *)
Lemma columnLoop_rowHeight fuel : forall cy cx st st',
  columnLoop fuel cy cx st = Some st' ->
  rowHeight st' = rowHeight st \/
  exists f, In f furnitureTypes /\ rowHeight st' = totalHOf scale f.
Proof.
  induction fuel as [|fuel IH]; intros cy cx st st'; simpl; [discriminate|].
  destruct (Qltb cx (maxX bounds)); [|intros [= <-]; now left].
  destruct (firstFit cx cy furnitureTypes) as [[[f w] h]|] eqn:F;
    [|apply IH].
  intros H. apply IH in H. simpl in H.
  destruct (firstFit_Some _ _ _ _ _ _ _ _ _ F) as (Hin & _ & _ & -> & _).
  destruct H as [H|H]; [|now right].
  destruct (Qmax_cases (rowHeight st) (totalHOf scale f)) as [E|E];
    rewrite E in H; [now left | right; eauto].
Qed.

(** The row loop ends when every column loop ends within [fc] iterations
    and every row moves the cursor down by at least [d]; an invariant
    [Inv] of the item list kept by the column loop holds of the result. *)
Lemma rowLoop_terminates (Inv : list PlacedItem -> Prop) d fc :
  0 < d -> d <= 100 * scale ->
  (forall cy acc k,
      Inv acc ->
      exists st',
        columnLoop fc cy (minX bounds + pxAisleGap) (mkRowState acc k 0)
          = Some st' /\
        Inv (items st') /\
        (0 < rowHeight st' -> d <= rowHeight st' + pxAisleGap)) ->
  forall n cy acc k,
    Inv acc ->
    maxY bounds - cy <= steps n d ->
    exists res, rowLoop (S (fc + n)) cy acc k = Some res /\ Inv res.
Proof.
  intros Hd Hskip Hcol.
  induction n as [|n IH]; intros cy acc k Hacc Hdist.
  - rewrite steps_0 in Hdist. simpl.
    destruct (Qltb cy (maxY bounds)) eqn:E; [|eauto].
    apply Qltb_lt in E. lra.
  - rewrite steps_S in Hdist.
    change (rowLoop (S (fc + S n)) cy acc k) with
      (if Qltb cy (maxY bounds) then
         match columnLoop (fc + S n) cy (minX bounds + pxAisleGap)
                 (mkRowState acc k 0) with
         | Some st =>
             if Qltb 0 (rowHeight st)
             then rowLoop (fc + S n) (cy + (rowHeight st + pxAisleGap))
                    (items st) (drawn st)
             else rowLoop (fc + S n) (cy + 100 * scale)
                    (items st) (drawn st)
         | None => None
         end
       else Some acc).
    destruct (Qltb cy (maxY bounds)); [|eauto].
    destruct (Hcol cy acc k Hacc) as (st & Hst & Hinv & Hrow).
    rewrite (columnLoop_fuel_mono _ _ _ _ _ _ fc (fc + S n)%nat _ _ _ st)
      by (lia || exact Hst).
    replace (fc + S n)%nat with (S (fc + n)) by lia.
    destruct (Qltb 0 (rowHeight st)) eqn:E.
    + apply Qltb_lt in E. specialize (Hrow E). apply IH; [exact Hinv | lra].
    + apply IH; [exact Hinv | lra].
Qed.

End Progress.

(** ** Termination of the sweep *)

(** With a positive scale, a non-negative aisle gap and enabled entries
    wider than -50 mm, both cursors advance by a positive amount bounded
    from below, so the sweep ends. *)
Lemma rowLoop_total ids polygon holes scale furnitureTypes bounds aisleGap :
  0 < scale -> 0 <= aisleGap ->
  (forall f, In f furnitureTypes -> enabled f <> Some false ->
             - (50) < tableWidth f) ->
  forall cy, exists fuel res,
    rowLoop ids polygon holes scale furnitureTypes bounds (aisleGap * scale)
      fuel cy [] 0 = Some res.
Proof.
  intros Hscale Hgap Hwide cy.
  assert (Hpx : 0 <= aisleGap * scale) by nra.
  destruct (positive_lower_bound (fun f => (tableWidth f + 50) * scale)
              furnitureTypes (50 * scale)) as (dx & Hdx & Hdx50 & Hdxf);
    [lra|].
  destruct (positive_lower_bound (totalHOf scale) furnitureTypes
              (100 * scale)) as (dy & Hdy & Hdy100 & Hdyf); [lra|].
  destruct (steps_reach (maxX bounds - (minX bounds + aisleGap * scale)) dx
              Hdx) as (nc & Hnc).
  destruct (steps_reach (maxY bounds - cy) dy Hdy) as (nr & Hnr).
  assert (Hcol : forall cy' st, exists st',
             columnLoop ids polygon holes scale furnitureTypes bounds (S nc)
               cy' (minX bounds + aisleGap * scale) st = Some st').
  { intros cy' st.
    apply (columnLoop_terminates _ _ _ _ _ _ dx cy'); auto.
    intros cx f w h F.
    destruct (firstFit_Some _ _ _ _ _ _ _ _ _ F) as (Hin & Hen & -> & _).
    specialize (Hwide f Hin Hen).
    assert (0 < (tableWidth f + 50) * scale) by nra.
    specialize (Hdxf f Hin H). lra. }
  destruct (rowLoop_terminates ids polygon holes scale furnitureTypes bounds
              (aisleGap * scale) (fun _ => True) dy (S nc) Hdy Hdy100)
    with (n := nr) (cy := cy) (acc := @nil PlacedItem) (k := 0%nat)
    as (res & Hres & _); auto.
  - intros cy' acc k _. destruct (Hcol cy' (mkRowState acc k 0)) as (st & Hst).
    exists st. repeat split; [exact Hst|]. intros Hpos.
    destruct (columnLoop_rowHeight _ _ _ _ _ _ _ _ _ _ _ Hst) as [E|(f & Hin & E)];
      simpl in E; rewrite E in Hpos |- *; [lra|].
    specialize (Hdyf f Hin Hpos). lra.
  - eauto.
Qed.

Lemma generateLayout_total ids polygon holes scale pattern furnitureTypes
    aisleGap :
  0 < scale -> 0 <= aisleGap ->
  (forall f, In f furnitureTypes -> enabled f <> Some false ->
             - (50) < tableWidth f) ->
  exists fuel res,
    generateLayout fuel ids polygon holes scale pattern furnitureTypes
      aisleGap = Some res.
Proof.
  intros Hscale Hgap Hwide.
  unfold generateLayout. destruct polygon as [|p0 rest].
  - exists 0%nat, []. reflexivity.
  - now apply rowLoop_total.
Qed.



Lemma columnLoop_stalls ids fuel : forall st,
  columnLoop ids (squareRoom 6000) [] 1 [stallingEntry]
    (mkBounds 0 6000 0 6000) fuel 1300 1300 st = None.
Proof.
  induction fuel as [|fuel IH]; intros st; [reflexivity|].
  change (columnLoop ids (squareRoom 6000) [] 1 [stallingEntry]
            (mkBounds 0 6000 0 6000) (S fuel) 1300 1300 st)
    with (columnLoop ids (squareRoom 6000) [] 1 [stallingEntry]
            (mkBounds 0 6000 0 6000) fuel 1300 1300
            (mkRowState
               (items st ++
                  [mkPlacedItem (ids (drawn st)) 1300 1300 0 stallingEntry])
               (S (drawn st)) (Qmax (rowHeight st) 1050))).
  apply IH.
Qed.


(** ** Runs that never end *)

Section Stalled.

Variable ids : nat -> string.
Variable polygon : list Point.
Variable holes : list (list Point).
Variable scale : Q.
Variable furnitureTypes : list FurnitureSet.
Variable bounds : Bounds.
Variable pxAisleGap : Q.

Hypothesis scale_nonpositive : scale <= 0.
Hypothesis no_advance :
  forall f, In f furnitureTypes -> enabled f <> Some false ->
            (tableWidth f + 50) * scale <= 0.

Local Abbreviation columnLoop :=
  (columnLoop ids polygon holes scale furnitureTypes bounds).
Local Abbreviation rowLoop :=
  (rowLoop ids polygon holes scale furnitureTypes bounds pxAisleGap).

(** Once entered, the column loop never leaves: the cursor does not move
    to the right. *)
Lemma columnLoop_never_ends fuel : forall cy cx st,
  cx < maxX bounds -> columnLoop fuel cy cx st = None.
Proof.
  induction fuel as [|fuel IH]; intros cy cx st Hcx; simpl; [reflexivity|].
  apply Qltb_lt in Hcx as E. rewrite E.
  destruct (firstFit polygon holes scale cx cy furnitureTypes)
    as [[[f w] h]|] eqn:F.
  - apply IH.
    destruct (firstFit_Some _ _ _ _ _ _ _ _ _ F) as (Hin & Hen & -> & _).
    specialize (no_advance f Hin Hen). lra.
  - apply IH. lra.
Qed.

(** Once entered, the row loop never leaves either. *)
Lemma rowLoop_never_ends fuel : forall cy acc n,
  cy < maxY bounds -> rowLoop fuel cy acc n = None.
Proof.
  induction fuel as [|fuel IH]; intros cy acc n Hcy; simpl; [reflexivity|].
  apply Qltb_lt in Hcy as E. rewrite E.
  destruct (Qlt_le_dec (minX bounds + pxAisleGap) (maxX bounds)) as [Hx|Hx].
  - now rewrite columnLoop_never_ends.
  - destruct fuel as [|fuel']; [reflexivity|].
    apply Qltb_ge in Hx. simpl. rewrite Hx. simpl.
    change (Qltb 0 0) with false. cbv iota.
    apply (IH (cy + 100 * scale) acc n). lra.
Qed.

End Stalled.

(** With scale 0 no catalog entry advances the column cursor; with a
    negative scale none not narrower than -50 mm does. *)
Lemma no_advance_nonpositive scale furnitureTypes :
  scale <= 0 ->
  scale == 0 \/
  (forall f, In f furnitureTypes -> enabled f <> Some false ->
             - (50) <= tableWidth f) ->
  forall f, In f furnitureTypes -> enabled f <> Some false ->
            (tableWidth f + 50) * scale <= 0.
Proof.
  intros Hs [H0|Hw] f Hin Hen.
  - rewrite H0. lra.
  - specialize (Hw f Hin Hen). nra.
Qed.

Lemma generateLayout_never_ends ids polygon holes scale pattern
    furnitureTypes aisleGap :
  scale <= 0 ->
  scale == 0 \/
  (forall f, In f furnitureTypes -> enabled f <> Some false ->
             - (50) <= tableWidth f) ->
  sweepEntered polygon scale aisleGap ->
  forall fuel,
    generateLayout fuel ids polygon holes scale pattern furnitureTypes
      aisleGap = None.
Proof.
  intros Hscale Hwide Henter fuel. unfold generateLayout.
  destruct polygon as [|p0 rest]; [destruct Henter|].
  apply rowLoop_never_ends; [exact Hscale | | exact Henter].
  now apply no_advance_nonpositive.
Qed.

Lemma generateLayout_not_entered ids polygon holes scale pattern
    furnitureTypes aisleGap fuel :
  ~ sweepEntered polygon scale aisleGap ->
  generateLayout (S fuel) ids polygon holes scale pattern furnitureTypes
    aisleGap = Some [].
Proof.
  intros Hout. unfold generateLayout.
  destruct polygon as [|p0 rest]; [reflexivity|]. simpl in Hout.
  apply Qnot_lt_le, Qltb_ge in Hout. simpl. now rewrite Hout.
Qed.

(** C3, as the code has it.  [generateLayout] does not validate [scale] and
    has no error result.  With scale 0, or with a negative scale and enabled
    catalog entries not narrower than -50 mm, it goes straight to the row
    loop's test: when the first cursor position is below [maxY] the sweep is
    entered and the call never returns, and otherwise the call returns the
    empty list. *)
Theorem generateLayout_nonpositive_scale :
  forall ids polygon holes scale pattern furnitureTypes aisleGap,
    scale <= 0 ->
    scale == 0 \/
    (forall f, In f furnitureTypes -> enabled f <> Some false ->
               - (50) <= tableWidth f) ->
    (sweepEntered polygon scale aisleGap ->
     forall fuel,
       generateLayout fuel ids polygon holes scale pattern furnitureTypes
         aisleGap = None) /\
    (~ sweepEntered polygon scale aisleGap ->
     forall fuel,
       generateLayout (S fuel) ids polygon holes scale pattern furnitureTypes
         aisleGap = Some []).
Proof.
  intros ids polygon holes scale pattern fts gap Hscale Hwide. split.
  - now apply generateLayout_never_ends.
  - intros Hout fuel. now apply generateLayout_not_entered.
Qed.

Lemma generateLayout_nonpositive_scale_witness :
  (sweepEntered (squareRoom 6000) 0 1300 ->
   forall fuel,
     generateLayout fuel noIds (squareRoom 6000) [] 0 standard
       FURNITURE_TYPES 1300 = None) /\
  (~ sweepEntered (squareRoom 6000) 0 1300 ->
   forall fuel,
     generateLayout (S fuel) noIds (squareRoom 6000) [] 0 standard
       FURNITURE_TYPES 1300 = Some []).
Proof.
  apply (generateLayout_nonpositive_scale noIds (squareRoom 6000) [] 0
           standard FURNITURE_TYPES 1300).
  - discriminate.
  - left. reflexivity.
Defined.

(** C3, counterexample.  With scale 0 the 6000 x 6000 square is not
    rejected: the row loop is entered with the cursor at [minY = 0], no
    iteration moves it, and the call returns nothing, neither an error nor
    a list, however many iterations are allowed. *)
Lemma generateLayout_rejects_counterexample :
  sweepEntered (squareRoom 6000) 0 1300 /\
  ~ (exists fuel res,
       generateLayout fuel noIds (squareRoom 6000) [] 0 standard
         FURNITURE_TYPES 1300 = Some res).
Proof.
  assert (Henter : sweepEntered (squareRoom 6000) 0 1300) by reflexivity.
  split; [exact Henter|]. intros (fuel & res & H).
  rewrite generateLayout_never_ends in H;
    [discriminate | discriminate | now left | exact Henter].
Qed.

(** ** Rooms with fewer than three vertices *)

Lemma isRectValid_degenerate x0 y0 w h polygon holes :
  (length polygon < 3)%nat -> isRectValid x0 y0 w h polygon holes = false.
Proof.
  intros Hlen. unfold isRectValid, corners. simpl.
  now rewrite (isPointInPolygon_degenerate _ polygon Hlen).
Qed.

Lemma firstFit_degenerate polygon holes scale cx cy fTypes :
  (length polygon < 3)%nat -> firstFit polygon holes scale cx cy fTypes = None.
Proof.
  intros Hlen. induction fTypes as [|f rest IH]; simpl; [reflexivity|].
  rewrite isRectValid_degenerate by exact Hlen.
  now destruct (enabled f) as [[|]|].
Qed.

Lemma columnLoop_no_fit ids polygon holes scale fts bounds fuel cy :
  (forall cx, firstFit polygon holes scale cx cy fts = None) ->
  forall cx st st',
    columnLoop ids polygon holes scale fts bounds fuel cy cx st = Some st' ->
    st' = st.
Proof.
  intros Hnone. induction fuel as [|fuel IH]; intros cx st st'; simpl;
    [discriminate|].
  destruct (Qltb cx (maxX bounds)); [|now intros [= <-]].
  rewrite Hnone. apply IH.
Qed.

Lemma rowLoop_degenerate ids polygon holes scale fts bounds pxAisleGap :
  (length polygon < 3)%nat -> 0 < scale ->
  forall cy, exists fuel,
    rowLoop ids polygon holes scale fts bounds pxAisleGap fuel cy [] 0
    = Some [].
Proof.
  intros Hlen Hscale cy.
  assert (Hd : 0 < 50 * scale) by lra.
  assert (Hd' : 0 < 100 * scale) by lra.
  destruct (steps_reach (maxX bounds - (minX bounds + pxAisleGap))
              (50 * scale) Hd) as (nc & Hnc).
  destruct (steps_reach (maxY bounds - cy) (100 * scale) Hd') as (nr & Hnr).
  destruct (rowLoop_terminates ids polygon holes scale fts bounds pxAisleGap
              (fun l => l = []) (100 * scale) (S nc) Hd')
    with (n := nr) (cy := cy) (acc := @nil PlacedItem) (k := 0%nat)
    as (res & Hres & ->); auto; [lra | | eauto].
  intros cy' acc k ->.
  destruct (columnLoop_terminates ids polygon holes scale fts bounds
              (50 * scale) cy' Hd) with (n := nc)
    (cx := minX bounds + pxAisleGap) (st := mkRowState [] k 0)
    as (st & Hst); [lra | | exact Hnc |].
  - intros cx f w h F. rewrite firstFit_degenerate in F by exact Hlen.
    discriminate.
  - exists st. split; [exact Hst|].
    apply columnLoop_no_fit in Hst;
      [|intros; now apply firstFit_degenerate].
    subst st. simpl. split; [reflexivity | lra].
Qed.




(** * Properties of the rectilinear normalizer *)

(** ** Ascending lists and the sort *)

Lemma Qle_bool_false a b : Qle_bool a b = false -> b < a.
Proof.
  intros H. apply Qnot_le_lt. intros Hle.
  apply Qle_bool_iff in Hle. congruence.
Qed.

Lemma insertAsc_perm v l : Permutation (insertAsc v l) (v :: l).
Proof.
  induction l as [|h t IH]; simpl; [reflexivity|].
  destruct (Qle_bool v h); [reflexivity|].
  rewrite IH. apply perm_swap.
Qed.

Lemma sortAsc_perm l : Permutation (sortAsc l) l.
Proof.
  induction l as [|a l IH]; simpl; [reflexivity|].
  now rewrite insertAsc_perm, IH.
Qed.

Lemma insertAsc_ascending v l : ascending l -> ascending (insertAsc v l).
Proof.
  induction 1 as [|a|a b l Hab Hl IH]; simpl.
  - constructor.
  - destruct (Qle_bool v a) eqn:E.
    + constructor; [now apply Qle_bool_iff | constructor].
    + apply Qle_bool_false in E. constructor; [lra | constructor].
  - destruct (Qle_bool v a) eqn:E.
    + constructor; [now apply Qle_bool_iff | now constructor].
    + apply Qle_bool_false in E. simpl in IH.
      destruct (Qle_bool v b) eqn:E'.
      * constructor; [lra | exact IH].
      * constructor; [exact Hab | exact IH].
Qed.

Lemma sortAsc_ascending l : ascending (sortAsc l).
Proof.
  induction l as [|a l IH]; simpl; [constructor|].
  now apply insertAsc_ascending.
Qed.

Lemma ascending_tail a l : ascending (a :: l) -> ascending l.
Proof. inversion 1; subst; [constructor | assumption]. Qed.

Lemma ascending_head_le a l : ascending (a :: l) -> forall v, In v l -> a <= v.
Proof.
  revert a. induction l as [|b l IH]; intros a H v Hv; [destruct Hv|].
  inversion H; subst. destruct Hv as [<-|Hv]; [assumption|].
  specialize (IH b H4 v Hv). lra.
Qed.

Lemma ascending_app l1 l2 :
  ascending (l1 ++ l2) -> ascending l1 /\ ascending l2.
Proof.
  induction l1 as [|a l1 IH]; simpl; intros H; [split; [constructor|exact H]|].
  destruct (IH (ascending_tail _ _ H)) as [H1 H2]. split; [|exact H2].
  destruct l1 as [|b l1]; [constructor|].
  inversion H; subst. now constructor.
Qed.

Lemma ascending_app_le l1 l2 :
  ascending (l1 ++ l2) -> forall u v, In u l1 -> In v l2 -> u <= v.
Proof.
  induction l1 as [|a l1 IH]; simpl; intros H u v Hu Hv; [destruct Hu|].
  destruct Hu as [<-|Hu].
  - apply (ascending_head_le _ _ H). apply in_or_app. now right.
  - apply IH; auto. now apply ascending_tail in H.
Qed.

Lemma ascending_le_last a l : ascending (a :: l) ->
  forall u, In u (a :: l) -> u <= last (a :: l) 0.
Proof.
  revert a. induction l as [|b l IH]; intros a H u Hu.
  - destruct Hu as [<-|[]]. simpl. lra.
  - change (last (a :: b :: l) 0) with (last (b :: l) 0).
    pose proof (ascending_tail _ _ H) as Ht.
    destruct Hu as [<-|Hu]; [|now apply IH].
    inversion H; subst. specialize (IH b Ht b (or_introl eq_refl)). lra.
Qed.

Lemma countQ_perm q l l' : Permutation l l' -> countQ q l = countQ q l'.
Proof.
  unfold countQ.
  induction 1 as [|a l l' _ IH|a b l|l l' l'' _ IH1 _ IH2]; simpl; auto.
  - destruct (Qeq_bool q a); simpl; auto.
  - destruct (Qeq_bool q a), (Qeq_bool q b); simpl; auto.
  - congruence.
Qed.

Lemma countQ_pos q l : (0 < countQ q l)%nat -> exists u, In u l /\ q == u.
Proof.
  unfold countQ. induction l as [|a l IH]; simpl; [lia|].
  destruct (Qeq_bool q a) eqn:E.
  - intros _. exists a. split; [now left | now apply Qeq_bool_iff].
  - intros H. destruct (IH H) as (u & Hu & Hq). exists u. split; auto.
Qed.

(** Two ascending lists with the same numbers agree entry by entry. *)
Lemma ascending_unique l1 : forall l2,
  ascending l1 -> ascending l2 ->
  (forall q, countQ q l1 = countQ q l2) -> Forall2 Qeq l1 l2.
Proof.
  induction l1 as [|a l1 IH]; intros [|b l2] H1 H2 Hc.
  - constructor.
  - specialize (Hc b). unfold countQ in Hc. simpl in Hc.
    rewrite Qeq_bool_refl in Hc. discriminate.
  - specialize (Hc a). unfold countQ in Hc. simpl in Hc.
    rewrite Qeq_bool_refl in Hc. discriminate.
  - assert (Hab : a == b).
    { assert (Ha : exists u, In u (b :: l2) /\ a == u).
      { apply countQ_pos. rewrite <- Hc. unfold countQ. simpl.
        rewrite Qeq_bool_refl. simpl. lia. }
      assert (Hb : exists u, In u (a :: l1) /\ b == u).
      { apply countQ_pos. rewrite Hc. unfold countQ. simpl.
        rewrite Qeq_bool_refl. simpl. lia. }
      destruct Ha as (u & [<-|Hu] & Hau); [assumption|].
      destruct Hb as (v & [<-|Hv] & Hbv); [now symmetry|].
      pose proof (ascending_head_le _ _ H2 u Hu).
      pose proof (ascending_head_le _ _ H1 v Hv). lra. }
    constructor; [exact Hab|].
    apply IH; [now apply ascending_tail in H1 | now apply ascending_tail in H2|].
    intros q. specialize (Hc q). unfold countQ in Hc |- *. simpl in Hc.
    assert (E : Qeq_bool q a = Qeq_bool q b) by now rewrite Hab.
    rewrite E in Hc. destruct (Qeq_bool q b); simpl in Hc; lia.
Qed.

(** ** The grouping loop builds the chain partition *)

Lemma chained_nonempty t l : chained t l -> l <> [].
Proof. destruct 1; discriminate. Qed.

Lemma chained_snoc t cur v :
  chained t cur -> Qabs (v - last cur 0) <= t -> chained t (cur ++ [v]).
Proof.
  induction 1 as [a|a b l Hab Hl IH]; intros Hv.
  - simpl in *. constructor; [exact Hv | constructor].
  - change (last (a :: b :: l) 0) with (last (b :: l) 0) in Hv.
    simpl. constructor; [exact Hab | now apply IH].
Qed.

Lemma chained_join t cur v ext :
  cur <> [] -> chained t (cur ++ v :: ext) -> Qabs (v - last cur 0) <= t.
Proof.
  induction cur as [|a cur IH]; intros Hne H; [congruence|].
  destruct cur as [|b cur].
  - simpl in *. now inversion H; subst.
  - change (last (a :: b :: cur) 0) with (last (b :: cur) 0).
    apply IH; [discriminate|]. simpl in H. now inversion H; subst.
Qed.

(** What the loop returns: the closed groups, then the current group
    extended by a prefix of the remaining values, then further groups. *)
Lemma groupLoop_shape t : forall rest closed cur,
  chained t cur ->
  exists ext more,
    groupLoop t rest closed cur = closed ++ (cur ++ ext) :: more /\
    concat ((cur ++ ext) :: more) = cur ++ rest /\
    Forall (chained t) ((cur ++ ext) :: more) /\
    separated t ((cur ++ ext) :: more).
Proof.
  induction rest as [|val rest IH]; intros closed cur Hc; cbn [groupLoop].
  - exists [], []. simpl. rewrite !app_nil_r.
    repeat split; [now repeat constructor | constructor].
  - destruct (Qle_bool (Qabs (val - last cur 0)) t) eqn:E.
    + destruct (IH closed (cur ++ [val])) as (ext & more & Hg & Hcat & Hch & Hs).
      { apply chained_snoc; [exact Hc | now apply Qle_bool_iff]. }
      exists (val :: ext), more. rewrite <- app_assoc in Hg, Hcat, Hch, Hs.
      cbn [app concat] in Hg, Hcat, Hch, Hs |- *.
      split; [exact Hg|]. split; [|split; assumption].
      rewrite <- (app_assoc cur [val] rest) in Hcat. exact Hcat.
    + destruct (IH (closed ++ [cur]) [val]) as (ext & more & Hg & Hcat & Hch & Hs);
        [constructor|].
      exists [], ((val :: ext) :: more). rewrite app_nil_r.
      cbn [app concat] in Hg, Hcat, Hch, Hs |- *.
      repeat split.
      * now rewrite Hg, <- app_assoc.
      * now rewrite Hcat.
      * now constructor.
      * constructor; [now apply Qle_bool_false in E | exact Hs].
Qed.

Lemma snapValues_groupsOf values t :
  snapValues values t = map (getOr (buildValueMap (groupsOf t values))) values.
Proof.
  unfold snapValues, groupsOf.
  destruct (sortAsc values) as [|s0 rest] eqn:E; [|reflexivity].
  pose proof (sortAsc_perm values) as Hp. rewrite E in Hp.
  apply Permutation_nil in Hp. now subst.
Qed.

Lemma groupsOf_partition t values :
  chainPartition t (sortAsc values) (groupsOf t values).
Proof.
  unfold groupsOf, chainPartition.
  destruct (sortAsc values) as [|s0 rest]; [repeat split; constructor|].
  destruct (groupLoop_shape t rest [] [s0]) as (ext & more & Hg & Hcat & Hch & Hs);
    [constructor|].
  rewrite Hg. simpl in *. now repeat split.
Qed.

(** Conversely, the loop recovers a chain partition from its values. *)
Lemma groupLoop_extend t : forall ext rest closed cur,
  cur <> [] -> chained t (cur ++ ext) ->
  groupLoop t (ext ++ rest) closed cur = groupLoop t rest closed (cur ++ ext).
Proof.
  induction ext as [|v ext IH]; intros rest closed cur Hne Hc;
    cbn [groupLoop app].
  - now rewrite app_nil_r.
  - pose proof (chained_join _ _ _ _ Hne Hc) as Hv.
    apply Qle_bool_iff in Hv. rewrite Hv.
    rewrite IH; [now rewrite <- app_assoc | now destruct cur |].
    now rewrite <- app_assoc.
Qed.

Lemma groupLoop_concat t : forall more g closed,
  Forall (chained t) (g :: more) -> separated t (g :: more) ->
  groupLoop t (concat more) closed g = closed ++ g :: more.
Proof.
  induction more as [|g2 more IH]; intros g closed Hch Hs; [reflexivity|].
  inversion Hs as [| |g' a g2' more' Hgap Hs' E1]; subst.
  inversion Hch as [|? ? Hg Hch']; subst.
  cbn [groupLoop app concat].
  destruct (Qle_bool (Qabs (a - last g 0)) t) eqn:E.
  - apply Qle_bool_iff in E. lra.
  - inversion Hch' as [|? ? Hg2 _]; subst.
    rewrite (groupLoop_extend t g2' (concat more) (closed ++ [g]) [a]);
      [|discriminate | exact Hg2].
    cbn [app]. rewrite IH; [now rewrite <- app_assoc | exact Hch' | exact Hs'].
Qed.

Lemma groupsOf_concat t gs values :
  Forall (chained t) gs -> separated t gs ->
  sortAsc values = concat gs -> groupsOf t values = gs.
Proof.
  intros Hch Hs E. unfold groupsOf. rewrite E.
  destruct gs as [|g more]; [reflexivity|].
  inversion Hch as [|? ? Hg Hch']; subst.
  destruct g as [|a g]; [now apply chained_nonempty in Hg|].
  cbn [concat app]. rewrite (groupLoop_extend t g (concat more) [] [a]);
    [|discriminate | exact Hg].
  now rewrite groupLoop_concat.
Qed.

(** ** Groups of an ascending list do not overlap *)

Lemma separated_tail t g gs : separated t (g :: gs) -> separated t gs.
Proof. inversion 1; subst; [constructor | assumption]. Qed.

Lemma partition_below t gs :
  0 <= t -> Forall (chained t) gs -> separated t gs ->
  ascending (concat gs) -> ForallOrdPairs below gs.
Proof.
  intros Ht. induction gs as [|g gs IH]; intros Hch Hs Hasc; [constructor|].
  inversion Hch as [|? ? Hg Hch']; subst. simpl in Hasc.
  destruct (ascending_app _ _ Hasc) as [Hag Hags].
  constructor; [|apply IH; auto; now apply separated_tail in Hs].
  inversion Hs as [| |g' a g2 more Hgap Hs' E1]; subst; [constructor|].
  destruct g as [|c g0]; [now apply chained_nonempty in Hg|].
  assert (Hlast : In (last (c :: g0) 0) (c :: g0)).
  { destruct (exists_last (l := c :: g0)) as (l' & z & E); [discriminate|].
    rewrite E, last_last. apply in_or_app. right. now left. }
  assert (Hla : last (c :: g0) 0 <= a).
  { apply (ascending_app_le _ _ Hasc); [exact Hlast | now left]. }
  assert (Hlt : last (c :: g0) 0 < a).
  { rewrite Qabs_pos in Hgap by lra. lra. }
  apply Forall_forall. intros g' Hg' u v Hu Hv.
  pose proof (ascending_le_last _ _ Hag u Hu) as Hul.
  assert (Hav : a <= v).
  { assert (Hin : In v (concat ((a :: g2) :: more)))
      by (apply in_concat; eauto).
    simpl in Hin. destruct Hin as [<-|Hin]; [lra|].
    now apply (ascending_head_le _ _ Hags). }
  lra.
Qed.

(** ** The value map *)

Lemma mapGet_mapSet k k' v m :
  mapGet k (mapSet k' v m) = if Qeq_bool k' k then Some v else mapGet k m.
Proof.
  induction m as [|[k1 v1] m IH]; cbn [mapSet mapGet]; [reflexivity|].
  destruct (Qeq_bool k1 k') eqn:E1; cbn [mapGet].
  - apply Qeq_bool_iff in E1.
    assert (E : Qeq_bool k' k = Qeq_bool k1 k) by now rewrite E1.
    rewrite E. now destruct (Qeq_bool k1 k).
  - rewrite IH. destruct (Qeq_bool k1 k) eqn:E2; [|reflexivity].
    destruct (Qeq_bool k' k) eqn:E3; [|reflexivity].
    apply Qeq_bool_iff in E2, E3. apply Qeq_bool_neq in E1.
    exfalso. apply E1. now rewrite E2, E3.
Qed.

Lemma memQ_In v g : In v g -> memQ v g = true.
Proof.
  intros H. apply existsb_exists. exists v. split; [exact H|].
  apply Qeq_bool_refl.
Qed.

Lemma memQ_below_l v g g' : below g g' -> In v g -> memQ v g' = false.
Proof.
  intros Hb Hv. apply not_true_iff_false. intros H.
  apply existsb_exists in H. destruct H as (u & Hu & E).
  apply Qeq_bool_iff in E. specialize (Hb v u Hv Hu). lra.
Qed.

Lemma mapGet_setValues k avg g : forall m,
  mapGet k (fold_left (fun m' v => mapSet v avg m') g m) =
  if memQ k g then Some avg else mapGet k m.
Proof.
  induction g as [|v g IH]; intros m; cbn [fold_left memQ existsb];
    [reflexivity|].
  fold (memQ k g). rewrite IH, mapGet_mapSet.
  now destruct (memQ k g), (Qeq_bool v k).
Qed.

Lemma mapGet_setGroup k g m :
  mapGet k (setGroup m g) =
  if memQ k g then Some (average g) else mapGet k m.
Proof. apply mapGet_setValues. Qed.

Lemma mapGet_groups_notin k gs : forall m,
  Forall (fun g => memQ k g = false) gs ->
  mapGet k (fold_left setGroup gs m) = mapGet k m.
Proof.
  induction gs as [|g gs IH]; intros m H; [reflexivity|].
  inversion H as [|? ? Hg Hgs]; subst. cbn [fold_left].
  now rewrite IH, mapGet_setGroup, Hg.
Qed.

(** In a map built from non-overlapping groups, a value of a group is
    bound to the average of that group. *)
Lemma mapGet_groups_in v g gs : forall m,
  ForallOrdPairs below gs -> In g gs -> In v g ->
  mapGet v (fold_left setGroup gs m) = Some (average g).
Proof.
  induction gs as [|g1 gs IH]; intros m Hb Hg Hv; [destruct Hg|].
  inversion Hb as [|? ? Hb1 Hbs]; subst. cbn [fold_left].
  destruct Hg as [->|Hg]; [|now apply IH].
  rewrite mapGet_groups_notin, mapGet_setGroup, (memQ_In v g Hv);
    [reflexivity|].
  eapply Forall_impl; [|exact Hb1]. intros g' Hg'. simpl.
  now apply (memQ_below_l v g g').
Qed.

Lemma getOr_comp m v v' : v == v' -> getOr m v == getOr m v'.
Proof.
  intros E. unfold getOr.
  assert (Hget : mapGet v m = mapGet v' m).
  { induction m as [|[k a] m IH]; cbn [mapGet]; [reflexivity|].
    assert (Ek : Qeq_bool k v = Qeq_bool k v') by now rewrite E.
    rewrite Ek, IH. reflexivity. }
  rewrite Hget. destruct (mapGet v' m) as [a|]; [|exact E].
  destruct (Qeq_bool a 0); [exact E | reflexivity].
Qed.

Lemma groupsOf_below t values :
  0 <= t -> ForallOrdPairs below (groupsOf t values).
Proof.
  intros Ht. destruct (groupsOf_partition t values) as (Hcat & Hch & Hs).
  apply (partition_below t); auto. rewrite Hcat. apply sortAsc_ascending.
Qed.

Lemma groupsOf_member t values v :
  In v values -> exists g, In g (groupsOf t values) /\ In v g.
Proof.
  intros Hv. destruct (groupsOf_partition t values) as (Hcat & _ & _).
  assert (Hin : In v (concat (groupsOf t values))).
  { rewrite Hcat. apply (Permutation_in v (Permutation_sym (sortAsc_perm values))).
    exact Hv. }
  apply in_concat in Hin. destruct Hin as (g & Hg & Hvg). eauto.
Qed.

Lemma getOr_groupsOf t values g v :
  0 <= t -> In g (groupsOf t values) -> In v g ->
  getOr (buildValueMap (groupsOf t values)) v = snapIn g v.
Proof.
  intros Ht Hg Hv. unfold getOr, buildValueMap, snapIn.
  now rewrite (mapGet_groups_in v g _ [] (groupsOf_below t values Ht) Hg Hv).
Qed.

(** [average] computes the arithmetic mean. *)
Lemma fold_left_Qplus l : forall a, fold_left Qplus l a == a + sumQ l.
Proof.
  induction l as [|b l IH]; intros a; simpl; [ring|].
  rewrite IH. ring.
Qed.

Lemma average_mean g : average g == mean g.
Proof.
  unfold average, mean. rewrite fold_left_Qplus.
  setoid_replace (0 + sumQ g) with (sumQ g) by ring. reflexivity.
Qed.

(** ** The snapping contract *)

Lemma snapValues_length values t :
  (length (snapValues values t) = length values)%nat.
Proof. rewrite snapValues_groupsOf. apply length_map. Qed.

Lemma snapIn_mean g v : ~ mean g == 0 -> snapIn g v == mean g.
Proof.
  intros Hm. unfold snapIn. destruct (Qeq_bool (average g) 0) eqn:E.
  - apply Qeq_bool_iff in E. rewrite average_mean in E. contradiction.
  - apply average_mean.
Qed.

Lemma snapValues_chainMeanSnap values t :
  0 <= t ->
  chainMeanSnap (fun m => ~ m == 0) t values (snapValues values t).
Proof.
  intros Ht. split; [apply snapValues_length|].
  exists (sortAsc values), (groupsOf t values).
  split; [apply sortAsc_perm|]. split; [apply sortAsc_ascending|].
  split; [apply groupsOf_partition|].
  rewrite snapValues_groupsOf. split.
  - intros i v o Hv Ho.
    rewrite (map_nth_error _ _ _ Hv) in Ho. injection Ho as <-.
    destruct (groupsOf_member t values v (nth_error_In _ _ Hv)) as (g & Hg & Hvg).
    exists g. split; [exact Hg|]. split; [exact Hvg|]. intros Hm.
    rewrite (getOr_groupsOf t values g v Ht Hg Hvg). now apply snapIn_mean.
  - intros i j v v' o o' Hv Hv' Ho Ho' E.
    rewrite (map_nth_error _ _ _ Hv) in Ho. injection Ho as <-.
    rewrite (map_nth_error _ _ _ Hv') in Ho'. injection Ho' as <-.
    now apply getOr_comp.
Qed.

Lemma map_nth_seq (l : list Q) :
  map (fun i => nth i l 0) (seq 0 (length l)) = l.
Proof.
  induction l as [|a l IH]; [reflexivity|].
  cbn [length seq map nth]. rewrite <- seq_shift, map_map. cbn [nth].
  now rewrite IH.
Qed.

(** With at least three points the coordinates of the result are the
    snapped coordinate lists. *)
Lemma snapToRectilinear_coords points t :
  (3 <= length points)%nat ->
  map x (snapToRectilinear points t) = snapValues (map x points) t /\
  map y (snapToRectilinear points t) = snapValues (map y points) t.
Proof.
  intros Hlen. unfold snapToRectilinear.
  assert (E : Nat.ltb (length points) 3 = false) by (apply Nat.ltb_ge; lia).
  rewrite E, !map_map. cbn [x y]. split.
  - rewrite <- (length_map x points), <- (snapValues_length (map x points) t).
    apply map_nth_seq.
  - rewrite <- (length_map y points), <- (snapValues_length (map y points) t).
    apply map_nth_seq.
Qed.

(** C4, as the code has it.  For every list of at least three points and
    every threshold [t >= 0], [snapToRectilinear] returns a list of the same
    length and order in which, independently for x and y, every coordinate
    whose chain has a non-zero mean is replaced by that mean, the chains
    being the maximal runs of the sorted values with consecutive gaps of at
    most [t]; equal raw coordinates receive equal snapped coordinates. *)
Theorem snapToRectilinear_chain_means :
  forall points t,
    (3 <= length points)%nat -> 0 <= t ->
    snapContract (fun m => ~ m == 0) points t.
Proof.
  intros points t Hlen Ht. unfold snapContract.
  destruct (snapToRectilinear_coords points t Hlen) as [Ex Ey].
  split.
  - rewrite <- (length_map x (snapToRectilinear points t)), Ex.
    now rewrite snapValues_length, length_map.
  - rewrite Ex, Ey. split; now apply snapValues_chainMeanSnap.
Qed.

Lemma snapToRectilinear_chain_means_witness :
  snapContract (fun m => ~ m == 0)
    [mkPoint 0 0; mkPoint 15 50; mkPoint 30 100; mkPoint 100 3] 20.
Proof.
  apply (snapToRectilinear_chain_means
           [mkPoint 0 0; mkPoint 15 50; mkPoint 30 100; mkPoint 100 3] 20).
  - simpl. lia.
  - discriminate.
Defined.

(** The chain partitions of the two values 0 and 10 at threshold 20. *)
Lemma chainPartition_0_10 gs :
  chainPartition 20 [0; 10] gs -> gs = [[0; 10]].
Proof.
  intros (Hcat & Hch & Hs).
  destruct gs as [|g1 gs]; [discriminate|].
  inversion Hch as [|? ? Hg1 Hch1]; subst.
  destruct g1 as [|a g1]; [now apply chained_nonempty in Hg1|].
  cbn [concat app] in Hcat. injection Hcat as -> Hcat.
  destruct g1 as [|b g1].
  - destruct gs as [|g2 gs]; [discriminate|].
    inversion Hch1 as [|? ? Hg2 Hch2]; subst.
    destruct g2 as [|c g2]; [now apply chained_nonempty in Hg2|].
    cbn [concat app] in Hcat. injection Hcat as -> Hcat.
    inversion Hs as [| |? ? ? ? Hgap _]; subst.
    exfalso. revert Hgap. cbn. discriminate.
  - cbn [app] in Hcat. injection Hcat as -> Hcat.
    destruct g1 as [|c g1]; [|discriminate].
    destruct gs as [|g2 gs]; [reflexivity|].
    inversion Hch1 as [|? ? Hg2 _]; subst.
    destruct g2 as [|c g2]; [now apply chained_nonempty in Hg2|discriminate].
Qed.

(** C4, counterexample.  The claim as stated, for every list and with the
    mean required of every chain, fails on the two points (0,0), (10,0) at
    threshold 20: the x values 0 and 10 form one chain of mean 5, and the
    list is returned unchanged. *)
Lemma snapToRectilinear_chain_means_counterexample :
  0 <= 20 /\
  ~ snapContract (fun _ => True) [mkPoint 0 0; mkPoint 10 0] 20.
Proof.
  split; [discriminate|].
  intros (_ & (_ & sorted & gs & Hperm & Hasc & Hpart & Hmean & _) & _).
  cbn in Hperm, Hmean.
  apply Permutation_sym, Permutation_length_2_inv in Hperm.
  destruct Hperm as [->| ->].
  - apply chainPartition_0_10 in Hpart. subst gs.
    destruct (Hmean 0%nat 0 0 eq_refl eq_refl) as (g & [<-|[]] & _ & Hm).
    specialize (Hm I). revert Hm. cbn. discriminate.
  - inversion Hasc as [| |? ? ? Hle _]; subst. lra.
Qed.

(** ** Chains of mean zero *)

(** Where a chain has mean zero, [valueMap.get(v) || v] yields the raw
    value: the members of the chain are left as they are. *)
Lemma snapValues_zero_mean_kept t values g v :
  0 <= t -> In g (groupsOf t values) -> In v g -> mean g == 0 ->
  getOr (buildValueMap (groupsOf t values)) v = v.
Proof.
  intros Ht Hg Hv Hm. rewrite (getOr_groupsOf t values g v Ht Hg Hv).
  unfold snapIn. rewrite <- average_mean in Hm.
  apply Qeq_bool_iff in Hm. now rewrite Hm.
Qed.

(** The x values -10, 10, 100 at threshold 20: -10 and 10 form a chain of
    mean 0 and stay as they are. *)
Example snapValues_zero_mean :
  groupsOf 20 [- (10); 10; 100] = [[- (10); 10]; [100]] /\
  mean [- (10); 10] == 0 /\
  snapValues [- (10); 10; 100] 20 = [- (10); 10; 100].
Proof. repeat split. Qed.

(** ** Snapping a chain partition *)

Lemma In_last (a : Q) l : In (last (a :: l) 0) (a :: l).
Proof.
  destruct (exists_last (l := a :: l)) as (l' & z & E); [discriminate|].
  rewrite E, last_last. apply in_or_app. right. now left.
Qed.

Lemma separated_stepped t gs :
  0 <= t -> Forall (chained t) gs -> separated t gs ->
  ascending (concat gs) -> stepped t gs.
Proof.
  intros Ht. induction gs as [|g gs IH]; intros Hch Hs Hasc; [constructor|].
  inversion Hch as [|? ? Hg Hch']; subst. cbn [concat] in Hasc.
  destruct (ascending_app _ _ Hasc) as [_ Hags].
  inversion Hs as [| |g' a g2 more Hgap Hs' E1]; subst; [constructor|].
  constructor; [|now apply IH].
  destruct g as [|c g0]; [now apply chained_nonempty in Hg|].
  assert (Hla : last (c :: g0) 0 <= a).
  { apply (ascending_app_le _ _ Hasc); [apply In_last | now left]. }
  rewrite Qabs_pos in Hgap by lra. lra.
Qed.

Lemma stepped_separated t gs : 0 <= t -> stepped t gs -> separated t gs.
Proof.
  intros Ht. induction 1 as [|g|g a g' gs Hgap Hs IH]; constructor; auto.
  rewrite Qabs_pos by lra. lra.
Qed.

Lemma ascending_join l1 : forall a l2,
  l1 <> [] -> ascending l1 -> ascending (a :: l2) -> last l1 0 <= a ->
  ascending (l1 ++ a :: l2).
Proof.
  induction l1 as [|b l1 IH]; intros a l2 Hne H1 H2 Hla; [congruence|].
  destruct l1 as [|c l1].
  - simpl in *. now constructor.
  - change (last (b :: c :: l1) 0) with (last (c :: l1) 0) in Hla.
    inversion H1; subst. cbn [app]. constructor; [assumption|].
    apply (IH a l2); [discriminate | assumption | assumption | assumption].
Qed.

Lemma stepped_ascending t gs :
  0 <= t -> stepped t gs -> Forall ascending gs ->
  Forall (fun g => g <> []) gs -> ascending (concat gs).
Proof.
  intros Ht. induction 1 as [|g|g a g' gs Hgap Hs IH]; intros Ha Hne.
  - constructor.
  - simpl. rewrite app_nil_r. now inversion Ha.
  - inversion Ha as [|? ? Hag Ha']; subst.
    inversion Hne as [|? ? Hg Hne']; subst.
    specialize (IH Ha' Hne'). cbn [concat app] in IH |- *.
    apply ascending_join; [exact Hg | exact Hag | exact IH | lra].
Qed.

Lemma ascending_groups gs : ascending (concat gs) -> Forall ascending gs.
Proof.
  induction gs as [|g gs IH]; intros H; [constructor|].
  cbn [concat] in H. destruct (ascending_app _ _ H). constructor; auto.
Qed.

(** The mean of an ascending group lies between its ends. *)
Lemma sumQ_bounds lo hi l :
  (forall u, In u l -> lo <= u <= hi) ->
  inject_Z (Z.of_nat (length l)) * lo <= sumQ l <=
  inject_Z (Z.of_nat (length l)) * hi.
Proof.
  induction l as [|a l IH]; intros H.
  - cbn [length Z.of_nat sumQ fold_right]. change (inject_Z 0) with 0. lra.
  - cbn [length sumQ fold_right]. fold (sumQ l).
    rewrite Nat2Z.inj_succ, <- Z.add_1_r, inject_Z_plus.
    assert (Ha : lo <= a <= hi) by (apply H; now left).
    assert (Hl : forall u, In u l -> lo <= u <= hi)
      by (intros u Hu; apply H; now right).
    specialize (IH Hl). change (inject_Z 1) with 1. lra.
Qed.

Lemma length_pos_Q (l : list Q) : l <> [] -> 0 < inject_Z (Z.of_nat (length l)).
Proof.
  intros H. destruct l as [|a l]; [congruence|].
  change 0 with (inject_Z 0). rewrite <- Zlt_Qlt. simpl. lia.
Qed.

Lemma mean_bounds lo hi l :
  l <> [] -> (forall u, In u l -> lo <= u <= hi) -> lo <= mean l <= hi.
Proof.
  intros Hne H. pose proof (sumQ_bounds lo hi l H) as [H1 H2].
  pose proof (length_pos_Q l Hne) as Hn. unfold mean. split.
  - apply Qle_shift_div_l; [exact Hn | lra].
  - apply Qle_shift_div_r; [exact Hn | lra].
Qed.

Lemma ascending_mean_bounds a l :
  ascending (a :: l) -> a <= mean (a :: l) <= last (a :: l) 0.
Proof.
  intros H. apply mean_bounds; [discriminate|]. intros u Hu. split.
  - destruct Hu as [<-|Hu]; [lra | now apply (ascending_head_le _ _ H)].
  - now apply ascending_le_last.
Qed.

Lemma snapIn_bounds a l u :
  ascending (a :: l) -> In u (a :: l) ->
  a <= snapIn (a :: l) u <= last (a :: l) 0.
Proof.
  intros H Hu. unfold snapIn. destruct (Qeq_bool (average (a :: l)) 0).
  - split; [|now apply ascending_le_last].
    destruct Hu as [<-|Hu]; [lra | now apply (ascending_head_le _ _ H)].
  - rewrite average_mean. now apply ascending_mean_bounds.
Qed.

Lemma chained_const t (c : Q) (l : list Q) :
  0 <= t -> l <> [] -> chained t (map (fun _ => c) l).
Proof.
  intros Ht Hne. destruct l as [|a l]; [congruence|]. clear Hne.
  revert a. induction l as [|b l IH]; intros a; cbn [map]; [constructor|].
  constructor; [|apply (IH b)].
  setoid_replace (c - c) with 0 by ring. exact Ht.
Qed.

Lemma ascending_const (c : Q) (l : list Q) : ascending (map (fun _ => c) l).
Proof.
  destruct l as [|a l]; [constructor|].
  revert a. induction l as [|b l IH]; intros a; cbn [map]; [constructor|].
  constructor; [lra | apply (IH b)].
Qed.

(** A snapped group is the group itself or a constant list. *)
Lemma snapGroup_cases g :
  (Qeq_bool (average g) 0 = true /\ snapGroup g = g) \/
  (Qeq_bool (average g) 0 = false /\
   snapGroup g = map (fun _ => average g) g).
Proof.
  unfold snapGroup, snapIn. destruct (Qeq_bool (average g) 0).
  - left. split; [reflexivity | apply map_id].
  - right. split; reflexivity.
Qed.

Lemma snapGroup_chained t g :
  0 <= t -> chained t g -> chained t (snapGroup g).
Proof.
  intros Ht Hc. destruct (snapGroup_cases g) as [[_ ->]|[_ ->]];
    [exact Hc|].
  apply chained_const; [exact Ht | now apply chained_nonempty in Hc].
Qed.

Lemma snapGroup_ascending g : ascending g -> ascending (snapGroup g).
Proof.
  intros Ha. destruct (snapGroup_cases g) as [[_ ->]|[_ ->]];
    [exact Ha | apply ascending_const].
Qed.

Lemma last_map_snapIn G (a : Q) l :
  last (map (snapIn G) (a :: l)) 0 = snapIn G (last (a :: l) 0).
Proof.
  revert a. induction l as [|b l IH]; intros a; [reflexivity|].
  change (last (a :: b :: l) 0) with (last (b :: l) 0).
  cbn [map]. rewrite <- (IH b). reflexivity.
Qed.

Lemma snapGroup_stepped t gs :
  stepped t gs -> Forall ascending gs -> Forall (fun g => g <> []) gs ->
  stepped t (map snapGroup gs).
Proof.
  induction 1 as [|g|g a g' gs Hgap Hs IH]; intros Ha Hne; cbn [map].
  - constructor.
  - constructor.
  - inversion Ha as [|? ? Hag Ha']; subst.
    inversion Hne as [|? ? Hg Hne']; subst.
    specialize (IH Ha' Hne'). cbn [map] in IH.
    change (snapGroup (a :: g'))
      with (snapIn (a :: g') a :: map (snapIn (a :: g')) g') in IH |- *.
    apply stepped_cons; [|exact IH].
    destruct g as [|c g0]; [congruence|].
    unfold snapGroup. rewrite last_map_snapIn.
    inversion Ha' as [|? ? Hag' _]; subst.
    pose proof (snapIn_bounds c g0 (last (c :: g0) 0) Hag (In_last c g0)).
    pose proof (snapIn_bounds a g' a Hag' (or_introl eq_refl)).
    lra.
Qed.

(** ** The grouping loop reads its values as numbers *)

Lemma last_comp l l' : Forall2 Qeq l l' -> last l 0 == last l' 0.
Proof.
  induction 1 as [|a b l l' Hab Hl IH]; [reflexivity|].
  destruct Hl as [|a' b' l l' Hab' Hl]; [exact Hab | exact IH].
Qed.

Lemma groupLoop_comp t : forall rest rest' closed closed' cur cur',
  Forall2 Qeq rest rest' -> Forall2 (Forall2 Qeq) closed closed' ->
  Forall2 Qeq cur cur' ->
  Forall2 (Forall2 Qeq) (groupLoop t rest closed cur)
    (groupLoop t rest' closed' cur').
Proof.
  intros rest rest' closed closed' cur cur' Hr. revert closed closed' cur cur'.
  induction Hr as [|v v' rest rest' Hv Hr IH]; intros closed closed' cur cur'
    Hcl Hcur; cbn [groupLoop].
  - apply Forall2_app; [exact Hcl | now repeat constructor].
  - assert (E : Qle_bool (Qabs (v - last cur 0)) t =
                Qle_bool (Qabs (v' - last cur' 0)) t).
    { apply Qleb_comp; [|reflexivity].
      now rewrite Hv, (last_comp cur cur' Hcur). }
    rewrite E. destruct (Qle_bool (Qabs (v' - last cur' 0)) t).
    + apply IH; [exact Hcl|]. apply Forall2_app; [exact Hcur|].
      now repeat constructor.
    + apply IH; [|now repeat constructor].
      apply Forall2_app; [exact Hcl | now repeat constructor].
Qed.

Lemma groupsOfSorted_comp t l l' :
  Forall2 Qeq l l' ->
  Forall2 (Forall2 Qeq) (groupsOfSorted t l) (groupsOfSorted t l').
Proof.
  intros [|a b l0 l0' Hab Hl]; cbn [groupsOfSorted]; [constructor|].
  apply groupLoop_comp; [exact Hl | constructor | now repeat constructor].
Qed.

Lemma groupsOfSorted_concat t gs :
  Forall (chained t) gs -> separated t gs -> groupsOfSorted t (concat gs) = gs.
Proof.
  intros Hch Hs. destruct gs as [|g more]; [reflexivity|].
  inversion Hch as [|? ? Hg Hch']; subst.
  destruct g as [|a g]; [now apply chained_nonempty in Hg|].
  cbn [concat app groupsOfSorted].
  rewrite (groupLoop_extend t g (concat more) [] [a]);
    [|discriminate | exact Hg].
  now rewrite groupLoop_concat.
Qed.

Lemma sumQ_comp l l' : Forall2 Qeq l l' -> sumQ l == sumQ l'.
Proof.
  induction 1 as [|a b l l' Hab _ IH]; [reflexivity|].
  cbn [sumQ fold_right]. fold (sumQ l) (sumQ l'). now rewrite Hab, IH.
Qed.

Lemma mean_comp l l' : Forall2 Qeq l l' -> mean l == mean l'.
Proof.
  intros H. unfold mean.
  now rewrite (sumQ_comp l l' H), (Forall2_length H).
Qed.

Lemma sumQ_const (c : Q) (l : list Q) :
  sumQ (map (fun _ => c) l) == inject_Z (Z.of_nat (length l)) * c.
Proof.
  induction l as [|a l IH].
  - cbn [length Z.of_nat map sumQ fold_right]. change (inject_Z 0) with 0. ring.
  - cbn [length map sumQ fold_right]. fold (sumQ (map (fun _ => c) l)).
    rewrite IH, Nat2Z.inj_succ, <- Z.add_1_r, inject_Z_plus.
    change (inject_Z 1) with 1. ring.
Qed.

Lemma mean_const (c : Q) (l : list Q) :
  l <> [] -> mean (map (fun _ => c) l) == c.
Proof.
  intros Hne. unfold mean. rewrite sumQ_const, length_map.
  pose proof (length_pos_Q l Hne). field. lra.
Qed.

(** ** Snapping twice *)

Lemma map_concat_groups (f : Q -> Q) G :
  (forall g, In g G -> forall u, In u g -> f u = snapIn g u) ->
  map f (concat G) = concat (map snapGroup G).
Proof.
  induction G as [|g G IH]; intros H; [reflexivity|].
  cbn [concat map]. rewrite map_app, IH.
  - f_equal. apply map_ext_in. intros u Hu. apply H; [now left | exact Hu].
  - intros g' Hg'. apply H. now right.
Qed.

Lemma Forall2_In_l {A B} (R : A -> B -> Prop) l l' a :
  Forall2 R l l' -> In a l -> exists b, In b l' /\ R a b.
Proof.
  induction 1 as [|a0 b0 l l' Hab _ IH]; intros Ha; [destruct Ha|].
  destruct Ha as [<-|Ha].
  - exists b0. split; [now left | exact Hab].
  - destruct (IH Ha) as (b & Hb & Hr). exists b. split; [now right | exact Hr].
Qed.

Lemma Forall2_map_self (f : Q -> Q) l :
  (forall v, In v l -> f v == v) -> Forall2 Qeq (map f l) l.
Proof.
  induction l as [|a l IH]; intros H; [constructor|].
  cbn [map]. constructor; [apply H; now left|].
  apply IH. intros v Hv. apply H. now right.
Qed.

(** The second pass finds, up to numeric equality, the snapped groups of
    the first pass. *)
Lemma groupsOf_snapValues values t :
  0 <= t ->
  Forall2 (Forall2 Qeq) (groupsOf t (snapValues values t))
    (map snapGroup (groupsOf t values)).
Proof.
  intros Ht. rewrite snapValues_groupsOf.
  set (gs := groupsOf t values).
  set (out := getOr (buildValueMap gs)).
  destruct (groupsOf_partition t values) as (Hcat & Hch & Hs).
  fold gs in Hcat, Hch, Hs.
  assert (Hasc : ascending (concat gs))
    by (rewrite Hcat; apply sortAsc_ascending).
  assert (Hne : Forall (fun g => g <> []) gs).
  { eapply Forall_impl; [|exact Hch]. intros g. apply chained_nonempty. }
  pose proof (ascending_groups gs Hasc) as Hga.
  pose proof (separated_stepped t gs Ht Hch Hs Hasc) as Hst.
  assert (Hch2 : Forall (chained t) (map snapGroup gs)).
  { apply Forall_map. eapply Forall_impl; [|exact Hch].
    intros g. now apply snapGroup_chained. }
  pose proof (snapGroup_stepped t gs Hst Hga Hne) as Hst2.
  pose proof (stepped_separated t _ Ht Hst2) as Hs2.
  assert (Hasc2 : ascending (concat (map snapGroup gs))).
  { apply (stepped_ascending t); auto.
    - apply Forall_map. eapply Forall_impl; [|exact Hga].
      intros g. apply snapGroup_ascending.
    - eapply Forall_impl; [|exact Hch2]. intros g. apply chained_nonempty. }
  assert (HM : map out (sortAsc values) = concat (map snapGroup gs)).
  { rewrite <- Hcat. apply map_concat_groups. intros g Hg u Hu.
    now apply (getOr_groupsOf t values). }
  assert (HS : Forall2 Qeq (sortAsc (map out values))
                 (concat (map snapGroup gs))).
  { apply ascending_unique; [apply sortAsc_ascending | exact Hasc2|].
    intros q. rewrite <- HM.
    rewrite (countQ_perm q _ _ (sortAsc_perm (map out values))).
    apply countQ_perm, Permutation_map, Permutation_sym, sortAsc_perm. }
  change (groupsOf t (map out values))
    with (groupsOfSorted t (sortAsc (map out values))).
  rewrite <- (groupsOfSorted_concat t (map snapGroup gs) Hch2 Hs2).
  now apply groupsOfSorted_comp.
Qed.

Lemma snapValues_idempotent values t :
  0 <= t ->
  Forall2 Qeq (snapValues (snapValues values t) t) (snapValues values t).
Proof.
  intros Ht. pose proof (groupsOf_snapValues values t Ht) as HG.
  rewrite (snapValues_groupsOf (snapValues values t)).
  apply Forall2_map_self. intros v' Hv'.
  destruct (groupsOf_member t _ v' Hv') as (g2 & Hg2 & Hvg2).
  rewrite (getOr_groupsOf t _ g2 v' Ht Hg2 Hvg2).
  destruct (Forall2_In_l _ _ _ g2 HG Hg2) as (g'' & Hg'' & Hrel).
  apply in_map_iff in Hg''. destruct Hg'' as (g & <- & Hg).
  destruct (Forall2_In_l _ _ _ v' Hrel Hvg2) as (w & Hw & Hvw).
  pose proof (mean_comp _ _ Hrel) as Hmean.
  destruct (groupsOf_partition t values) as (_ & Hch & _).
  rewrite Forall_forall in Hch. pose proof (chained_nonempty _ _ (Hch g Hg)).
  unfold snapIn.
  destruct (snapGroup_cases g) as [[E Eg]|[E Eg]]; rewrite Eg in Hmean, Hw.
  - apply Qeq_bool_iff in E. rewrite <- !average_mean, E in Hmean.
    apply Qeq_bool_iff in Hmean. rewrite Hmean. reflexivity.
  - rewrite mean_const, <- average_mean in Hmean by assumption.
    apply in_map_iff in Hw. destruct Hw as (u & <- & _).
    destruct (Qeq_bool (average g2) 0); [reflexivity|].
    now rewrite Hmean, Hvw.
Qed.

Lemma snapToRectilinear_length points t :
  (length (snapToRectilinear points t) = length points)%nat.
Proof.
  unfold snapToRectilinear. destruct (Nat.ltb (length points) 3);
    [reflexivity|].
  now rewrite length_map, length_seq.
Qed.

Lemma Points_eq_coords l : forall l',
  Forall2 Qeq (map x l) (map x l') -> Forall2 Qeq (map y l) (map y l') ->
  Points_eq l l'.
Proof.
  induction l as [|p l IH]; intros [|q l'] Hx Hy;
    cbn [map] in Hx, Hy; try (now inversion Hx); [constructor|].
  inversion Hx; subst. inversion Hy; subst.
  constructor; [now split | now apply IH].
Qed.



(** ** The contract of every chain, on three points *)

Lemma chainPartition_unique t sorted gs :
  chainPartition t sorted gs -> gs = groupsOfSorted t sorted.
Proof.
  intros (Hcat & Hch & Hs). rewrite <- Hcat. symmetry.
  now apply groupsOfSorted_concat.
Qed.

Lemma ascending_m10_10_100 sorted :
  Permutation sorted [- (10); 10; 100] -> ascending sorted ->
  sorted = [- (10); 10; 100].
Proof.
  intros Hp Ha. pose proof (Permutation_length Hp) as Hlen.
  destruct sorted as [|a [|b [|c [|e l]]]]; try discriminate.
  pose proof (Permutation_in _ (Permutation_sym Hp) (or_introl eq_refl)) as H1.
  pose proof (Permutation_in _ (Permutation_sym Hp)
                (or_intror (or_introl eq_refl))) as H2.
  pose proof (Permutation_in _ (Permutation_sym Hp)
                (or_intror (or_intror (or_introl eq_refl)))) as H3.
  inversion Ha as [| |? ? ? Hab Hbc]; subst.
  inversion Hbc as [| |? ? ? Hbc' _]; subst.
  cbn [In] in H1, H2, H3.
  destruct H1 as [E1|[E1|[E1|[]]]], H2 as [E2|[E2|[E2|[]]]],
           H3 as [E3|[E3|[E3|[]]]]; subst;
    try discriminate; try reflexivity; exfalso; lra.
Qed.

(** Restricted to lists of at least three points, the contract required of
    every chain still fails: on (-10,0), (10,50), (100,100) at threshold 20
    the x values -10 and 10 form a chain of mean 0 and are returned as they
    are. *)
Lemma snapContract_zero_mean_fails :
  ~ snapContract (fun _ => True)
      [mkPoint (- (10)) 0; mkPoint 10 50; mkPoint 100 100] 20.
Proof.
  intros (_ & (_ & sorted & gs & Hperm & Hasc & Hpart & Hmean & _) & _).
  cbn in Hperm, Hmean.
  apply ascending_m10_10_100 in Hperm; [|exact Hasc]. subst sorted.
  apply chainPartition_unique in Hpart. vm_compute in Hpart. subst gs.
  destruct (Hmean 0%nat (- (10)) (- (10)) eq_refl eq_refl)
    as (g & [<-|[<-|[]]] & Hin & Hm).
  - specialize (Hm I). revert Hm. cbn. discriminate.
  - cbn [In] in Hin. destruct Hin as [E|[]]. discriminate.
Qed.

(** * Monotonicity under the aisle gap *)

Lemma countFor_fuel_mono fuel fuel' ids polygon holes scale fts p n :
  (fuel <= fuel')%nat ->
  countFor fuel ids polygon holes scale fts p = Some n ->
  countFor fuel' ids polygon holes scale fts p = Some n.
Proof.
  unfold countFor. intros Hle H.
  destruct (generateLayout fuel ids polygon holes scale p fts _) as [r|] eqn:E;
    [|discriminate].
  now rewrite (generateLayout_fuel_mono _ _ _ _ _ _ _ _ _ _ Hle E).
Qed.


(** A rectangular room does not suffice when the catalog has two entries:
    in the 4050 x 3000 room the tight gap leaves room for one wide table
    (first fit) and nothing after it, the standard gap for two narrow
    ones. *)
Lemma gapMonotone_two_entries_fails :
  countFor 128 noIds (rectRoom 0 0 4050 3000) [] 1 [wideEntry; narrowEntry]
    cramped = Some 1%nat /\
  countFor 128 noIds (rectRoom 0 0 4050 3000) [] 1 [wideEntry; narrowEntry]
    standard = Some 2%nat /\
  ~ gapMonotone noIds (rectRoom 0 0 4050 3000) [] 1 [wideEntry; narrowEntry].
Proof.
  assert (H1 : countFor 128 noIds (rectRoom 0 0 4050 3000) [] 1
                 [wideEntry; narrowEntry] cramped = Some 1%nat)
    by (vm_compute; reflexivity).
  assert (H2 : countFor 128 noIds (rectRoom 0 0 4050 3000) [] 1
                 [wideEntry; narrowEntry] standard = Some 2%nat)
    by (vm_compute; reflexivity).
  split; [exact H1|]. split; [exact H2|].
  intros (fuel & nT & nS & nG & HT & HS & _ & Hle & _).
  apply (countFor_fuel_mono _ (Nat.max fuel 128)) in HT, HS, H1, H2; try lia.
  rewrite H1 in HT. rewrite H2 in HS.
  injection HT as <-. injection HS as <-. lia.
Qed.

(** ** Containment in a rectangular room *)

Lemma intersect_vertical px py xv ya yb :
  ~ ya == yb ->
  intersect px py (mkPoint xv ya) (mkPoint xv yb) =
  xorb (Qgtb ya py) (Qgtb yb py) && Qltb px xv.
Proof.
  intros Hne. unfold intersect. cbn [x y]. f_equal.
  apply Qltb_comp; [reflexivity|]. field. intros H. apply Hne. lra.
Qed.

Lemma intersect_horizontal px py xa xb yv :
  intersect px py (mkPoint xa yv) (mkPoint xb yv) = false.
Proof. unfold intersect. cbn [x y]. now rewrite xorb_nilpotent. Qed.

Ltac qbool :=
  repeat match goal with
  | H : Qltb _ _ = true |- _ => apply Qltb_lt in H
  | H : Qltb _ _ = false |- _ => apply Qltb_ge in H
  | H : Qle_bool _ _ = true |- _ => apply Qle_bool_iff in H
  | H : Qle_bool _ _ = false |- _ => apply Qle_bool_false in H
  end.

(** A point is in the rectangle when it is on or right of the left edge,
    left of the right edge, on or below the top edge and above the bottom
    edge (y grows downwards). *)
Lemma isPointInPolygon_rectRoom x0 y0 x1 y1 p :
  x0 < x1 -> y0 < y1 ->
  isPointInPolygon p (rectRoom x0 y0 x1 y1) = true <->
  (x0 <= x p /\ x p < x1) /\ (y0 <= y p /\ y p < y1).
Proof.
  intros Hx Hy. unfold isPointInPolygon, rectRoom. cbn [last rayLoop].
  rewrite (intersect_vertical _ _ x0 y0 y1) by lra.
  rewrite (intersect_horizontal _ _ x1 x0 y0).
  rewrite (intersect_vertical _ _ x1 y1 y0) by lra.
  rewrite (intersect_horizontal _ _ x0 x1 y1).
  unfold Qgtb.
  destruct (Qltb (y p) y0) eqn:E1, (Qltb (y p) y1) eqn:E2,
           (Qltb (x p) x0) eqn:E3, (Qltb (x p) x1) eqn:E4;
    cbn; qbool; split; intros H; try discriminate; try reflexivity;
    try (exfalso; lra); try lra.
Qed.

Lemma isRectValid_rectRoom x0 y0 x1 y1 cx cy w h :
  x0 < x1 -> y0 < y1 -> 0 < w -> 0 < h ->
  isRectValid cx cy w h (rectRoom x0 y0 x1 y1) [] = true <->
  x0 <= cx /\ cx + w < x1 /\ y0 <= cy /\ cy + h < y1.
Proof.
  intros Hx Hy Hw Hh. unfold isRectValid. cbn [outsideHoles].
  assert (Hw2 : 0 < w / 2 < w).
  { split; [apply Qlt_shift_div_l; lra | apply Qlt_shift_div_r; lra]. }
  assert (Hh2 : 0 < h / 2 < h).
  { split; [apply Qlt_shift_div_l; lra | apply Qlt_shift_div_r; lra]. }
  destruct (forallb _ (corners cx cy w h)) eqn:E; cbn [negb]; split;
    intros H; try discriminate; try reflexivity.
  - rewrite forallb_forall in E.
    pose proof (E (mkPoint cx cy) (or_introl eq_refl)) as H1.
    pose proof (E (mkPoint (cx + w) (cy + h))
                  (or_intror (or_intror (or_introl eq_refl)))) as H2.
    apply isPointInPolygon_rectRoom in H1, H2; auto.
    cbn [x y] in H1, H2. lra.
  - exfalso. apply not_true_iff_false in E. apply E.
    apply forallb_forall. intros p Hp.
    apply isPointInPolygon_rectRoom; auto.
    unfold corners in Hp. cbn [In] in Hp.
    destruct Hp as [<-|[<-|[<-|[<-|[<-|[]]]]]]; cbn [x y]; lra.
Qed.

(** ** The sweep of a rectangular room with one catalog entry *)

(** The least index that fails a decidable, eventually failing test. *)
Lemma bounded_failure (P : nat -> Prop) :
  (forall j, {P j} + {~ P j}) ->
  forall n, (forall j, (j < n)%nat -> P j) \/
            (exists j, (j < n)%nat /\ ~ P j).
Proof.
  intros Hdec. induction n as [|n [IH|(j & Hj & Hp)]].
  - left. intros j Hj. lia.
  - destruct (Hdec n) as [Hn|Hn].
    + left. intros j Hj.
      destruct (Nat.eq_dec j n) as [->|]; [exact Hn | apply IH; lia].
    + right. exists n. split; [lia | exact Hn].
  - right. exists j. split; [lia | exact Hp].
Qed.

Lemma first_failure (P : nat -> Prop) :
  (forall j, {P j} + {~ P j}) ->
  forall n, ~ P n -> exists c, (forall j, (j < c)%nat -> P j) /\ ~ P c.
Proof.
  intros Hdec n. induction n as [n IH] using lt_wf_ind. intros Hn.
  destruct (bounded_failure P Hdec n) as [Hall|(j & Hj & Hp)].
  - exists n. split; assumption.
  - now apply (IH j).
Qed.

Lemma fits_exists a d B : 0 < d -> exists c, fits a d B c.
Proof.
  intros Hd. destruct (steps_reach (B - a) d Hd) as (n & Hn).
  apply (first_failure (fun j => a + steps j d < B)) with (n := n).
  - intros j. destruct (Qlt_le_dec (a + steps j d) B) as [H|H];
      [now left | right; lra].
  - lra.
Qed.

Lemma steps_mono_l n d d' : d <= d' -> steps n d <= steps n d'.
Proof.
  intros H. unfold steps. rewrite !(Qmult_comm (inject_Z _)).
  apply Qmult_le_compat_r; [exact H|].
  change 0 with (inject_Z 0). rewrite <- Zle_Qle. lia.
Qed.

(** Starting earlier with shorter steps fits at least as many positions. *)
Lemma fits_monotone a a' d d' B c c' :
  a <= a' -> d <= d' -> fits a d B c -> fits a' d' B c' -> (c' <= c)%nat.
Proof.
  intros Ha Hd [_ Hc] [Hc' _].
  destruct (le_lt_dec c' c) as [H|H]; [exact H|].
  exfalso. apply Hc. specialize (Hc' c H).
  pose proof (steps_mono_l c d d' Hd). lra.
Qed.

Lemma fits_unique a d B c c' : fits a d B c -> fits a d B c' -> c = c'.
Proof.
  intros H H'.
  pose proof (fits_monotone a a d d B c c' (Qle_refl a) (Qle_refl d) H H').
  pose proof (fits_monotone a a d d B c' c (Qle_refl a) (Qle_refl d) H' H).
  lia.
Qed.

Lemma fits_S a d B c :
  a < B -> fits (a + d) d B c -> fits a d B (S c).
Proof.
  intros Ha [Hall Hc]. split.
  - intros [|j] Hj; [rewrite steps_0; lra|].
    rewrite steps_S. specialize (Hall j ltac:(lia)). lra.
  - rewrite steps_S. intros H. apply Hc. lra.
Qed.

Lemma fits_0 a d B : B <= a -> fits a d B 0.
Proof. intros H. split; [lia | rewrite steps_0; lra]. Qed.

Lemma fits_0_later a a' d B c : B <= a -> a <= a' -> fits a' d B c -> c = 0%nat.
Proof.
  intros H Ha [Hall _]. destruct c as [|c]; [reflexivity|].
  specialize (Hall 0%nat ltac:(lia)). rewrite steps_0 in Hall. lra.
Qed.

Section RectSweep.

Variable ids : nat -> string.
Variables x0 y0 x1 y1 : Q.
Variable scale : Q.
Variable f : FurnitureSet.
Variable bounds : Bounds.

Hypothesis x_order : x0 < x1.
Hypothesis y_order : y0 < y1.
Hypothesis scale_pos : 0 < scale.
Hypothesis f_enabled : enabled f <> Some false.
Hypothesis f_width : 0 < tableWidth f.
Hypothesis f_depth : 0 <= tableDepth f.
Hypothesis bounds_minX : minX bounds == x0.
Hypothesis bounds_maxX : maxX bounds == x1.
Hypothesis bounds_maxY : maxY bounds == y1.

Local Abbreviation room := (rectRoom x0 y0 x1 y1).
Local Abbreviation w := (tableWidth f * scale).
Local Abbreviation h := (totalHOf scale f).
Local Abbreviation d := (tableWidth f * scale + 50 * scale).

Lemma rect_w_pos : 0 < w.
Proof. nra. Qed.

Lemma rect_h_pos : 0 < h.
Proof. unfold totalHOf, CHAIR_DIMENSIONS.depth. nra. Qed.

Lemma rect_d_pos : 0 < d.
Proof. pose proof rect_w_pos. lra. Qed.

Lemma firstFit_rect cx cy :
  (x0 <= cx /\ cx + w < x1 /\ y0 <= cy /\ cy + h < y1 ->
   firstFit room [] scale cx cy [f] = Some (f, w, h)) /\
  (~ (x0 <= cx /\ cx + w < x1 /\ y0 <= cy /\ cy + h < y1) ->
   firstFit room [] scale cx cy [f] = None).
Proof.
  pose proof rect_w_pos as Hw. pose proof rect_h_pos as Hh.
  pose proof (isRectValid_rectRoom x0 y0 x1 y1 cx cy w h x_order y_order
                Hw Hh) as Hv.
  cbn [firstFit].
  change (tableDepth f * scale + CHAIR_DIMENSIONS.depth * scale) with h.
  destruct (isRectValid cx cy w h room []) eqn:E.
  - split; intros H.
    + now destruct (enabled f) as [[|]|].
    + exfalso. apply H. now apply Hv.
  - split; intros H.
    + apply Hv in H. discriminate.
    + now destruct (enabled f) as [[|]|].
Qed.

(** In a row where the footprint fits vertically, the column loop places
    an item at the start and then every [d], as long as it fits. *)
Lemma columnLoop_rect_row cy fuel : forall cx st st',
  y0 <= cy -> cy + h < y1 -> x0 <= cx ->
  columnLoop ids room [] scale [f] bounds fuel cy cx st = Some st' ->
  exists m,
    length (items st') = (length (items st) + m)%nat /\
    fits (cx + w) d x1 m /\
    (m = 0%nat -> st' = st) /\
    ((0 < m)%nat -> rowHeight st' == Qmax (rowHeight st) h).
Proof.
  pose proof rect_w_pos as Hw. pose proof rect_d_pos as Hd.
  induction fuel as [|fuel IH]; intros cx st st' Hy0 Hy1 Hx0;
    cbn [columnLoop]; [discriminate|].
  destruct (Qltb cx (maxX bounds)) eqn:E; qbool; rewrite bounds_maxX in E.
  - destruct (Qlt_le_dec (cx + w) x1) as [Hfit|Hfit].
    + rewrite (proj1 (firstFit_rect cx cy)) by auto.
      intros H. apply IH in H; auto; [|lra].
      destruct H as (m & Hlen & Hfits & Hzero & Hpos). cbn [items] in Hlen.
      exists (S m). split; [rewrite Hlen, length_app; simpl; lia|].
      split.
      { apply fits_S; [exact Hfit|].
        destruct Hfits as [Ha Hb]. split.
        - intros j Hj. specialize (Ha j Hj). lra.
        - intros Hc. apply Hb. lra. }
      split; [discriminate|]. intros _.
      destruct m as [|m].
      * rewrite (Hzero eq_refl). reflexivity.
      * rewrite Hpos by lia. cbn [rowHeight].
        rewrite <- Q.max_assoc, Q.max_id. reflexivity.
    + rewrite (proj2 (firstFit_rect cx cy)) by lra.
      intros H. apply IH in H; auto; [|lra].
      destruct H as (m & Hlen & Hfits & Hzero & Hpos).
      assert (m = 0%nat).
      { apply (fits_0_later (cx + w) (cx + 50 * scale + w) d x1 m);
          [exact Hfit | lra | exact Hfits]. }
      subst m. exists 0%nat. split; [exact Hlen|].
      split; [now apply fits_0|]. split; [auto | lia].
  - intros [= <-]. exists 0%nat. split; [lia|].
    split; [apply fits_0; lra|]. split; [reflexivity | lia].
Qed.

(** In a row where the footprint does not fit vertically, nothing is
    placed. *)
Lemma columnLoop_rect_no_row cy fuel cx st st' :
  ~ (y0 <= cy /\ cy + h < y1) ->
  columnLoop ids room [] scale [f] bounds fuel cy cx st = Some st' ->
  st' = st.
Proof.
  intros Hrow. apply columnLoop_no_fit. intros cx'.
  apply (proj2 (firstFit_rect cx' cy)). tauto.
Qed.

Variable pxAisleGap : Q.
Hypothesis gap_nonneg : 0 <= pxAisleGap.

Variable perRow : nat.
Hypothesis perRow_fits : fits (minX bounds + pxAisleGap + w) d x1 perRow.

(** The row loop places [perRow] items in each of the rows that fit, the
    rows being [h + pxAisleGap] apart. *)
Lemma rowLoop_rect fuel : forall cy acc k res,
  y0 <= cy ->
  rowLoop ids room [] scale [f] bounds pxAisleGap fuel cy acc k = Some res ->
  exists rows,
    length res = (length acc + rows * perRow)%nat /\
    ((0 < perRow)%nat -> fits (cy + h) (h + pxAisleGap) y1 rows).
Proof.
  pose proof rect_h_pos as Hh.
  induction fuel as [|fuel IH]; intros cy acc k res Hy0;
    cbn [rowLoop]; [discriminate|].
  destruct (Qltb cy (maxY bounds)) eqn:E; qbool; rewrite bounds_maxY in E.
  2:{ intros [= <-]. exists 0%nat. split; [lia|]. intros _.
      apply fits_0. lra. }
  destruct (columnLoop ids room [] scale [f] bounds fuel cy
              (minX bounds + pxAisleGap) (mkRowState acc k 0))
    as [st|] eqn:Ecol; [|discriminate].
  destruct (Qlt_le_dec (cy + h) y1) as [Hfit|Hfit].
  - apply columnLoop_rect_row in Ecol; auto; [|rewrite bounds_minX; lra].
    destruct Ecol as (m & Hlen & Hfits & Hzero & Hpos).
    assert (m = perRow) by (eapply fits_unique; eauto). subst m.
    cbn [items rowHeight] in Hlen, Hpos.
    destruct perRow as [|c] eqn:Ec.
    + rewrite (Hzero eq_refl). cbn [rowHeight items drawn].
      change (Qltb 0 0) with false. cbv iota.
      intros H. apply IH in H; [|lra].
      destruct H as (rows & Hres & _). exists 0%nat.
      split; [lia | intros; lia].
    + assert (Hrh : rowHeight st == h).
      { rewrite Hpos by lia. apply Q.max_r. lra. }
      assert (Et : Qltb 0 (rowHeight st) = true)
        by (apply Qltb_lt; lra).
      rewrite Et. intros H. apply IH in H; [|lra].
      destruct H as (rows & Hres & Hrows). exists (S rows).
      split; [rewrite Hres, Hlen; lia|]. intros _.
      apply fits_S; [exact Hfit|].
      destruct (Hrows ltac:(lia)) as [Ha Hb]. split.
      * intros j Hj. specialize (Ha j Hj). lra.
      * intros Hc. apply Hb. lra.
  - apply columnLoop_rect_no_row in Ecol; [|lra]. subst st.
    cbn [rowHeight items drawn]. change (Qltb 0 0) with false. cbv iota.
    intros H. apply IH in H; [|lra].
    destruct H as (rows & Hres & Hrows).
    destruct perRow as [|c] eqn:Ec.
    + exists 0%nat. split; [lia | intros; lia].
    + assert (rows = 0%nat).
      { apply (fits_0_later (cy + h) (cy + 100 * scale + h)
                 (h + pxAisleGap) y1 rows); [exact Hfit | lra|].
        apply Hrows. lia. }
      subst rows. exists 0%nat. split; [lia|]. intros _.
      now apply fits_0.
Qed.

End RectSweep.

Lemma boundsOf_rectRoom x0 y0 x1 y1 :
  x0 < x1 -> y0 < y1 ->
  let b := boundsOf (mkPoint x0 y0)
             [mkPoint x1 y0; mkPoint x1 y1; mkPoint x0 y1] in
  minX b == x0 /\ maxX b == x1 /\ minY b == y0 /\ maxY b == y1.
Proof.
  intros Hx Hy. unfold boundsOf, minOf, maxOf.
  cbn [map fold_left minX maxX minY maxY x y].
  assert (E1 : Qmin x0 x1 == x0) by (apply Q.min_l; lra).
  assert (E2 : Qmax x0 x1 == x1) by (apply Q.max_r; lra).
  assert (E3 : Qmax x1 x0 == x1) by (apply Q.max_l; lra).
  assert (E4 : Qmin y0 y1 == y0) by (apply Q.min_l; lra).
  assert (E5 : Qmax y0 y1 == y1) by (apply Q.max_r; lra).
  repeat split.
  - now rewrite E1, E1, Q.min_id.
  - now rewrite E2, Q.max_id, E3.
  - now rewrite Q.min_id, E4, E4.
  - now rewrite Q.max_id, E5, Q.max_id.
Qed.

Lemma fits_comp a a' d d' B B' c :
  a == a' -> d == d' -> B == B' -> fits a d B c -> fits a' d' B' c.
Proof.
  intros Ea Ed Eb [Hall Hc].
  assert (Es : forall n, steps n d == steps n d')
    by (intros n; unfold steps; now rewrite Ed).
  split.
  - intros j Hj. rewrite <- Ea, <- Es, <- Eb. now apply Hall.
  - now rewrite <- Ea, <- Es, <- Eb.
Qed.

(** The result for a rectangular room and one entry: [rows * perRow]
    items, both factors being the numbers of positions that fit. *)
Lemma generateLayout_rect_count ids x0 y0 x1 y1 scale pattern f gap fuel res :
  x0 < x1 -> y0 < y1 -> 0 < scale ->
  enabled f <> Some false -> 0 < tableWidth f -> 0 <= tableDepth f ->
  0 <= gap ->
  generateLayout fuel ids (rectRoom x0 y0 x1 y1) [] scale pattern [f] gap
    = Some res ->
  exists rows perRow,
    length res = (rows * perRow)%nat /\
    fits (x0 + gap * scale + tableWidth f * scale)
         (tableWidth f * scale + 50 * scale) x1 perRow /\
    ((0 < perRow)%nat ->
     fits (y0 + gap * scale + totalHOf scale f)
          (totalHOf scale f + gap * scale) y1 rows).
Proof.
  intros Hx Hy Hs Hen Hw Hd Hg. unfold generateLayout, rectRoom.
  destruct (boundsOf_rectRoom x0 y0 x1 y1 Hx Hy) as (EminX & EmaxX & EminY & EmaxY).
  set (b := boundsOf (mkPoint x0 y0)
              [mkPoint x1 y0; mkPoint x1 y1; mkPoint x0 y1]) in *.
  cbv zeta in EminX, EmaxX, EminY, EmaxY |- *.
  assert (Hpg : 0 <= gap * scale) by nra.
  assert (Hdpos : 0 < tableWidth f * scale + 50 * scale) by nra.
  destruct (fits_exists (minX b + gap * scale + tableWidth f * scale)
              (tableWidth f * scale + 50 * scale) x1 Hdpos) as (perRow & Hper).
  intros Hrun.
  apply (rowLoop_rect ids x0 y0 x1 y1 scale f b Hx Hy Hs Hen Hw Hd EminX
           EmaxX EmaxY (gap * scale) Hpg perRow Hper) in Hrun;
    [|rewrite EminY; lra].
  destruct Hrun as (rows & Hlen & Hrows). exists rows, perRow.
  split; [exact Hlen|]. split.
  - eapply fits_comp; [| | |exact Hper]; [now rewrite EminX | | ]; reflexivity.
  - intros Hpos. eapply fits_comp; [| | |exact (Hrows Hpos)];
      [now rewrite EminY | | ]; reflexivity.
Qed.

(** In a rectangular room with one entry, a smaller gap never places fewer
    items. *)
Lemma generateLayout_rect_monotone ids x0 y0 x1 y1 scale f g1 g2
    p1 p2 fuel1 fuel2 r1 r2 :
  x0 < x1 -> y0 < y1 -> 0 < scale ->
  enabled f <> Some false -> 0 < tableWidth f -> 0 <= tableDepth f ->
  0 <= g1 -> g1 <= g2 ->
  generateLayout fuel1 ids (rectRoom x0 y0 x1 y1) [] scale p1 [f] g1
    = Some r1 ->
  generateLayout fuel2 ids (rectRoom x0 y0 x1 y1) [] scale p2 [f] g2
    = Some r2 ->
  (length r2 <= length r1)%nat.
Proof.
  intros Hx Hy Hs Hen Hw Hd Hg1 Hg12 H1 H2.
  apply generateLayout_rect_count in H1; auto.
  apply generateLayout_rect_count in H2; auto; [|lra].
  destruct H1 as (R1 & C1 & -> & Hc1 & Hr1).
  destruct H2 as (R2 & C2 & -> & Hc2 & Hr2).
  assert (Hgs : g1 * scale <= g2 * scale) by nra.
  assert (HC : (C2 <= C1)%nat).
  { eapply fits_monotone; [| |exact Hc1|exact Hc2]; lra. }
  destruct C2 as [|c2]; [lia|].
  assert (HR : (R2 <= R1)%nat).
  { eapply fits_monotone; [| |apply Hr1|apply Hr2]; try lia; lra. }
  now apply Nat.mul_le_mono.
Qed.



(** ** A negative aisle gap *)

Section NegativeGap.

Variable ids : nat -> string.

Local Abbreviation room := (rectRoom 0 0 6000 6000).
Local Abbreviation box :=
  (boundsOf (mkPoint 0 0) [mkPoint 6000 0; mkPoint 6000 6000; mkPoint 0 6000]).
Local Abbreviation gapPx := (- (1050) * 1).
Local Abbreviation cLoop := (columnLoop ids room [] 1 [type3] box).
Local Abbreviation rLoop := (rowLoop ids room [] 1 [type3] box gapPx).

Lemma type3_fit cx cy :
  (0 <= cx /\ cx + 1200 * 1 < 6000 /\ 0 <= cy /\ cy + totalHOf 1 type3 < 6000 ->
   firstFit room [] 1 cx cy [type3] = Some (type3, 1200 * 1, totalHOf 1 type3))
  /\
  (~ (0 <= cx /\ cx + 1200 * 1 < 6000 /\ 0 <= cy /\
      cy + totalHOf 1 type3 < 6000) ->
   firstFit room [] 1 cx cy [type3] = None).
Proof.
  apply (firstFit_rect 0 0 6000 6000 1 type3); try reflexivity; discriminate.
Qed.

(** Left of the room nothing fits, and the column cursor moves by 50. *)
Lemma cLoop_left fuel cy cx st :
  cx < 0 -> cLoop (S fuel) cy cx st = cLoop fuel cy (cx + 50 * 1) st.
Proof.
  intros Hcx. cbn [columnLoop].
  assert (E : Qltb cx (maxX box) = true) by (apply Qltb_lt; cbn; lra).
  rewrite E, (proj2 (type3_fit cx cy)) by lra. reflexivity.
Qed.

(** A run that starts a multiple of 50 left of the room passes through
    the room's left edge. *)
Lemma cLoop_reaches_edge n : forall fuel cy cx st st',
  cx == - steps n 50 -> cLoop fuel cy cx st = Some st' ->
  exists fuel' cx', cx' == 0 /\ cLoop fuel' cy cx' st = Some st'.
Proof.
  induction n as [|n IH]; intros fuel cy cx st st' Hcx Hrun.
  - rewrite steps_0 in Hcx. exists fuel, cx. split; [lra | exact Hrun].
  - rewrite steps_S in Hcx. pose proof (Qle_refl 0).
    assert (0 <= steps n 50).
    { rewrite <- (steps_0 50). unfold steps.
      apply Qmult_le_compat_r; [|discriminate].
      rewrite <- Zle_Qle. lia. }
    destruct fuel as [|fuel]; [discriminate|].
    rewrite cLoop_left in Hrun by lra.
    apply (IH fuel cy (cx + 50 * 1) st st'); [lra | exact Hrun].
Qed.

(** In a row that fits, the column loop started 1050 left of the room
    places an item, so the row has the height of the footprint. *)
Lemma cLoop_row_height fuel cy acc k st :
  0 <= cy -> cy + totalHOf 1 type3 < 6000 ->
  cLoop fuel cy (minX box + gapPx) (mkRowState acc k 0) = Some st ->
  rowHeight st == totalHOf 1 type3.
Proof.
  intros Hy0 Hy1 Hrun.
  apply (cLoop_reaches_edge 21) in Hrun; [|reflexivity].
  destruct Hrun as (fuel' & cx' & Hcx' & Hrun).
  apply (columnLoop_rect_row ids 0 0 6000 6000 1 type3 box) in Hrun;
    try reflexivity; try discriminate; try assumption; [|lra].
  destruct Hrun as (m & _ & [Hall Hm] & _ & Hpos). cbn [rowHeight] in Hpos.
  destruct m as [|m].
  - exfalso. apply Hm. rewrite steps_0, Hcx'. reflexivity.
  - rewrite Hpos by lia. apply Q.max_r. discriminate.
Qed.

(** The row at y = 50: its height and the negative gap cancel, and the row
    cursor stays where it is. *)
Lemma rLoop_stuck fuel : forall cy acc k, cy == 50 -> rLoop fuel cy acc k = None.
Proof.
  induction fuel as [|fuel IH]; intros cy acc k Hcy; [reflexivity|].
  cbn [rowLoop].
  assert (E : Qltb cy (maxY box) = true) by (apply Qltb_lt; cbn; lra).
  rewrite E.
  destruct (cLoop fuel cy (minX box + gapPx) (mkRowState acc k 0))
    as [st|] eqn:Ecol; [|reflexivity].
  assert (Hh : totalHOf 1 type3 == 1050) by reflexivity.
  apply cLoop_row_height in Ecol; [|lra|lra].
  assert (Et : Qltb 0 (rowHeight st) = true) by (apply Qltb_lt; lra).
  rewrite Et. apply IH. lra.
Qed.

(** Above the room nothing fits, and the row cursor moves down by 100. *)
Lemma rLoop_above fuel cy acc k :
  cy < 0 ->
  rLoop (S fuel) cy acc k = None \/
  rLoop (S fuel) cy acc k = rLoop fuel (cy + 100 * 1) acc k.
Proof.
  intros Hcy. cbn [rowLoop].
  assert (E : Qltb cy (maxY box) = true) by (apply Qltb_lt; cbn; lra).
  rewrite E.
  destruct (cLoop fuel cy (minX box + gapPx) (mkRowState acc k 0))
    as [st|] eqn:Ecol; [right | now left].
  apply columnLoop_no_fit in Ecol;
    [|intros cx; apply (proj2 (type3_fit cx cy)); lra].
  subst st. reflexivity.
Qed.

Lemma rLoop_never_ends n : forall fuel cy acc k,
  cy == 50 - steps n 100 -> rLoop fuel cy acc k = None.
Proof.
  induction n as [|n IH]; intros fuel cy acc k Hcy.
  - rewrite steps_0 in Hcy. apply rLoop_stuck. lra.
  - rewrite steps_S in Hcy.
    assert (0 <= steps n 100).
    { rewrite <- (steps_0 100). unfold steps.
      apply Qmult_le_compat_r; [|discriminate].
      rewrite <- Zle_Qle. lia. }
    destruct fuel as [|fuel]; [reflexivity|].
    destruct (rLoop_above fuel cy acc k) as [E|E]; [lra | exact E|].
    rewrite E. apply IH. lra.
Qed.

(** With scale 1, the 6000 x 6000 square, the 1200 x 450 entry and an aisle
    gap of -1050 mm the sweep reaches the row at y = 50, where the row
    height 1050 and the gap cancel: no number of iterations returns. *)
Lemma generateLayout_negative_gap_never_ends :
  ~ (exists fuel res,
       generateLayout fuel ids (squareRoom 6000) [] 1 standard [type3]
         (- (1050)) = Some res).
Proof.
  intros (fuel & res & H).
  unfold generateLayout, squareRoom in H. cbv zeta in H.
  rewrite (rLoop_never_ends 11) in H; [discriminate | reflexivity].
Qed.

End NegativeGap.

(** * Further properties of the placement engine *)

(** ** What the result depends on *)

(** The two loops read the polygon, the holes and the catalog only through
    the answer of the catalog scan at each cursor position. *)
Lemma columnLoop_firstFit_ext ids p h fts p' h' fts' s b :
  (forall cx cy, firstFit p h s cx cy fts = firstFit p' h' s cx cy fts') ->
  forall fuel cy cx st,
    columnLoop ids p h s fts b fuel cy cx st =
    columnLoop ids p' h' s fts' b fuel cy cx st.
Proof.
  intros H. induction fuel as [|fuel IH]; intros cy cx st; simpl;
    [reflexivity|].
  rewrite H. destruct (Qltb cx (maxX b)); [|reflexivity].
  destruct (firstFit p' h' s cx cy fts') as [[[f w] t]|]; apply IH.
Qed.

Lemma rowLoop_firstFit_ext ids p h fts p' h' fts' s b gap :
  (forall cx cy, firstFit p h s cx cy fts = firstFit p' h' s cx cy fts') ->
  forall fuel cy acc n,
    rowLoop ids p h s fts b gap fuel cy acc n =
    rowLoop ids p' h' s fts' b gap fuel cy acc n.
Proof.
  intros H. induction fuel as [|fuel IH]; intros cy acc n; simpl;
    [reflexivity|].
  destruct (Qltb cy (maxY b)); [|reflexivity].
  rewrite (columnLoop_firstFit_ext ids p h fts p' h' fts' s b H).
  destruct (columnLoop ids p' h' s fts' b fuel cy _ _) as [st|];
    [|reflexivity].
  destruct (Qltb 0 (rowHeight st)); apply IH.
Qed.

(** The hole test asks whether some hole contains some sample point. *)
Lemma outsideHoles_existsb cs holes :
  outsideHoles cs holes =
  negb (existsb (fun hole => existsb (fun p => isPointInPolygon p hole) cs)
          holes).
Proof.
  induction holes as [|hole rest IH]; simpl; [reflexivity|].
  destruct (existsb _ cs); [reflexivity | exact IH].
Qed.

Lemma outsideHoles_same_holes cs holes holes' :
  (forall hole, In hole holes <-> In hole holes') ->
  outsideHoles cs holes = outsideHoles cs holes'.
Proof.
  intros H. rewrite !outsideHoles_existsb. f_equal.
  apply eq_true_iff_eq. rewrite !existsb_exists.
  split; intros (hole & Hin & Hp); exists hole; split; auto; now apply H.
Qed.

Lemma firstFit_same_holes p holes holes' s cx cy fts :
  (forall hole, In hole holes <-> In hole holes') ->
  firstFit p holes s cx cy fts = firstFit p holes' s cx cy fts.
Proof.
  intros H. induction fts as [|g rest IH]; simpl; [reflexivity|].
  unfold isRectValid. rewrite (outsideHoles_same_holes _ holes holes' H).
  now rewrite IH.
Qed.

(** X1.  The layout depends on the holes only as a set: listing the
    same holes in another order, or a hole twice, gives the same result
    with the same fuel. *)
Theorem generateLayout_same_holes :
  forall fuel ids polygon holes holes' scale pattern furnitureTypes aisleGap,
    (forall hole, In hole holes <-> In hole holes') ->
    generateLayout fuel ids polygon holes scale pattern furnitureTypes
      aisleGap =
    generateLayout fuel ids polygon holes' scale pattern furnitureTypes
      aisleGap.
Proof.
  intros fuel ids polygon holes holes' scale pattern fts gap H.
  unfold generateLayout. destruct polygon as [|p0 rest]; [reflexivity|].
  apply rowLoop_firstFit_ext. intros cx cy.
  now apply firstFit_same_holes.
Qed.

Lemma generateLayout_same_holes_witness :
  generateLayout 64 noIds (squareRoom 6000)
    [rectRoom 2000 1000 3000 2000; rectRoom 4000 3000 5000 5000] 1 standard
    FURNITURE_TYPES 1300 =
  generateLayout 64 noIds (squareRoom 6000)
    [rectRoom 4000 3000 5000 5000; rectRoom 2000 1000 3000 2000;
     rectRoom 4000 3000 5000 5000] 1 standard FURNITURE_TYPES 1300.
Proof.
  apply (generateLayout_same_holes 64 noIds (squareRoom 6000)
           [rectRoom 2000 1000 3000 2000; rectRoom 4000 3000 5000 5000]
           [rectRoom 4000 3000 5000 5000; rectRoom 2000 1000 3000 2000;
            rectRoom 4000 3000 5000 5000] 1 standard FURNITURE_TYPES 1300).
  intros hole. simpl. tauto.
Defined.

Lemma firstFit_activeTypes p h s cx cy fts :
  firstFit p h s cx cy (activeTypes fts) = firstFit p h s cx cy fts.
Proof.
  unfold activeTypes.
  induction fts as [|g rest IH]; simpl; [reflexivity|].
  assert (Ha : isActive g = negb (match enabled g with
                                  | Some false => true
                                  | _ => false
                                  end)).
  { unfold isActive. now destruct (enabled g) as [[|]|]. }
  rewrite Ha.
  destruct (enabled g) as [[|]|] eqn:E; simpl; rewrite ?E, IH; reflexivity.
Qed.

(** X2.  The caller's filter [t.enabled !== false] changes nothing:
    the engine skips the switched-off entries itself, so the filtered and
    the unfiltered catalog give the same layout. *)
Theorem generateLayout_activeTypes :
  forall fuel ids polygon holes scale pattern furnitureTypes aisleGap,
    generateLayout fuel ids polygon holes scale pattern
      (activeTypes furnitureTypes) aisleGap =
    generateLayout fuel ids polygon holes scale pattern furnitureTypes
      aisleGap.
Proof.
  intros fuel ids polygon holes scale pattern fts gap.
  unfold generateLayout. destruct polygon as [|p0 rest]; [reflexivity|].
  apply rowLoop_firstFit_ext. intros cx cy. apply firstFit_activeTypes.
Qed.

(** ** A catalog with no entry switched on *)

(** When no catalog entry fits anywhere, a sweep with a positive scale
    ends after finitely many empty rows. *)
Lemma generateLayout_no_fit ids polygon holes scale pattern fts gap :
  0 < scale ->
  (forall cx cy, firstFit polygon holes scale cx cy fts = None) ->
  exists fuel,
    generateLayout fuel ids polygon holes scale pattern fts gap = Some [].
Proof.
  intros Hscale Hnone.
  unfold generateLayout. destruct polygon as [|p0 rest]; [now exists 0%nat|].
  set (b := boundsOf p0 rest). set (poly := p0 :: rest) in *.
  destruct (steps_reach (maxX b - (minX b + gap * scale)) (50 * scale))
    as (nc & Hnc); [lra|].
  destruct (steps_reach (maxY b - (minY b + gap * scale)) (100 * scale))
    as (nr & Hnr); [lra|].
  destruct (rowLoop_terminates ids poly holes scale fts b (gap * scale)
              (fun l => l = []) (100 * scale) (S nc))
    with (n := nr) (cy := minY b + gap * scale) (acc := @nil PlacedItem)
         (k := 0%nat) as (res & Hres & ->); auto; try lra.
  - intros cy acc k ->.
    destruct (columnLoop_terminates ids poly holes scale fts b (50 * scale)
                cy) with (n := nc) (cx := minX b + gap * scale)
                         (st := mkRowState [] k 0) as (st & Hst);
      auto; try lra.
    { intros cx f w h' F. rewrite Hnone in F. discriminate. }
    exists st. split; [exact Hst|].
    rewrite (columnLoop_no_fit ids poly holes scale fts b (S nc) cy
               (fun cx => Hnone cx cy) _ _ _ Hst).
    simpl. split; [reflexivity | lra].
  - eauto.
Qed.



(** ** Identifiers, rotation and catalog entries of the items *)

Lemma columnLoop_ids ids p h s fts b fuel : forall cy cx st st',
  columnLoop ids p h s fts b fuel cy cx st = Some st' ->
  exists new,
    items st' = items st ++ new /\
    drawn st' = (drawn st + length new)%nat /\
    map item_id new = map ids (seq (drawn st) (length new)).
Proof.
  induction fuel as [|fuel IH]; intros cy cx st st'; simpl; [discriminate|].
  destruct (Qltb cx (maxX b)).
  - destruct (firstFit p h s cx cy fts) as [[[f w] t]|]; [|apply IH].
    intros H. apply IH in H. destruct H as (new & Hit & Hdr & Hids).
    simpl in Hit, Hdr, Hids.
    exists (mkPlacedItem (ids (drawn st)) cx cy 0 f :: new).
    rewrite Hit, Hdr, <- app_assoc. simpl. repeat split; [lia|].
    now rewrite Hids.
  - intros [= <-]. exists []. rewrite app_nil_r. simpl. repeat split. lia.
Qed.

Lemma rowLoop_ids ids p h s fts b gap fuel : forall cy acc n res,
  rowLoop ids p h s fts b gap fuel cy acc n = Some res ->
  exists new,
    res = acc ++ new /\ map item_id new = map ids (seq n (length new)).
Proof.
  induction fuel as [|fuel IH]; intros cy acc n res; simpl; [discriminate|].
  destruct (Qltb cy (maxY b)).
  - destruct (columnLoop ids p h s fts b fuel cy _ _) as [st|] eqn:E;
      [|discriminate].
    apply columnLoop_ids in E. destruct E as (new1 & Hit & Hdr & Hids).
    simpl in Hit, Hdr, Hids.
    assert (Hnext : forall cy', rowLoop ids p h s fts b gap fuel cy'
                      (items st) (drawn st) = Some res ->
              exists new, res = acc ++ new /\
                map item_id new = map ids (seq n (length new))).
    { intros cy' H. apply IH in H. destruct H as (new2 & -> & Hids2).
      exists (new1 ++ new2). rewrite Hit, <- app_assoc. split; [reflexivity|].
      rewrite length_app, seq_app, !map_app, Hids, Hids2, Hdr.
      reflexivity. }
    destruct (Qltb 0 (rowHeight st)); apply Hnext.
  - intros [= <-]. exists []. now rewrite app_nil_r.
Qed.

Lemma NoDup_map_injective {A B : Type} (f : A -> B) l :
  (forall a b, f a = f b -> a = b) -> NoDup l -> NoDup (map f l).
Proof.
  intros Hinj. induction 1 as [|a l Hnot _ IH]; simpl; constructor; auto.
  intros Hin. apply in_map_iff in Hin. destruct Hin as (b & E & Hb).
  apply Hinj in E. subst b. contradiction.
Qed.

(** X4.  The identifiers of the returned items are the successive
    results of [crypto.randomUUID()] in the order of the list: item [k]
    carries the [k]-th identifier drawn.  So the identifiers are pairwise
    different whenever the generator never repeats itself. *)
Theorem generateLayout_ids :
  forall fuel ids polygon holes scale pattern furnitureTypes aisleGap res,
    generateLayout fuel ids polygon holes scale pattern furnitureTypes
      aisleGap = Some res ->
    map item_id res = map ids (seq 0 (length res)) /\
    ((forall i j, ids i = ids j -> i = j) -> NoDup (map item_id res)).
Proof.
  intros fuel ids polygon holes scale pattern fts gap res Hrun.
  assert (Hids : map item_id res = map ids (seq 0 (length res))).
  { unfold generateLayout in Hrun. destruct polygon as [|p0 rest].
    - injection Hrun as <-. reflexivity.
    - apply rowLoop_ids in Hrun. destruct Hrun as (new & -> & Hnew).
      exact Hnew. }
  split; [exact Hids|].
  intros Hinj. rewrite Hids. apply NoDup_map_injective; [exact Hinj|].
  apply seq_NoDup.
Qed.

Lemma generateLayout_ids_witness :
  map item_id
    [mkPlacedItem "" 1300 1300 0 type3; mkPlacedItem "" 2550 1300 0 type3;
     mkPlacedItem "" 3800 1300 0 type3; mkPlacedItem "" 1300 3650 0 type3;
     mkPlacedItem "" 2550 3650 0 type3; mkPlacedItem "" 3800 3650 0 type3] =
  map noIds (seq 0 6) /\
  ((forall i j, noIds i = noIds j -> i = j) ->
   NoDup (map item_id
     [mkPlacedItem "" 1300 1300 0 type3; mkPlacedItem "" 2550 1300 0 type3;
      mkPlacedItem "" 3800 1300 0 type3; mkPlacedItem "" 1300 3650 0 type3;
      mkPlacedItem "" 2550 3650 0 type3; mkPlacedItem "" 3800 3650 0 type3])).
Proof.
  apply (generateLayout_ids 64 noIds (squareRoom 6000) [] 1 standard
           [type3] 1300).
  vm_compute. reflexivity.
Defined.

(** X5.  Every returned item has rotation 0 and carries an entry of
    the catalog that was passed in, one that is not switched off. *)
Theorem generateLayout_items_of_catalog :
  forall fuel ids polygon holes scale pattern furnitureTypes aisleGap res it,
    generateLayout fuel ids polygon holes scale pattern furnitureTypes
      aisleGap = Some res ->
    In it res ->
    rotation it = 0 /\ In (type it) furnitureTypes /\
    enabled (type it) <> Some false.
Proof.
  intros fuel ids polygon holes scale pattern fts gap res it Hrun Hin.
  assert (Hall : Forall (emitted polygon holes scale fts) res).
  { unfold generateLayout in Hrun. destruct polygon as [|p0 rest].
    - injection Hrun as <-. constructor.
    - eapply rowLoop_emitted; [|exact Hrun]. constructor. }
  rewrite Forall_forall in Hall.
  destruct (Hall it Hin) as (Ht & Hen & Hrot & _). auto.
Qed.

Lemma generateLayout_items_of_catalog_witness :
  rotation (mkPlacedItem "" 2550 3650 0 type3) = 0 /\
  In (type (mkPlacedItem "" 2550 3650 0 type3))
    [mkFurnitureSet "type1" "Type 1" 1800 450 3 15000 "" (Some false);
     type3] /\
  enabled (type (mkPlacedItem "" 2550 3650 0 type3)) <> Some false.
Proof.
  apply (generateLayout_items_of_catalog 64 noIds (squareRoom 6000) [] 1
           standard
           [mkFurnitureSet "type1" "Type 1" 1800 450 3 15000 "" (Some false);
            type3] 1300
           [mkPlacedItem "" 1300 1300 0 type3;
            mkPlacedItem "" 2550 1300 0 type3;
            mkPlacedItem "" 3800 1300 0 type3;
            mkPlacedItem "" 1300 3650 0 type3;
            mkPlacedItem "" 2550 3650 0 type3;
            mkPlacedItem "" 3800 3650 0 type3]).
  - vm_compute. reflexivity.
  - simpl. tauto.
Defined.

(** ** Catalog fields the engine does not read *)

Lemma firstFit_retype g p h s cx cy fts :
  keepsFootprint g ->
  firstFit p h s cx cy (map g fts) =
  option_map (fun r => (g (fst (fst r)), snd (fst r), snd r))
    (firstFit p h s cx cy fts).
Proof.
  intros Hg. induction fts as [|f rest IH]; simpl; [reflexivity|].
  destruct (Hg f) as (Hw & Hd & Hen). rewrite Hw, Hd, IH.
  destruct (enabled f) as [[|]|] eqn:E;
    destruct (enabled (g f)) as [[|]|] eqn:E';
    try reflexivity;
    try (destruct Hen as [H1 H2];
         first [now specialize (H1 eq_refl) | now specialize (H2 eq_refl)]);
    now destruct (isRectValid cx cy _ _ p h).
Qed.

Lemma columnLoop_retype g ids p h s fts b fuel :
  keepsFootprint g ->
  forall cy cx st,
    columnLoop ids p h s (map g fts) b fuel cy cx (retypeState g st) =
    option_map (retypeState g) (columnLoop ids p h s fts b fuel cy cx st).
Proof.
  intros Hg. induction fuel as [|fuel IH]; intros cy cx st; simpl;
    [reflexivity|].
  destruct (Qltb cx (maxX b)); [|reflexivity].
  rewrite (firstFit_retype g p h s cx cy fts Hg).
  destruct (firstFit p h s cx cy fts) as [[[f w] t]|]; simpl; [|apply IH].
  rewrite <- IH. f_equal. unfold retypeState. simpl. now rewrite map_app.
Qed.

Lemma rowLoop_retype g ids p h s fts b gap fuel :
  keepsFootprint g ->
  forall cy acc n,
    rowLoop ids p h s (map g fts) b gap fuel cy (map (retype g) acc) n =
    option_map (map (retype g))
      (rowLoop ids p h s fts b gap fuel cy acc n).
Proof.
  intros Hg. induction fuel as [|fuel IH]; intros cy acc n; simpl;
    [reflexivity|].
  destruct (Qltb cy (maxY b)); [|reflexivity].
  change (mkRowState (map (retype g) acc) n 0)
    with (retypeState g (mkRowState acc n 0)).
  rewrite (columnLoop_retype g ids p h s fts b fuel Hg).
  destruct (columnLoop ids p h s fts b fuel cy _ _) as [st|]; simpl;
    [|reflexivity].
  destruct (Qltb 0 (rowHeight st)); apply IH.
Qed.

(** X6.  The engine reads of a catalog entry only its table width,
    its table depth and whether it is switched off.  Changing anything else
    in the catalog (names, prices, chair counts, colours, or the flag from
    absent to [true]) gives the same layout: the same positions and
    identifiers, each item carrying the changed entry. *)
Theorem generateLayout_retype :
  forall g fuel ids polygon holes scale pattern furnitureTypes aisleGap,
    keepsFootprint g ->
    generateLayout fuel ids polygon holes scale pattern
      (map g furnitureTypes) aisleGap =
    option_map (map (retype g))
      (generateLayout fuel ids polygon holes scale pattern furnitureTypes
         aisleGap).
Proof.
  intros g fuel ids polygon holes scale pattern fts gap Hg.
  unfold generateLayout. destruct polygon as [|p0 rest]; [reflexivity|].
  apply (rowLoop_retype g ids (p0 :: rest) holes scale fts (boundsOf p0 rest)
           (gap * scale) fuel Hg _ [] 0%nat).
Qed.

Lemma generateLayout_retype_witness :
  generateLayout 64 noIds (squareRoom 6000) [] 1 standard
    (map (fun f => mkFurnitureSet (id f) (name f) (tableWidth f)
                     (tableDepth f) (chairCount f) 0 (color f) (enabled f))
       FURNITURE_TYPES) 1300 =
  option_map
    (map (retype (fun f => mkFurnitureSet (id f) (name f) (tableWidth f)
                             (tableDepth f) (chairCount f) 0 (color f)
                             (enabled f))))
    (generateLayout 64 noIds (squareRoom 6000) [] 1 standard FURNITURE_TYPES
       1300).
Proof.
  apply (generateLayout_retype
           (fun f => mkFurnitureSet (id f) (name f) (tableWidth f)
                       (tableDepth f) (chairCount f) 0 (color f) (enabled f))
           64 noIds (squareRoom 6000) [] 1 standard FURNITURE_TYPES 1300).
  intros f. simpl. tauto.
Defined.

(** ** Clearance between the items *)

Lemma ForallOrdPairs_snoc {A : Type} (R : A -> A -> Prop) l a :
  ForallOrdPairs R l -> Forall (fun b => R b a) l ->
  ForallOrdPairs R (l ++ [a]).
Proof.
  induction 1 as [|b l Hb Hl IH]; intros HF; simpl.
  - constructor; constructor.
  - inversion HF; subst. constructor; [|now apply IH].
    apply Forall_app; split; [exact Hb | now constructor].
Qed.

Section Clearance.

Variable ids : nat -> string.
Variable polygon : list Point.
Variable holes : list (list Point).
Variable scale : Q.
Variable furnitureTypes : list FurnitureSet.
Variable bounds : Bounds.
Variable pxAisleGap : Q.

Hypothesis scale_pos : 0 < scale.
Hypothesis gap_nonneg : 0 <= pxAisleGap.
Hypothesis widths : forall f,
  In f furnitureTypes -> enabled f <> Some false ->
  0 <= tableWidth f * scale + 50 * scale.
Hypothesis heights : forall f,
  In f furnitureTypes -> enabled f <> Some false -> 0 < totalHOf scale f.

(** What the column loop keeps while it sweeps the row at [cy] with its
    cursor at [cx]. *)
Local Abbreviation colInv := (fun (cy cx : Q) (st : RowState) =>
  ForallOrdPairs (clearOf scale pxAisleGap) (items st) /\
  (forall a, In a (items st) ->
     (item_y a = cy /\
      item_x a + tableWidth (type a) * scale + 50 * scale <= cx) \/
     item_y a + totalHOf scale (type a) + pxAisleGap <= cy) /\
  (forall a, In a (items st) ->
     item_y a = cy -> totalHOf scale (type a) <= rowHeight st) /\
  (forall a, In a (items st) -> 0 < totalHOf scale (type a))).

Lemma columnLoop_clear fuel : forall cy cx st st',
  columnLoop ids polygon holes scale furnitureTypes bounds fuel cy cx st
    = Some st' ->
  colInv cy cx st -> exists cx', colInv cy cx' st'.
Proof.
  induction fuel as [|fuel IH]; intros cy cx st st'; simpl; [discriminate|].
  destruct (Qltb cx (maxX bounds)); [|intros [= <-] H; now exists cx].
  destruct (firstFit polygon holes scale cx cy furnitureTypes)
    as [[[f w] t]|] eqn:F.
  - intros Hrun (H1 & H2 & H3 & H4).
    destruct (firstFit_Some _ _ _ _ _ _ _ _ _ F) as (Hin & Hen & -> & -> & _).
    specialize (widths f Hin Hen). specialize (heights f Hin Hen).
    apply IH in Hrun; [exact Hrun|]. simpl. repeat split.
    + apply ForallOrdPairs_snoc; [exact H1|].
      apply Forall_forall. intros a Ha. unfold clearOf. simpl.
      destruct (H2 a Ha) as [[Hy Hx]|Hy]; [left | right]; auto.
    + intros a Ha. apply in_app_or in Ha.
      destruct Ha as [Ha|[<-|[]]].
      * destruct (H2 a Ha) as [[Hy Hx]|Hy]; [left | right]; auto.
        split; [exact Hy | lra].
      * left. simpl. split; [reflexivity | lra].
    + intros a Ha Hy. apply in_app_or in Ha.
      destruct Ha as [Ha|[<-|[]]].
      * specialize (H3 a Ha Hy).
        pose proof (Q.le_max_l (rowHeight st) (totalHOf scale f)). lra.
      * simpl. apply Q.le_max_r.
    + intros a Ha. apply in_app_or in Ha.
      destruct Ha as [Ha|[<-|[]]]; [now apply H4 | exact heights].
  - intros Hrun (H1 & H2 & H3 & H4).
    apply IH in Hrun; [exact Hrun|]. repeat split; auto.
    intros a Ha. destruct (H2 a Ha) as [[Hy Hx]|Hy]; [left | right]; auto.
    split; [exact Hy | lra].
Qed.

Lemma rowLoop_clear fuel : forall cy acc n res,
  rowLoop ids polygon holes scale furnitureTypes bounds pxAisleGap fuel cy
    acc n = Some res ->
  ForallOrdPairs (clearOf scale pxAisleGap) acc ->
  (forall a, In a acc ->
     item_y a + totalHOf scale (type a) + pxAisleGap <= cy) ->
  (forall a, In a acc -> 0 < totalHOf scale (type a)) ->
  ForallOrdPairs (clearOf scale pxAisleGap) res.
Proof.
  induction fuel as [|fuel IH]; intros cy acc n res; simpl; [discriminate|].
  destruct (Qltb cy (maxY bounds)); [|now intros [= <-]].
  destruct (columnLoop ids polygon holes scale furnitureTypes bounds fuel cy
              _ _) as [st|] eqn:E; [|discriminate].
  intros Hrun J1 J2 J3.
  apply columnLoop_clear in E.
  2:{ simpl. repeat split; auto.
      intros a Ha Hy. specialize (J2 a Ha). specialize (J3 a Ha).
      rewrite Hy in J2. lra. }
  destruct E as (cx' & H1 & H2 & H3 & H4).
  destruct (Qltb 0 (rowHeight st)) eqn:Eh.
  - apply Qltb_lt in Eh. apply IH in Hrun; auto.
    intros a Ha. destruct (H2 a Ha) as [[Hy Hx]|Hy]; [|lra].
    specialize (H3 a Ha Hy). rewrite Hy. lra.
  - apply Qltb_ge in Eh. apply IH in Hrun; auto.
    intros a Ha. destruct (H2 a Ha) as [[Hy Hx]|Hy]; [|lra].
    specialize (H3 a Ha Hy). specialize (H4 a Ha). rewrite Hy. lra.
Qed.

End Clearance.

(** X7.  With a positive scale, a non-negative aisle gap and enabled
    catalog entries at least -50 mm wide and more than -600 mm deep, any two
    returned items keep their distance: the later one in the list either
    lies in the same row and starts at least 50 mm (scaled) right of the
    earlier one's table, or lies in a later row that starts at least the
    aisle gap below the earlier one's footprint.  The list is thus ordered
    row by row, left to right, and footprints do not overlap. *)
Theorem generateLayout_clearance :
  forall fuel ids polygon holes scale pattern furnitureTypes aisleGap res,
    0 < scale -> 0 <= aisleGap ->
    (forall f, In f furnitureTypes -> enabled f <> Some false ->
               - (50) <= tableWidth f /\ - (600) < tableDepth f) ->
    generateLayout fuel ids polygon holes scale pattern furnitureTypes
      aisleGap = Some res ->
    ForallOrdPairs (clearOf scale (aisleGap * scale)) res.
Proof.
  intros fuel ids polygon holes scale pattern fts gap res Hs Hgap Hsize Hrun.
  unfold generateLayout in Hrun. destruct polygon as [|p0 rest].
  - injection Hrun as <-. constructor.
  - eapply (rowLoop_clear ids (p0 :: rest) holes scale fts (boundsOf p0 rest)
              (gap * scale)); try exact Hrun.
    + exact Hs.
    + nra.
    + intros f Hin Hen. destruct (Hsize f Hin Hen). nra.
    + intros f Hin Hen. destruct (Hsize f Hin Hen).
      unfold totalHOf, CHAIR_DIMENSIONS.depth. nra.
    + constructor.
    + intros a [].
    + intros a [].
Qed.

Lemma generateLayout_clearance_witness :
  ForallOrdPairs (clearOf 1 (1300 * 1))
    [mkPlacedItem "" 1300 1300 0 type3; mkPlacedItem "" 2550 1300 0 type3;
     mkPlacedItem "" 3800 1300 0 type3; mkPlacedItem "" 1300 3650 0 type3;
     mkPlacedItem "" 2550 3650 0 type3; mkPlacedItem "" 3800 3650 0 type3].
Proof.
  apply (generateLayout_clearance 64 noIds (squareRoom 6000) [] 1 standard
           [type3] 1300).
  - reflexivity.
  - discriminate.
  - intros f [<-|[]] _. split; [discriminate | reflexivity].
  - vm_compute. reflexivity.
Defined.

(** * Further properties of the containment tester *)

(** ** The loop computes the parity of the crossed edges *)

Lemma rayLoop_crossings px py : forall vs vj inside,
  rayLoop px py vj vs inside =
  xorb inside (crossings px py (edgesFrom vj vs)).
Proof.
  induction vs as [|vi rest IH]; intros vj inside; simpl.
  - now rewrite xorb_false_r.
  - rewrite IH.
    destruct (intersect px py vi vj), inside,
      (crossings px py (edgesFrom vi rest)); reflexivity.
Qed.

Lemma isPointInPolygon_crossings p vs :
  isPointInPolygon p vs = crossings (x p) (y p) (closedEdges vs).
Proof.
  destruct vs as [|v0 rest]; [reflexivity|].
  unfold isPointInPolygon, closedEdges. now rewrite rayLoop_crossings.
Qed.

Lemma crossings_Permutation px py es es' :
  Permutation es es' -> crossings px py es = crossings px py es'.
Proof.
  induction 1 as [|e es es' _ IH|e e' es|es es' es'' _ IH1 _ IH2]; simpl.
  - reflexivity.
  - now rewrite IH.
  - destruct (intersect px py (fst e) (snd e)),
      (intersect px py (fst e') (snd e')), (crossings px py es);
      reflexivity.
  - now rewrite IH1.
Qed.

Lemma crossings_swap px py es :
  crossings px py (map swapEdge es) = crossings px py es.
Proof.
  induction es as [|[a b] es IH]; simpl; [reflexivity|].
  now rewrite IH, (intersect_sym px py b a).
Qed.

Lemma last_cons {A : Type} (a d : A) l : last (a :: l) d = last l a.
Proof.
  revert a d. induction l as [|b l IH]; intros a d; [reflexivity|].
  change (last (a :: b :: l) d) with (last (b :: l) d).
  rewrite (IH b d). symmetry. apply (IH b a).
Qed.

Lemma last_nonempty {A : Type} (d d' : A) l :
  l <> [] -> last l d = last l d'.
Proof.
  destruct l as [|a l]; [congruence|]. intros _. now rewrite !last_cons.
Qed.

Lemma edgesFrom_app vj l l' :
  edgesFrom vj (l ++ l') = edgesFrom vj l ++ edgesFrom (last l vj) l'.
Proof.
  revert vj. induction l as [|a l IH]; intros vj; [reflexivity|].
  rewrite last_cons. cbn [app edgesFrom]. now rewrite IH.
Qed.

(** ** The starting vertex and the direction do not matter *)

Lemma last_app_cons {A : Type} (l : list A) b l' d :
  last (l ++ b :: l') d = last l' b.
Proof.
  revert d. induction l as [|a l IH]; intros d; cbn [app].
  - apply last_cons.
  - rewrite last_cons. apply IH.
Qed.

Lemma closedEdges_rotate l1 l2 :
  Permutation (closedEdges (l1 ++ l2)) (closedEdges (l2 ++ l1)).
Proof.
  destruct l1 as [|a l1]; [now rewrite app_nil_r|].
  destruct l2 as [|b l2]; [now rewrite app_nil_r|].
  change (closedEdges ((a :: l1) ++ b :: l2))
    with (edgesFrom (last ((a :: l1) ++ b :: l2) a) ((a :: l1) ++ b :: l2)).
  change (closedEdges ((b :: l2) ++ a :: l1))
    with (edgesFrom (last ((b :: l2) ++ a :: l1) b) ((b :: l2) ++ a :: l1)).
  rewrite !edgesFrom_app, !last_app_cons, !last_cons.
  apply Permutation_app_comm.
Qed.

(** The reversed polygon has the same edges, each walked the other way. *)
Lemma closedEdges_rev : forall l a,
  Permutation (closedEdges (rev (a :: l)))
    (map swapEdge (closedEdges (a :: l))).
Proof.
  assert (Hopen : forall l a,
            exists m, rev (a :: l) = last l a :: m /\
              last m (last l a) = a /\
              Permutation (edgesFrom (last l a) m)
                (map swapEdge (edgesFrom a l))).
  { induction l as [|b l IH]; intros a.
    - exists []. repeat split. constructor.
    - destruct (IH b) as (m & Hm & Hlast & Hperm).
      exists (m ++ [a]). rewrite last_cons.
      change (rev (a :: b :: l)) with (rev (b :: l) ++ [a]).
      rewrite Hm. repeat split.
      + apply last_app_cons.
      + rewrite edgesFrom_app, Hlast. cbn [edgesFrom map].
        change (swapEdge (b, a)) with (a, b).
        rewrite <- Hperm. symmetry. apply Permutation_cons_append. }
  intros l a. destruct (Hopen l a) as (m & Hm & Hlast & Hperm).
  rewrite Hm.
  change (closedEdges (last l a :: m))
    with ((last l a, last (last l a :: m) (last l a))
            :: edgesFrom (last l a) m).
  change (closedEdges (a :: l))
    with ((a, last (a :: l) a) :: edgesFrom a l).
  rewrite !last_cons, Hlast. cbn [map].
  change (swapEdge (a, last l a)) with (last l a, a).
  now constructor.
Qed.


(** ** Points outside the bounding box *)

Lemma minOf_le v vs :
  minOf v vs <= v /\ forall u, In u vs -> minOf v vs <= u.
Proof.
  unfold minOf. revert v. induction vs as [|a vs IH]; intros v; simpl.
  - split; [apply Qle_refl | intros u []].
  - destruct (IH (Qmin v a)) as (H1 & H2).
    pose proof (Q.le_min_l v a). pose proof (Q.le_min_r v a).
    split; [lra|]. intros u [<-|Hu]; [lra | now apply H2].
Qed.

Lemma maxOf_ge v vs :
  v <= maxOf v vs /\ forall u, In u vs -> u <= maxOf v vs.
Proof.
  unfold maxOf. revert v. induction vs as [|a vs IH]; intros v; simpl.
  - split; [apply Qle_refl | intros u []].
  - destruct (IH (Qmax v a)) as (H1 & H2).
    pose proof (Q.le_max_l v a). pose proof (Q.le_max_r v a).
    split; [lra|]. intros u [<-|Hu]; [lra | now apply H2].
Qed.

(** Every vertex lies between the four bounds the engine computes. *)
Lemma boundsOf_vertex p0 rest v :
  In v (p0 :: rest) ->
  (minX (boundsOf p0 rest) <= x v /\ x v <= maxX (boundsOf p0 rest)) /\
  (minY (boundsOf p0 rest) <= y v /\ y v <= maxY (boundsOf p0 rest)).
Proof.
  intros Hv. unfold boundsOf. cbn [minX maxX minY maxY].
  destruct (minOf_le (x p0) (map x rest)) as (Hx1 & Hx2).
  destruct (maxOf_ge (x p0) (map x rest)) as (Hx3 & Hx4).
  destruct (minOf_le (y p0) (map y rest)) as (Hy1 & Hy2).
  destruct (maxOf_ge (y p0) (map y rest)) as (Hy3 & Hy4).
  destruct Hv as [<-|Hv]; [tauto|].
  repeat split;
    [apply Hx2 | apply Hx4 | apply Hy2 | apply Hy4]; now apply in_map.
Qed.

(** Where an edge straddles the ray's line, the abscissa the loop computes
    lies between the abscissas of the edge's end points. *)
Lemma straddle_between py xi yi xj yj lo hi :
  xorb (Qgtb yi py) (Qgtb yj py) = true ->
  lo <= xi -> lo <= xj -> xi <= hi -> xj <= hi ->
  lo <= (xj - xi) * (py - yi) / (yj - yi) + xi /\
  (xj - xi) * (py - yi) / (yj - yi) + xi <= hi.
Proof.
  intros Hs Hli Hlj Hih Hjh.
  set (t := (py - yi) / (yj - yi)).
  assert (Ht : 0 <= t /\ t <= 1).
  { unfold t, Qgtb in *.
    destruct (Qltb py yi) eqn:Ei; destruct (Qltb py yj) eqn:Ej;
      try discriminate; qbool.
    - assert (Heq : (py - yi) / (yj - yi) == (yi - py) / (yi - yj))
        by (field; lra).
      rewrite Heq. split.
      + apply Qle_shift_div_l; lra.
      + apply Qle_shift_div_r; lra.
    - split.
      + apply Qle_shift_div_l; lra.
      + apply Qle_shift_div_r; lra. }
  assert (Hx : (xj - xi) * (py - yi) / (yj - yi) + xi == xi + t * (xj - xi)).
  { unfold t, Qdiv. ring. }
  rewrite Hx. destruct Ht as (Ht0 & Ht1). split; nra.
Qed.

Lemma edgesFrom_In vj vs a b :
  In (a, b) (edgesFrom vj vs) -> In a (vj :: vs) /\ In b (vj :: vs).
Proof.
  revert vj. induction vs as [|vi rest IH]; intros vj; simpl; [tauto|].
  intros [[= <- <-]|H]; [tauto|].
  apply IH in H. simpl in H. tauto.
Qed.

Lemma crossings_none px py es :
  (forall e, In e es -> intersect px py (fst e) (snd e) = false) ->
  crossings px py es = false.
Proof.
  induction es as [|e es IH]; intros H; simpl; [reflexivity|].
  rewrite (H e) by now left. apply IH. intros e' He'. apply H. now right.
Qed.

(** Left of every vertex each straddling edge is crossed, so the parity is
    that of the straddling edges of the chain, which telescopes. *)
Lemma crossings_left px py lo : forall vs vj,
  px < lo -> (forall v, In v (vj :: vs) -> lo <= x v) ->
  crossings px py (edgesFrom vj vs) =
  xorb (Qgtb (y vj) py) (Qgtb (y (last vs vj)) py).
Proof.
  intros vs vj Hpx. revert vj.
  induction vs as [|vi rest IH]; intros vj Hlo.
  - simpl. now rewrite xorb_nilpotent.
  - rewrite last_cons. cbn [edgesFrom crossings fold_right fst snd].
    change (fold_right _ false (edgesFrom vi rest))
      with (crossings px py (edgesFrom vi rest)).
    rewrite IH by (intros v Hv; apply Hlo; now right).
    assert (Hi : intersect px py vi vj =
                 xorb (Qgtb (y vi) py) (Qgtb (y vj) py)).
    { unfold intersect.
      destruct (xorb (Qgtb (y vi) py) (Qgtb (y vj) py)) eqn:E;
        [simpl | reflexivity].
      apply Qltb_lt.
      destruct (straddle_between py (x vi) (y vi) (x vj) (y vj) lo
                  (Qmax (x vi) (x vj)) E) as (H1 & _).
      - apply Hlo. right. now left.
      - apply Hlo. now left.
      - apply Q.le_max_l.
      - apply Q.le_max_r.
      - lra. }
    rewrite Hi.
    destruct (Qgtb (y vi) py), (Qgtb (y vj) py),
      (Qgtb (y (last rest vi)) py); reflexivity.
Qed.

Lemma last_In {A : Type} (a d : A) l : In (last (a :: l) d) (a :: l).
Proof.
  destruct (exists_last (l := a :: l)) as (l' & z & E); [discriminate|].
  rewrite E, last_last. apply in_or_app. right. now left.
Qed.

Lemma closedEdges_vertex v0 rest u v :
  In (u, v) (closedEdges (v0 :: rest)) ->
  In u (v0 :: rest) /\ In v (v0 :: rest).
Proof.
  unfold closedEdges. intros He. apply edgesFrom_In in He.
  pose proof (last_In v0 v0 rest) as Hl.
  destruct He as ([<-|Hu] & [<-|Hv]); auto.
Qed.

Section OutsideBounds.

Variable p v0 : Point.
Variable rest : list Point.

Local Abbreviation box := (boundsOf v0 rest).
Local Abbreviation edges := (closedEdges (v0 :: rest)).

Lemma crossings_left_of_box :
  x p < minX box -> crossings (x p) (y p) edges = false.
Proof.
  intros Hl. unfold closedEdges.
  rewrite (crossings_left _ _ (minX box)); [|exact Hl|].
  - rewrite (last_nonempty (last (v0 :: rest) v0) v0 (v0 :: rest))
      by discriminate.
    apply xorb_nilpotent.
  - intros v [<-|Hv]; [apply boundsOf_vertex, last_In|];
      now apply boundsOf_vertex.
Qed.

Lemma crossings_right_of_box :
  maxX box <= x p -> crossings (x p) (y p) edges = false.
Proof.
  intros Hr. apply crossings_none. intros [u v] He.
  apply closedEdges_vertex in He. destruct He as (Hu & Hv).
  cbn [fst snd]. unfold intersect.
  destruct (xorb (Qgtb (y u) (y p)) (Qgtb (y v) (y p))) eqn:E;
    [simpl | reflexivity].
  apply Qltb_ge.
  destruct (straddle_between (y p) (x u) (y u) (x v) (y v)
              (Qmin (x u) (x v)) (maxX box) E) as (_ & H2).
  - apply Q.le_min_l.
  - apply Q.le_min_r.
  - now apply boundsOf_vertex.
  - now apply boundsOf_vertex.
  - lra.
Qed.

Lemma crossings_above_box :
  y p < minY box -> crossings (x p) (y p) edges = false.
Proof.
  intros Ha. apply crossings_none. intros [u v] He.
  apply closedEdges_vertex in He. destruct He as (Hu & Hv).
  cbn [fst snd]. unfold intersect, Qgtb.
  assert (Eu : Qltb (y p) (y u) = true).
  { apply Qltb_lt. destruct (boundsOf_vertex v0 rest u Hu) as (_ & H & _).
    lra. }
  assert (Ev : Qltb (y p) (y v) = true).
  { apply Qltb_lt. destruct (boundsOf_vertex v0 rest v Hv) as (_ & H & _).
    lra. }
  now rewrite Eu, Ev.
Qed.

Lemma crossings_below_box :
  maxY box <= y p -> crossings (x p) (y p) edges = false.
Proof.
  intros Hb. apply crossings_none. intros [u v] He.
  apply closedEdges_vertex in He. destruct He as (Hu & Hv).
  cbn [fst snd]. unfold intersect, Qgtb.
  assert (Eu : Qltb (y p) (y u) = false).
  { apply Qltb_ge. destruct (boundsOf_vertex v0 rest u Hu) as (_ & _ & H).
    lra. }
  assert (Ev : Qltb (y p) (y v) = false).
  { apply Qltb_ge. destruct (boundsOf_vertex v0 rest v Hv) as (_ & _ & H).
    lra. }
  now rewrite Eu, Ev.
Qed.

End OutsideBounds.



(** A point reported inside lies in the bounding box. *)
Lemma isPointInPolygon_within p v0 rest :
  isPointInPolygon p (v0 :: rest) = true ->
  withinBounds (boundsOf v0 rest) p.
Proof.
  rewrite isPointInPolygon_crossings. intros Hin. unfold withinBounds.
  destruct (Qlt_le_dec (x p) (minX (boundsOf v0 rest))) as [H1|H1];
    [rewrite crossings_left_of_box in Hin; [discriminate | exact H1]|].
  destruct (Qlt_le_dec (x p) (maxX (boundsOf v0 rest))) as [H2|H2];
    [|rewrite crossings_right_of_box in Hin; [discriminate | exact H2]].
  destruct (Qlt_le_dec (y p) (minY (boundsOf v0 rest))) as [H3|H3];
    [rewrite crossings_above_box in Hin; [discriminate | exact H3]|].
  destruct (Qlt_le_dec (y p) (maxY (boundsOf v0 rest))) as [H4|H4];
    [|rewrite crossings_below_box in Hin; [discriminate | exact H4]].
  tauto.
Qed.



(** ** Holes between the sample points *)

Lemma outside_not_within b p : outsideBounds b p -> ~ withinBounds b p.
Proof.
  unfold outsideBounds, withinBounds.
  intros [H|[H|[H|H]]] ((H1 & H2) & (H3 & H4)); lra.
Qed.



(** ** The margin at the left and at the top *)

Section Margin.

Variable ids : nat -> string.
Variable polygon : list Point.
Variable holes : list (list Point).
Variable scale : Q.
Variable furnitureTypes : list FurnitureSet.
Variable bounds : Bounds.
Variable pxAisleGap : Q.
Variable left top : Q.

Hypothesis scale_pos : 0 < scale.
Hypothesis gap_nonneg : 0 <= pxAisleGap.
Hypothesis widths : forall f,
  In f furnitureTypes -> enabled f <> Some false ->
  0 <= tableWidth f * scale + 50 * scale.

Local Abbreviation inset := (fun a : PlacedItem =>
  left <= item_x a /\ top <= item_y a).

Lemma columnLoop_inset fuel : forall cy cx st st',
  columnLoop ids polygon holes scale furnitureTypes bounds fuel cy cx st
    = Some st' ->
  left <= cx -> top <= cy ->
  Forall inset (items st) -> Forall inset (items st').
Proof.
  induction fuel as [|fuel IH]; intros cy cx st st'; simpl; [discriminate|].
  destruct (Qltb cx (maxX bounds)); [|now intros [= <-]].
  destruct (firstFit polygon holes scale cx cy furnitureTypes)
    as [[[f w] t]|] eqn:F; intros Hrun Hx Hy Hst.
  - destruct (firstFit_Some _ _ _ _ _ _ _ _ _ F) as (Hin & Hen & -> & _).
    specialize (widths f Hin Hen).
    apply IH in Hrun; auto; [lra|]. simpl.
    apply Forall_app. split; [exact Hst|]. constructor; [|constructor].
    simpl. split; assumption.
  - apply IH in Hrun; auto. lra.
Qed.

Lemma rowLoop_inset fuel : forall cy acc n res,
  rowLoop ids polygon holes scale furnitureTypes bounds pxAisleGap fuel cy
    acc n = Some res ->
  left <= minX bounds + pxAisleGap -> top <= cy ->
  Forall inset acc -> Forall inset res.
Proof.
  induction fuel as [|fuel IH]; intros cy acc n res; simpl; [discriminate|].
  destruct (Qltb cy (maxY bounds)); [|now intros [= <-]].
  destruct (columnLoop ids polygon holes scale furnitureTypes bounds fuel cy
              _ _) as [st|] eqn:E; [|discriminate].
  intros Hrun Hx Hy Hacc.
  apply columnLoop_inset in E; auto.
  destruct (Qltb 0 (rowHeight st)) eqn:Eh; qbool;
    apply IH in Hrun; auto; lra.
Qed.

End Margin.

(** X12.  With a positive scale, a non-negative aisle gap and enabled
    catalog entries at least -50 mm wide, every returned item starts at
    least the scaled aisle gap right of the smallest x and below the
    smallest y of the room's vertices. *)
Theorem generateLayout_margin :
  forall fuel ids p0 rest holes scale pattern furnitureTypes aisleGap res it,
    0 < scale -> 0 <= aisleGap ->
    (forall f, In f furnitureTypes -> enabled f <> Some false ->
               - (50) <= tableWidth f) ->
    generateLayout fuel ids (p0 :: rest) holes scale pattern furnitureTypes
      aisleGap = Some res ->
    In it res ->
    minX (boundsOf p0 rest) + aisleGap * scale <= item_x it /\
    minY (boundsOf p0 rest) + aisleGap * scale <= item_y it.
Proof.
  intros fuel ids p0 rest holes scale pattern fts gap res it Hs Hgap Hw Hrun
    Hin.
  unfold generateLayout in Hrun.
  apply (rowLoop_inset ids (p0 :: rest) holes scale fts (boundsOf p0 rest)
           (gap * scale) (minX (boundsOf p0 rest) + gap * scale)
           (minY (boundsOf p0 rest) + gap * scale)) in Hrun.
  - rewrite Forall_forall in Hrun. exact (Hrun it Hin).
  - exact Hs.
  - nra.
  - intros f Hf Hen. specialize (Hw f Hf Hen). nra.
  - apply Qle_refl.
  - apply Qle_refl.
  - constructor.
Qed.

Lemma generateLayout_margin_witness :
  minX (boundsOf (mkPoint 0 0)
          [mkPoint 6000 0; mkPoint 6000 6000; mkPoint 0 6000]) + 1300 * 1 <=
    item_x (mkPlacedItem "" 3800 3650 0 type3) /\
  minY (boundsOf (mkPoint 0 0)
          [mkPoint 6000 0; mkPoint 6000 6000; mkPoint 0 6000]) + 1300 * 1 <=
    item_y (mkPlacedItem "" 3800 3650 0 type3).
Proof.
  apply (generateLayout_margin 64 noIds (mkPoint 0 0)
           [mkPoint 6000 0; mkPoint 6000 6000; mkPoint 0 6000] [] 1 standard
           [type3] 1300
           [mkPlacedItem "" 1300 1300 0 type3;
            mkPlacedItem "" 2550 1300 0 type3;
            mkPlacedItem "" 3800 1300 0 type3;
            mkPlacedItem "" 1300 3650 0 type3;
            mkPlacedItem "" 2550 3650 0 type3;
            mkPlacedItem "" 3800 3650 0 type3]).
  - reflexivity.
  - discriminate.
  - intros f [<-|[]] _. discriminate.
  - vm_compute. reflexivity.
  - simpl. tauto.
Defined.

(** * Further properties of the rectilinear normalizer *)

(** ** What a value can become *)

Lemma groupsOf_In t values g u :
  In g (groupsOf t values) -> In u g -> In u values.
Proof.
  intros Hg Hu. destruct (groupsOf_partition t values) as (Hcat & _ & _).
  apply (Permutation_in u (sortAsc_perm values)). rewrite <- Hcat.
  apply in_concat. eauto.
Qed.

Lemma groupsOf_ascending t values g :
  In g (groupsOf t values) -> ascending g.
Proof.
  intros Hg. destruct (groupsOf_partition t values) as (Hcat & _ & _).
  pose proof (sortAsc_ascending values) as Hasc. rewrite <- Hcat in Hasc.
  apply ascending_groups in Hasc. rewrite Forall_forall in Hasc. auto.
Qed.

Lemma snapValues_In values t o :
  In o (snapValues values t) ->
  exists v, In v values /\
            o = getOr (buildValueMap (groupsOf t values)) v.
Proof.
  rewrite snapValues_groupsOf, in_map_iff. intros (v & <- & Hv). eauto.
Qed.

Lemma snapValues_nth values t i v o :
  nth_error values i = Some v ->
  nth_error (snapValues values t) i = Some o ->
  o = getOr (buildValueMap (groupsOf t values)) v.
Proof.
  rewrite snapValues_groupsOf. intros Hv Ho.
  rewrite (map_nth_error _ _ _ Hv) in Ho. congruence.
Qed.

(** With a threshold that is not positive every chain holds one number. *)
Lemma chained_flat t g :
  t <= 0 -> chained t g -> forall u v, In u g -> In v g -> u == v.
Proof.
  intros Ht Hch.
  assert (Hhead : forall a l, chained t (a :: l) ->
                    forall u, In u (a :: l) -> u == a).
  { intros a l. revert a. induction l as [|b l IH]; intros a H u Hu.
    - destruct Hu as [<-|[]]. reflexivity.
    - inversion H as [|? ? ? Hab Hrest]; subst.
      assert (Eab : b == a).
      { pose proof (Qabs_nonneg (b - a)) as H0.
        assert (Habs : Qabs (b - a) <= 0) by lra.
        apply Qabs_Qle_condition in Habs. lra. }
      destruct Hu as [<-|Hu]; [reflexivity|].
      rewrite (IH b Hrest u Hu). exact Eab. }
  destruct g as [|a l]; [intros u v []|].
  intros u v Hu Hv.
  now rewrite (Hhead a l Hch u Hu), (Hhead a l Hch v Hv).
Qed.

Lemma mean_flat g c : g <> [] -> (forall u, In u g -> u == c) -> mean g == c.
Proof.
  intros Hne Hall.
  destruct (mean_bounds c c g Hne) as (H1 & H2); [|lra].
  intros u Hu. specialize (Hall u Hu). lra.
Qed.

Lemma mapGet_flat k gs :
  Forall (fun g => g <> [] /\ forall u v, In u g -> In v g -> u == v) gs ->
  forall m,
    (forall a, mapGet k m = Some a -> a == k) ->
    forall a, mapGet k (fold_left setGroup gs m) = Some a -> a == k.
Proof.
  induction 1 as [|g gs (Hne & Hflat) _ IH]; intros m Hm; [exact Hm|].
  cbn [fold_left]. apply IH. intros a. rewrite mapGet_setGroup.
  destruct (memQ k g) eqn:E; [|apply Hm].
  intros [= <-]. rewrite average_mean.
  apply existsb_exists in E. destruct E as (u & Hu & Euk).
  apply Qeq_bool_iff in Euk. rewrite <- Euk.
  apply mean_flat; [exact Hne|]. intros v Hv. now apply Hflat.
Qed.

Lemma getOr_nonpositive t values v :
  t <= 0 -> getOr (buildValueMap (groupsOf t values)) v == v.
Proof.
  intros Ht. unfold getOr.
  destruct (mapGet v (buildValueMap (groupsOf t values))) as [a|] eqn:E;
    [|reflexivity].
  destruct (Qeq_bool a 0); [reflexivity|].
  unfold buildValueMap in E. revert E. apply mapGet_flat.
  - destruct (groupsOf_partition t values) as (_ & Hch & _).
    eapply Forall_impl; [|exact Hch]. intros g Hg. simpl. split.
    + now apply chained_nonempty in Hg.
    + now apply (chained_flat t).
  - discriminate.
Qed.

Lemma snapValues_nonpositive values t :
  t <= 0 -> Forall2 Qeq (snapValues values t) values.
Proof.
  intros Ht. rewrite snapValues_groupsOf. apply Forall2_map_self.
  intros v _. now apply getOr_nonpositive.
Qed.

(** A value stays between the ends of its chain, which are values of the
    input. *)
Lemma getOr_between t values v :
  In v values ->
  exists a z, In a values /\ In z values /\
    a <= getOr (buildValueMap (groupsOf t values)) v <= z.
Proof.
  intros Hv. destruct (Qlt_le_dec t 0) as [Hneg|Hpos].
  - exists v, v. rewrite getOr_nonpositive by lra. repeat split; auto; lra.
  - destruct (groupsOf_member t values v Hv) as (g & Hg & Hvg).
    rewrite (getOr_groupsOf t values g v Hpos Hg Hvg).
    pose proof (groupsOf_ascending t values g Hg) as Hasc.
    destruct g as [|a l]; [destruct Hvg|].
    exists a, (last (a :: l) 0). repeat split.
    + apply (groupsOf_In t values (a :: l)); [exact Hg | now left].
    + apply (groupsOf_In t values (a :: l)); [exact Hg | apply In_last].
    + now apply snapIn_bounds.
    + now apply snapIn_bounds.
Qed.

Lemma snapValues_range values t lo hi :
  (forall v, In v values -> lo <= v <= hi) ->
  forall o, In o (snapValues values t) -> lo <= o <= hi.
Proof.
  intros Hbox o Ho. apply snapValues_In in Ho. destruct Ho as (v & Hv & ->).
  destruct (getOr_between t values v Hv) as (a & z & Ha & Hz & H1 & H2).
  specialize (Hbox a Ha) as Hba. specialize (Hbox z Hz) as Hbz. lra.
Qed.





(** ** The order of the values *)

Lemma snapIn_monotone g u v : u <= v -> snapIn g u <= snapIn g v.
Proof.
  intros Huv. unfold snapIn.
  destruct (Qeq_bool (average g) 0); [exact Huv | apply Qle_refl].
Qed.

Lemma getOr_monotone t values u v :
  In u values -> In v values -> u <= v ->
  getOr (buildValueMap (groupsOf t values)) u <=
  getOr (buildValueMap (groupsOf t values)) v.
Proof.
  intros Hu Hv Huv. destruct (Qlt_le_dec t 0) as [Hneg|Hpos].
  - rewrite !getOr_nonpositive by lra. exact Huv.
  - destruct (groupsOf_member t values u Hu) as (g & Hg & Hug).
    destruct (groupsOf_member t values v Hv) as (g' & Hg' & Hvg').
    rewrite (getOr_groupsOf t values g u Hpos Hg Hug).
    rewrite (getOr_groupsOf t values g' v Hpos Hg' Hvg').
    pose proof (groupsOf_ascending t values g Hg) as Hasc.
    pose proof (groupsOf_ascending t values g' Hg') as Hasc'.
    destruct (ForallOrdPairs_In (groupsOf_below t values Hpos) g g' Hg Hg')
      as [<-|[Hb|Hb]].
    + now apply snapIn_monotone.
    + destruct g as [|a l]; [destruct Hug|].
      destruct g' as [|a' l']; [destruct Hvg'|].
      destruct (snapIn_bounds a l u Hasc Hug) as (_ & H1).
      destruct (snapIn_bounds a' l' v Hasc' Hvg') as (H2 & _).
      assert (H3 : last (a :: l) 0 < a')
        by (apply Hb; [apply In_last | now left]).
      lra.
    + specialize (Hb v u Hvg' Hug). lra.
Qed.

Lemma snapValues_monotone values t i j u v o o' :
  nth_error values i = Some u -> nth_error values j = Some v ->
  nth_error (snapValues values t) i = Some o ->
  nth_error (snapValues values t) j = Some o' ->
  u <= v -> o <= o'.
Proof.
  intros Hu Hv Ho Ho' Huv.
  rewrite (snapValues_nth values t i u o Hu Ho).
  rewrite (snapValues_nth values t j v o' Hv Ho').
  apply getOr_monotone; auto; eapply nth_error_In; eauto.
Qed.



(** ** Values within the threshold of each other *)

Lemma partition_apart t gs :
  0 <= t -> Forall (chained t) gs -> separated t gs ->
  ascending (concat gs) -> ForallOrdPairs (apart t) gs.
Proof.
  intros Ht. induction gs as [|g gs IH]; intros Hch Hs Hasc; [constructor|].
  inversion Hch as [|? ? Hg Hch']; subst. simpl in Hasc.
  destruct (ascending_app _ _ Hasc) as [Hag Hags].
  constructor; [|apply IH; auto; now apply separated_tail in Hs].
  inversion Hs as [| |g' a g2 more Hgap Hs' E1]; subst; [constructor|].
  destruct g as [|c g0]; [now apply chained_nonempty in Hg|].
  assert (Hla : last (c :: g0) 0 <= a).
  { apply (ascending_app_le _ _ Hasc); [apply In_last | now left]. }
  assert (Hlt : last (c :: g0) 0 + t < a).
  { destruct (Qle_lt_or_eq _ _ Hla) as [Hlt|Heq].
    - rewrite Qabs_pos in Hgap by lra. lra.
    - rewrite Qabs_pos in Hgap by lra. lra. }
  apply Forall_forall. intros g' Hg' u v Hu Hv.
  pose proof (ascending_le_last _ _ Hag u Hu) as Hul.
  assert (Hav : a <= v).
  { assert (Hin : In v (concat ((a :: g2) :: more)))
      by (apply in_concat; eauto).
    simpl in Hin. destruct Hin as [<-|Hin]; [lra|].
    now apply (ascending_head_le _ _ Hags). }
  lra.
Qed.

(** Two values at most [t] apart belong to the same chain. *)
Lemma groupsOf_same_chain t values u v :
  0 <= t -> In u values -> In v values -> Qabs (u - v) <= t ->
  exists g, In g (groupsOf t values) /\ In u g /\ In v g.
Proof.
  intros Ht Hu Hv Huv.
  destruct (groupsOf_member t values u Hu) as (g & Hg & Hug).
  destruct (groupsOf_member t values v Hv) as (g' & Hg' & Hvg').
  destruct (groupsOf_partition t values) as (Hcat & Hch & Hs).
  assert (Hap : ForallOrdPairs (apart t) (groupsOf t values)).
  { apply partition_apart; auto. rewrite Hcat. apply sortAsc_ascending. }
  apply Qabs_Qle_condition in Huv.
  destruct (ForallOrdPairs_In Hap g g' Hg Hg') as [<-|[Hb|Hb]].
  - eauto.
  - specialize (Hb u v Hug Hvg'). lra.
  - specialize (Hb v u Hvg' Hug). lra.
Qed.

Lemma getOr_merges t values u v :
  0 <= t -> In u values -> In v values -> Qabs (u - v) <= t ->
  getOr (buildValueMap (groupsOf t values)) u ==
    getOr (buildValueMap (groupsOf t values)) v \/
  (getOr (buildValueMap (groupsOf t values)) u = u /\
   getOr (buildValueMap (groupsOf t values)) v = v).
Proof.
  intros Ht Hu Hv Huv.
  destruct (groupsOf_same_chain t values u v Ht Hu Hv Huv)
    as (g & Hg & Hug & Hvg).
  rewrite (getOr_groupsOf t values g u Ht Hg Hug).
  rewrite (getOr_groupsOf t values g v Ht Hg Hvg).
  unfold snapIn. destruct (Qeq_bool (average g) 0); [right | left];
    split; reflexivity.
Qed.



(** * Properties of the callers in the application *)

(** ** The catalog state *)

Lemma setPrice_fields id0 price t :
  id (setPrice id0 price t) = id t /\ name (setPrice id0 price t) = name t /\
  tableWidth (setPrice id0 price t) = tableWidth t /\
  tableDepth (setPrice id0 price t) = tableDepth t /\
  enabled (setPrice id0 price t) = enabled t.
Proof. unfold setPrice. destruct (String.eqb (id t) id0); now simpl. Qed.

Lemma toggle_fields id0 t :
  id (toggle id0 t) = id t /\ name (toggle id0 t) = name t /\
  tableWidth (toggle id0 t) = tableWidth t /\
  tableDepth (toggle id0 t) = tableDepth t /\
  unitPrice (toggle id0 t) = unitPrice t.
Proof. unfold toggle. destruct (String.eqb (id t) id0); now simpl. Qed.

(** The two handlers never change the identifiers, the names and the table
    sizes of the catalog. *)
Lemma catalogOfApp_shape fts :
  catalogOfApp fts ->
  map (fun t => (id t, name t, tableWidth t, tableDepth t)) fts =
  map (fun t => (id t, name t, tableWidth t, tableDepth t)) FURNITURE_TYPES.
Proof.
  induction 1 as [|fts id0 price _ IH|fts id0 _ IH]; [reflexivity| |].
  - rewrite <- IH. unfold handlePriceChange. rewrite map_map.
    apply map_ext. intros t.
    destruct (setPrice_fields id0 price t) as (-> & -> & -> & -> & _).
    reflexivity.
  - rewrite <- IH. unfold handleToggleType. rewrite map_map.
    apply map_ext. intros t.
    destruct (toggle_fields id0 t) as (-> & -> & -> & -> & _).
    reflexivity.
Qed.

Lemma catalogOfApp_widths fts f :
  catalogOfApp fts -> In f fts -> - (50) < tableWidth f.
Proof.
  intros Hc Hf. apply catalogOfApp_shape in Hc.
  apply (in_map (fun t => (id t, name t, tableWidth t, tableDepth t))) in Hf.
  rewrite Hc in Hf. simpl in Hf.
  destruct Hf as [E|[E|[E|[]]]]; injection E as _ _ <- _; reflexivity.
Qed.

(** ** Cost and counts *)

Lemma countsGet_countsSet k k' v c :
  countsGet k (countsSet k' v c) =
  if String.eqb k' k then Some v else countsGet k c.
Proof.
  induction c as [|[k1 v1] c IH]; cbn [countsSet countsGet]; [reflexivity|].
  destruct (String.eqb k1 k') eqn:E1; cbn [countsGet].
  - apply String.eqb_eq in E1. subst k1.
    now destruct (String.eqb k' k).
  - rewrite IH. destruct (String.eqb k1 k) eqn:E2; [|reflexivity].
    apply String.eqb_eq in E2. subst k1.
    now rewrite String.eqb_sym, E1.
Qed.

Lemma orZero_Some v : orZero (Some v) == v.
Proof.
  unfold orZero. destruct (Qeq_bool v 0) eqn:E; [|reflexivity].
  apply Qeq_bool_iff in E. now rewrite E.
Qed.

Lemma itemsNamed_cons n it l :
  itemsNamed n (it :: l) ==
  (if String.eqb (name (type it)) n then 1 else 0) + itemsNamed n l.
Proof.
  unfold itemsNamed. cbn [filter].
  destruct (String.eqb (name (type it)) n); [|ring].
  cbn [length]. rewrite Nat2Z.inj_succ, <- Z.add_1_l, inject_Z_plus.
  reflexivity.
Qed.

Lemma itemsNamed_nonneg n l : 0 <= itemsNamed n l.
Proof.
  unfold itemsNamed. change 0 with (inject_Z 0). rewrite <- Zle_Qle. lia.
Qed.

Lemma tally_cost l : forall acc,
  fst (fold_left tallyStep l acc) ==
  fst acc + sumQ (map (fun i => unitPrice (type i)) l).
Proof.
  induction l as [|it l IH]; intros acc; cbn [fold_left map sumQ fold_right].
  - ring.
  - rewrite IH. cbn [tallyStep fst].
    fold (sumQ (map (fun i => unitPrice (type i)) l)). ring.
Qed.

Lemma tally_counts n l : forall acc,
  orZero (countsGet n (snd (fold_left tallyStep l acc))) ==
    orZero (countsGet n (snd acc)) + itemsNamed n l /\
  (countsGet n (snd (fold_left tallyStep l acc)) = None <->
   countsGet n (snd acc) = None /\ itemsNamed n l == 0).
Proof.
  induction l as [|it l IH]; intros acc; cbn [fold_left].
  - split; [unfold itemsNamed; simpl; ring|].
    split; [intros H; split; [exact H | reflexivity] | tauto].
  - destruct (IH (tallyStep acc it)) as (H1 & H2).
    rewrite H1, H2, itemsNamed_cons. cbn [tallyStep snd].
    rewrite countsGet_countsSet.
    pose proof (itemsNamed_nonneg n l) as Hnn.
    destruct (String.eqb (name (type it)) n) eqn:E.
    + apply String.eqb_eq in E. rewrite E. split.
      * rewrite orZero_Some. ring.
      * split; [intros [H _]; discriminate | intros [_ H]; lra].
    + split; [ring|]. split; intros [H H']; split; auto; lra.
Qed.

(** X17.  The totals [handleGenerateLayout] computes for a layout: the
    cost is the sum of the unit prices of the items, and [counts] binds a
    name exactly when some item carries it, to the number of those
    items. *)
Theorem tally_totals :
  forall (generatedItems : list PlacedItem) (n : string),
    fst (tally generatedItems) ==
      sumQ (map (fun i => unitPrice (type i)) generatedItems) /\
    match countsGet n (snd (tally generatedItems)) with
    | Some c => c == itemsNamed n generatedItems /\ 0 < c
    | None => itemsNamed n generatedItems == 0
    end.
Proof.
  intros l n. unfold tally. split.
  - rewrite tally_cost. cbn [fst]. ring.
  - destruct (tally_counts n l (0, [])) as (H1 & H2). cbn [snd countsGet] in *.
    destruct (countsGet n (snd (fold_left tallyStep l (0, [])))) as [c|].
    + rewrite orZero_Some in H1. cbn [orZero] in H1.
      assert (Hc : c == itemsNamed n l) by (rewrite H1; ring).
      split; [exact Hc|].
      pose proof (itemsNamed_nonneg n l) as Hnn.
      destruct (Qlt_le_dec 0 c) as [Hpos|Hneg]; [exact Hpos|].
      assert (H0 : itemsNamed n l == 0) by lra.
      destruct H2 as [_ H2]. discriminate H2. split; [reflexivity | exact H0].
    + now apply H2.
Qed.

(** ** The estimate table *)

Lemma rowsTotal_cons items k v c :
  rowsTotal items ((k, v) :: c) ==
  match find (fun i => String.eqb (name (type i)) k) items with
  | Some item => unitPrice (type item) * v
  | None => 0
  end + rowsTotal items c.
Proof.
  unfold rowsTotal, tableRows. cbn [map filterBoolean].
  unfold tableRow at 1. cbn [fst snd].
  destruct (find (fun i => String.eqb (name (type i)) k) items) as [item|];
    cbn [filterBoolean map sumQ fold_right subtotal]; [reflexivity | ring].
Qed.

(** Counting one more item of a name adds its price to the table, when
    all the items of that name have that price. *)
Lemma rowsTotal_countsSet items it :
  In it items ->
  (forall i, In i items -> name (type i) = name (type it) ->
             unitPrice (type i) == unitPrice (type it)) ->
  forall c,
    rowsTotal items
      (countsSet (name (type it))
         (orZero (countsGet (name (type it)) c) + 1) c) ==
    rowsTotal items c + unitPrice (type it).
Proof.
  intros Hit Hprice.
  assert (Hfind : exists item,
            find (fun i => String.eqb (name (type i)) (name (type it))) items
              = Some item /\ unitPrice (type item) == unitPrice (type it)).
  { destruct (find (fun i => String.eqb (name (type i)) (name (type it)))
                items) as [item|] eqn:F.
    - exists item. split; [reflexivity|].
      apply find_some in F. destruct F as (Hin & E).
      apply String.eqb_eq in E. now apply Hprice.
    - apply (find_none _ _ F) in Hit. now rewrite String.eqb_refl in Hit. }
  destruct Hfind as (item & F & Ep).
  induction c as [|[k v] c IH]; cbn [countsSet countsGet].
  - rewrite rowsTotal_cons, F. unfold rowsTotal, tableRows. simpl.
    rewrite Ep. ring.
  - destruct (String.eqb k (name (type it))) eqn:E.
    + apply String.eqb_eq in E. subst k.
      rewrite !rowsTotal_cons, F, orZero_Some, Ep. ring.
    + rewrite !rowsTotal_cons, IH. ring.
Qed.

Lemma rowsTotal_tally items :
  (forall i j, In i items -> In j items -> name (type i) = name (type j) ->
               unitPrice (type i) == unitPrice (type j)) ->
  forall l acc,
    (forall it, In it l -> In it items) ->
    rowsTotal items (snd (fold_left tallyStep l acc)) -
      fst (fold_left tallyStep l acc) ==
    rowsTotal items (snd acc) - fst acc.
Proof.
  intros Hprice. induction l as [|it l IH]; intros acc Hl; cbn [fold_left].
  - reflexivity.
  - rewrite IH by (intros i Hi; apply Hl; now right).
    cbn [tallyStep fst snd].
    rewrite (rowsTotal_countsSet items it).
    + ring.
    + apply Hl. now left.
    + intros i Hi E. apply Hprice; auto. apply Hl. now left.
Qed.

Lemma NoDup_map_eq {A B : Type} (f : A -> B) l a b :
  NoDup (map f l) -> In a l -> In b l -> f a = f b -> a = b.
Proof.
  induction l as [|c l IH]; intros Hnd Ha Hb E; [destruct Ha|].
  simpl in Hnd. inversion Hnd as [|? ? Hnot Hnd']; subst.
  destruct Ha as [<-|Ha], Hb as [<-|Hb]; auto.
  - exfalso. apply Hnot. rewrite E. now apply in_map.
  - exfalso. apply Hnot. rewrite <- E. now apply in_map.
Qed.

(** X18.  When the names of the catalog are pairwise different, the
    amounts of the estimate table add up to the cost stored with the
    layout: the rows built from [counts] and the items of a result of
    [generateLayout] sum to its [cost]. *)
Theorem estimate_rows_add_up :
  forall fuel ids polygon holes scale pattern furnitureTypes aisleGap res,
    NoDup (map name furnitureTypes) ->
    generateLayout fuel ids polygon holes scale pattern furnitureTypes
      aisleGap = Some res ->
    rowsTotal (result_items (resultOf res)) (result_counts (resultOf res)) ==
    result_cost (resultOf res).
Proof.
  intros fuel ids polygon holes scale pattern fts gap res Hnd Hrun.
  assert (Hall : Forall (emitted polygon holes scale fts) res).
  { unfold generateLayout in Hrun. destruct polygon as [|p0 rest].
    - injection Hrun as <-. constructor.
    - eapply rowLoop_emitted; [|exact Hrun]. constructor. }
  rewrite Forall_forall in Hall.
  unfold resultOf, tally. cbn [result_items result_cost result_counts].
  assert (Hprice : forall i j, In i res -> In j res ->
            name (type i) = name (type j) ->
            unitPrice (type i) == unitPrice (type j)).
  { intros i j Hi Hj E.
    rewrite (NoDup_map_eq name fts (type i) (type j) Hnd
               (proj1 (Hall i Hi)) (proj1 (Hall j Hj)) E).
    reflexivity. }
  pose proof (rowsTotal_tally res Hprice res (0, []) (fun it Hit => Hit))
    as H.
  cbn [fst snd] in H. unfold rowsTotal at 2 in H. simpl in H. lra.
Qed.

Lemma estimate_rows_add_up_witness :
  rowsTotal (result_items (resultOf mixedLayout))
    (result_counts (resultOf mixedLayout)) ==
  result_cost (resultOf mixedLayout).
Proof.
  apply (estimate_rows_add_up 64 noIds (rectRoom 0 0 6300 6000) [] 1 standard
           FURNITURE_TYPES 1300).
  - simpl. repeat constructor; simpl; intuition discriminate.
  - vm_compute. reflexivity.
Defined.

(** ** The handler that generates the three layouts *)

Lemma activeTypes_In fts f : In f (activeTypes fts) -> In f fts.
Proof. unfold activeTypes. intros H. now apply filter_In in H. Qed.

Lemma generateFor_total ids polygon holes scale fts p :
  catalogOfApp fts -> 0 < scale ->
  exists fuel res,
    forall fuel', (fuel <= fuel')%nat ->
      generateFor fuel' ids polygon holes scale (activeTypes fts) p =
      Some (resultOf res).
Proof.
  intros Hc Hs.
  destruct (generateLayout_total ids polygon holes scale p (activeTypes fts)
              (PATTERN_CONFIG.aisleGap p) Hs) as (fuel & res & Hrun).
  - destruct p; discriminate.
  - intros f Hf _. apply (catalogOfApp_widths fts); [exact Hc|].
    now apply activeTypes_In.
  - exists fuel, res. intros fuel' Hle. unfold generateFor.
    now rewrite (generateLayout_fuel_mono fuel fuel' _ _ _ _ _ _ _ res Hle
                   Hrun).
Qed.





(** ** Editing the catalog *)

Lemma setPrice_keepsFootprint id0 price : keepsFootprint (setPrice id0 price).
Proof.
  intros t. destruct (setPrice_fields id0 price t) as (_ & _ & -> & -> & ->).
  tauto.
Qed.

(** X21.  Changing a unit price moves no furniture: the layout for the
    catalog after [handlePriceChange] has the items of the layout before
    it, at the same positions and with the same identifiers, each carrying
    its entry with the price changed where the identifier matches. *)
Theorem generateLayout_handlePriceChange :
  forall fuel ids polygon holes scale pattern furnitureTypes aisleGap id0
         price,
    generateLayout fuel ids polygon holes scale pattern
      (handlePriceChange furnitureTypes id0 price) aisleGap =
    option_map (map (retype (setPrice id0 price)))
      (generateLayout fuel ids polygon holes scale pattern furnitureTypes
         aisleGap).
Proof.
  intros fuel ids polygon holes scale pattern fts gap id0 price.
  unfold generateLayout, handlePriceChange.
  destruct polygon as [|p0 rest]; [reflexivity|].
  apply (rowLoop_retype (setPrice id0 price) ids (p0 :: rest) holes scale fts
           (boundsOf p0 rest) (gap * scale) fuel
           (setPrice_keepsFootprint id0 price) _ [] 0%nat).
Qed.

(** X22.  On entries that carry no [enabled] flag, as those of
    [FURNITURE_TYPES], the first call of [handleToggleType] switches
    nothing off: [!undefined] is [true], and the entry stays active.  Only
    the second call switches the entries of that identifier off. *)
Theorem handleToggleType_first_and_second :
  forall (furnitureTypes : list FurnitureSet) (id0 : string),
    (forall t, In t furnitureTypes -> id t = id0 -> enabled t = None) ->
    map isActive (handleToggleType furnitureTypes id0) =
      map isActive furnitureTypes /\
    (forall t,
       In t (handleToggleType (handleToggleType furnitureTypes id0) id0) ->
       id t = id0 -> isActive t = false).
Proof.
  intros fts id0 Hnone. unfold handleToggleType. split.
  - rewrite map_map. apply map_ext_in. intros t Ht.
    unfold toggle. destruct (String.eqb (id t) id0) eqn:E; [|reflexivity].
    apply String.eqb_eq in E. unfold isActive.
    now rewrite (Hnone t Ht E).
  - intros t Ht Hid. rewrite map_map in Ht. apply in_map_iff in Ht.
    destruct Ht as (t0 & <- & Ht0).
    assert (E : String.eqb (id t0) id0 = true).
    { apply String.eqb_eq. unfold toggle in Hid.
      destruct (String.eqb (id t0) id0) eqn:E0.
      - now apply String.eqb_eq in E0.
      - rewrite E0 in Hid. exact Hid. }
    apply String.eqb_eq in E as Eid.
    unfold toggle at 2. rewrite E. unfold toggle.
    cbn [id withEnabled]. rewrite E. cbn [enabled withEnabled truthy].
    rewrite (Hnone t0 Ht0 Eid). reflexivity.
Qed.

Lemma handleToggleType_first_and_second_witness :
  map isActive (handleToggleType FURNITURE_TYPES "type2") =
    map isActive FURNITURE_TYPES /\
  (forall t,
     In t (handleToggleType (handleToggleType FURNITURE_TYPES "type2")
             "type2") ->
     id t = "type2"%string -> isActive t = false).
Proof.
  apply (handleToggleType_first_and_second FURNITURE_TYPES "type2").
  intros t [<-|[<-|[<-|[]]]] _; reflexivity.
Defined.

(** ** Closing an outline on the canvas *)

(** A hole that is the room itself leaves no valid footprint. *)
Lemma isRectValid_room_in_holes x0 y0 w h room holes :
  In room holes -> isRectValid x0 y0 w h room holes = false.
Proof.
  intros Hin. unfold isRectValid.
  destruct (forallb (fun p => isPointInPolygon p room) (corners x0 y0 w h))
    eqn:E; [|reflexivity].
  cbn [negb]. rewrite outsideHoles_existsb. apply negb_false_iff.
  apply existsb_exists. exists room. split; [exact Hin|].
  apply existsb_exists. exists (mkPoint x0 y0). split; [now left|].
  rewrite forallb_forall in E. apply E. now left.
Qed.

Lemma firstFit_room_in_holes room holes scale cx cy fts :
  In room holes -> firstFit room holes scale cx cy fts = None.
Proof.
  intros Hin. induction fts as [|g rest IH]; simpl; [reflexivity|].
  rewrite isRectValid_room_in_holes by exact Hin.
  now destruct (enabled g) as [[|]|].
Qed.



(** ** Inserting and removing a vertex *)

Section LineClick.

Variable sqrt : Q -> Q.
Variable poly : list Point.
Variable pointer : Point.

Local Abbreviation dist := (segmentDistance sqrt poly pointer).

(** After the first [j] segments the loop holds the first segment of
    least distance among them. *)
Lemma closestStep_least j :
  (0 < j)%nat ->
  exists k,
    fold_left (closestStep sqrt poly pointer) (seq 0 j) (None, None) =
      (Some (dist (k - 1)%nat), Some k) /\
    (1 <= k <= j)%nat /\
    (forall i, (i < j)%nat -> dist (k - 1)%nat <= dist i) /\
    (forall i, (i < k - 1)%nat -> dist (k - 1)%nat < dist i).
Proof.
  induction j as [|j IH]; [lia|]. intros _.
  destruct j as [|j].
  - exists 1%nat. cbn [seq fold_left closestStep fst Nat.add Nat.sub].
    repeat split; try lia.
    intros i Hi. replace i with 0%nat by lia. apply Qle_refl.
  - destruct IH as (k & Hfold & Hk & Hmin & Hfirst); [lia|].
    rewrite seq_S, fold_left_app, Hfold. cbn [fold_left Nat.add].
    unfold closestStep. cbn [fst].
    destruct (Qltb (dist (S j)) (dist (k - 1)%nat)) eqn:E; qbool.
    + exists (S j + 1)%nat.
      replace (S j + 1 - 1)%nat with (S j) by lia.
      repeat split; try lia.
      * intros i Hi. destruct (Nat.eq_dec i (S j)) as [->|Hne];
          [apply Qle_refl|].
        specialize (Hmin i ltac:(lia)). lra.
      * intros i Hi. specialize (Hmin i ltac:(lia)). lra.
    + exists k. repeat split; try lia; auto.
      intros i Hi. destruct (Nat.eq_dec i (S j)) as [->|Hne]; [exact E|].
      apply Hmin. lia.
Qed.

End LineClick.

Lemma firstn_skipn_insert {A : Type} (l : list A) (k : nat) (a : A) :
  (k <= length l)%nat ->
  firstn k (firstn k l ++ a :: skipn k l) ++
    skipn (S k) (firstn k l ++ a :: skipn k l) = l.
Proof.
  intros Hk.
  assert (Hlen : length (firstn k l) = k) by (apply firstn_length_le; lia).
  rewrite firstn_app, Hlen, Nat.sub_diag, firstn_O, app_nil_r.
  rewrite (@firstn_all2 _ k (firstn k l)) by lia.
  rewrite skipn_app, Hlen.
  rewrite (@skipn_all2 _ (S k) (firstn k l)) by lia.
  replace (S k - k)%nat with 1%nat by lia.
  cbn [app skipn]. apply firstn_skipn.
Qed.

(** X24.  A click on an edge of a polygon with at least one vertex
    inserts the clicked point right after the first vertex of a segment
    whose distance to the point, as [pDistance] computes it, is least, the
    first such segment in the order of the vertices; the other vertices
    keep their places.  On a polygon of three or more vertices a double
    click on the new vertex gives the polygon back.  This holds whatever
    [Math.sqrt] returns. *)
Theorem handleLineClick_inserts_at_closest :
  forall (sqrt : Q -> Q) (poly : list Point) (pointer : Point),
    poly <> [] ->
    exists k,
      (1 <= k <= length poly)%nat /\
      handleLineClick sqrt edit_polygon poly pointer =
        firstn k poly ++ mkPoint (x pointer) (y pointer) :: skipn k poly /\
      (forall i, (i < length poly)%nat ->
         segmentDistance sqrt poly pointer (k - 1) <=
         segmentDistance sqrt poly pointer i) /\
      (forall i, (i < k - 1)%nat ->
         segmentDistance sqrt poly pointer (k - 1) <
         segmentDistance sqrt poly pointer i) /\
      ((3 <= length poly)%nat ->
       handlePointDblClick edit_polygon
         (handleLineClick sqrt edit_polygon poly pointer) k = poly).
Proof.
  intros sqrt poly pointer Hne.
  assert (Hpos : (0 < length poly)%nat)
    by (destruct poly; [congruence | simpl; lia]).
  destruct (closestStep_least sqrt poly pointer (length poly) Hpos)
    as (k & Hfold & Hk & Hmin & Hfirst).
  exists k. unfold handleLineClick, closestSegment. rewrite Hfold.
  cbn [snd]. repeat split; try lia; auto.
  intros Hlen. unfold handlePointDblClick.
  assert (Hlen' : length (firstn k poly ++
                    mkPoint (x pointer) (y pointer) :: skipn k poly)
                  = S (length poly)).
  { rewrite length_app. cbn [length]. rewrite firstn_length_le by lia.
    rewrite length_skipn. lia. }
  rewrite Hlen'.
  assert (E : Nat.leb (S (length poly)) 3 = false)
    by (apply Nat.leb_gt; lia).
  rewrite E. apply firstn_skipn_insert. lia.
Qed.

Lemma handleLineClick_inserts_at_closest_witness :
  exists k,
    (1 <= k <= length (squareRoom 6000))%nat /\
    handleLineClick (fun q => q) edit_polygon (squareRoom 6000)
      (mkPoint 6100 3000) =
      firstn k (squareRoom 6000) ++
        mkPoint (x (mkPoint 6100 3000)) (y (mkPoint 6100 3000))
          :: skipn k (squareRoom 6000) /\
    (forall i, (i < length (squareRoom 6000))%nat ->
       segmentDistance (fun q => q) (squareRoom 6000) (mkPoint 6100 3000)
         (k - 1) <=
       segmentDistance (fun q => q) (squareRoom 6000) (mkPoint 6100 3000)
         i) /\
    (forall i, (i < k - 1)%nat ->
       segmentDistance (fun q => q) (squareRoom 6000) (mkPoint 6100 3000)
         (k - 1) <
       segmentDistance (fun q => q) (squareRoom 6000) (mkPoint 6100 3000)
         i) /\
    ((3 <= length (squareRoom 6000))%nat ->
     handlePointDblClick edit_polygon
       (handleLineClick (fun q => q) edit_polygon (squareRoom 6000)
          (mkPoint 6100 3000)) k = squareRoom 6000).
Proof.
  apply (handleLineClick_inserts_at_closest (fun q => q) (squareRoom 6000)
           (mkPoint 6100 3000)).
  discriminate.
Defined.

(** ** The floor area *)

Lemma sumQ_app l l' : sumQ (l ++ l') == sumQ l + sumQ l'.
Proof.
  induction l as [|a l IH].
  - cbn [app]. change (sumQ []) with 0. ring.
  - cbn [app]. change (sumQ (a :: l ++ l')) with (a + sumQ (l ++ l')).
    change (sumQ (a :: l)) with (a + sumQ l). rewrite IH. ring.
Qed.

Lemma sumQ_Permutation l l' : Permutation l l' -> sumQ l == sumQ l'.
Proof.
  induction 1 as [|a l l' _ IH|a b l|l l' l'' _ IH1 _ IH2].
  - reflexivity.
  - change (a + sumQ l == a + sumQ l'). now rewrite IH.
  - change (b + (a + sumQ l) == a + (b + sumQ l)). ring.
  - now rewrite IH1.
Qed.

Lemma sumQ_map_opp {A : Type} (f g : A -> Q) l :
  (forall a, g a == - f a) -> sumQ (map g l) == - sumQ (map f l).
Proof.
  intros H. induction l as [|a l IH]; cbn [map].
  - change (sumQ []) with 0. ring.
  - change (g a + sumQ (map g l) == - (f a + sumQ (map f l))).
    rewrite IH, H. ring.
Qed.

Lemma shoelace_fold poly l : forall a,
  fold_left (shoelaceStep poly) l a ==
  a + sumQ (map (fun i => shoelaceStep poly 0 i) l).
Proof.
  induction l as [|i l IH]; intros a; cbn [fold_left map].
  - change (sumQ []) with 0. ring.
  - change (sumQ (shoelaceStep poly 0 i
                    :: map (fun i => shoelaceStep poly 0 i) l))
      with (shoelaceStep poly 0 i +
            sumQ (map (fun i => shoelaceStep poly 0 i) l)).
    rewrite IH. unfold shoelaceStep. ring.
Qed.

Lemma edgesFrom_nth d : forall vs vj,
  edgesFrom vj vs =
  map (fun i => (nth (S i) (vj :: vs) d, nth i (vj :: vs) d))
    (seq 0 (length vs)).
Proof.
  induction vs as [|vi rest IH]; intros vj; [reflexivity|].
  cbn [edgesFrom length seq map]. f_equal.
  rewrite IH, <- seq_shift, map_map. apply map_ext. intros i. reflexivity.
Qed.

Lemma last_nth {A : Type} (d : A) : forall l a,
  last (a :: l) d = nth (length l) (a :: l) d.
Proof.
  induction l as [|b l IH]; intros a; [reflexivity|].
  change (last (a :: b :: l) d) with (last (b :: l) d).
  rewrite (IH b). reflexivity.
Qed.

Lemma sumQ_cons a l : sumQ (a :: l) = a + sumQ l.
Proof. reflexivity. Qed.

(** The loop sums the cross terms of the edges of the closed polygon. *)
Lemma shoelace_edges v0 rest :
  shoelace (v0 :: rest) == sumQ (map cross (closedEdges (v0 :: rest))).
Proof.
  change (closedEdges (v0 :: rest))
    with ((v0, last (v0 :: rest) v0) :: edgesFrom v0 rest).
  unfold shoelace. rewrite shoelace_fold.
  change (length (v0 :: rest)) with (S (length rest)).
  rewrite seq_S, map_app, sumQ_app. cbn [Nat.add map].
  rewrite !sumQ_cons. change (sumQ []) with 0.
  rewrite (edgesFrom_nth (mkPoint 0 0) rest v0), map_map.
  assert (Hbody : forall l, (forall i, In i l -> (i < length rest)%nat) ->
            sumQ (map (fun i => shoelaceStep (v0 :: rest) 0 i) l) ==
            sumQ (map (fun i => cross (nth (S i) (v0 :: rest) (mkPoint 0 0),
                                        nth i (v0 :: rest) (mkPoint 0 0)))
                    l)).
  { induction l as [|i l IH]; intros Hl; cbn [map]; [reflexivity|].
    rewrite !sumQ_cons, IH by (intros j Hj; apply Hl; now right).
    unfold shoelaceStep, cross. cbn [fst snd length].
    rewrite Nat.add_1_r, Nat.mod_small
      by (specialize (Hl i (or_introl eq_refl)); lia).
    ring. }
  rewrite Hbody by (intros i Hi; apply in_seq in Hi; lia).
  assert (Hlast : shoelaceStep (v0 :: rest) 0 (length rest) ==
                  cross (v0, last (v0 :: rest) v0)).
  { unfold shoelaceStep, cross. cbn [fst snd length].
    rewrite Nat.add_1_r, Nat.Div0.mod_same, (last_nth v0 rest v0).
    rewrite (nth_indep (v0 :: rest) (mkPoint 0 0) v0) by (simpl; lia).
    cbn [nth]. ring. }
  rewrite Hlast. ring.
Qed.

Lemma cross_swapEdge e : cross (swapEdge e) == - cross e.
Proof. destruct e as [a b]. unfold cross, swapEdge. cbn [fst snd]. ring. Qed.

Lemma shoelace_rotate l1 l2 : shoelace (l2 ++ l1) == shoelace (l1 ++ l2).
Proof.
  destruct l1 as [|a l1]; [now rewrite app_nil_r|].
  destruct l2 as [|b l2]; [now rewrite app_nil_r|].
  change ((b :: l2) ++ a :: l1) with (b :: (l2 ++ a :: l1)).
  change ((a :: l1) ++ b :: l2) with (a :: (l1 ++ b :: l2)).
  rewrite !shoelace_edges. apply sumQ_Permutation, Permutation_map.
  apply (closedEdges_rotate (b :: l2) (a :: l1)).
Qed.

Lemma shoelace_rev l : shoelace (rev l) == - shoelace l.
Proof.
  destruct l as [|a l]; [reflexivity|].
  destruct (rev (a :: l)) as [|b m] eqn:E.
  { apply (f_equal (@length Point)) in E. rewrite length_rev in E.
    discriminate. }
  rewrite !shoelace_edges, <- E.
  rewrite (sumQ_Permutation _ _
             (Permutation_map cross (closedEdges_rev l a))).
  rewrite map_map. apply sumQ_map_opp. intros e. apply cross_swapEdge.
Qed.

Lemma calculatePolygonArea_shoelace l l' s :
  length l = length l' -> Qabs (shoelace l) == Qabs (shoelace l') ->
  sameArea (calculatePolygonArea l s) (calculatePolygonArea l' s).
Proof.
  intros Hlen Habs. unfold calculatePolygonArea. rewrite Hlen.
  destruct (Nat.ltb (length l') 3); [reflexivity|].
  destruct (Qeq_bool (s * s) 0); [exact I|].
  unfold sameArea. now rewrite Habs.
Qed.


(** X26.  For an axis-aligned rectangle and a scale other than zero
    the reported area is width times height, divided by the square of the
    scale and by 1,000,000. *)
Theorem calculatePolygonArea_rectRoom :
  forall (x0 y0 x1 y1 currentScale : Q),
    ~ currentScale == 0 ->
    exists a,
      calculatePolygonArea (rectRoom x0 y0 x1 y1) currentScale = Some a /\
      a == Qabs (x1 - x0) * Qabs (y1 - y0) / (currentScale * currentScale)
             / 1000000.
Proof.
  intros x0 y0 x1 y1 s Hs. unfold calculatePolygonArea, rectRoom.
  cbn [length Nat.ltb Nat.leb].
  assert (E : Qeq_bool (s * s) 0 = false).
  { apply not_true_iff_false. intros H. apply Qeq_bool_iff in H.
    apply Hs. nra. }
  rewrite E. eexists. split; [reflexivity|].
  assert (Hsum : shoelace [mkPoint x0 y0; mkPoint x1 y0; mkPoint x1 y1;
                           mkPoint x0 y1] == 2 * ((x1 - x0) * (y1 - y0))).
  { unfold shoelace, shoelaceStep. cbn. ring. }
  rewrite Hsum, !Qabs_Qmult. change (Qabs 2) with 2.
  field. exact Hs.
Qed.

Lemma calculatePolygonArea_rectRoom_witness :
  exists a,
    calculatePolygonArea (rectRoom 0 0 600 400) (1 # 10) = Some a /\
    a == Qabs (600 - 0) * Qabs (400 - 0) / ((1 # 10) * (1 # 10)) / 1000000.
Proof.
  apply (calculatePolygonArea_rectRoom 0 0 600 400 (1 # 10)).
  discriminate.
Defined.

(** ** The pages of the estimate *)

Lemma pageLoop_pages h : forall n hl ps,
  (forall k, (k < n)%nat -> 0 <= hl - steps k 297) ->
  hl - steps n 297 < 0 ->
  exists out,
    pageLoop (S n) h hl ps = Some (ps ++ out) /\
    length out = n /\
    forall k, (k < n)%nat -> nth k out 0 == hl - steps k 297 - h.
Proof.
  induction n as [|n IH]; intros hl ps Hin Hout.
  - exists []. rewrite steps_0 in Hout. cbn [pageLoop].
    assert (E : Qle_bool 0 hl = false).
    { apply not_true_iff_false. intros H. apply Qle_bool_iff in H. lra. }
    rewrite E, app_nil_r. repeat split. intros k Hk. lia.
  - assert (E : Qle_bool 0 hl = true).
    { apply Qle_bool_iff. specialize (Hin 0%nat ltac:(lia)).
      rewrite steps_0 in Hin. lra. }
    destruct (IH (hl - 297) (ps ++ [hl - h])) as (out & Hrun & Hlen & Hnth).
    + intros k Hk. specialize (Hin (S k) ltac:(lia)).
      rewrite steps_S in Hin. lra.
    + rewrite steps_S in Hout. lra.
    + exists ((hl - h) :: out).
      change (pageLoop (S (S n)) h hl ps)
        with (if Qle_bool 0 hl
              then pageLoop (S n) h (hl - 297) (ps ++ [hl - h])
              else Some ps).
      rewrite E, Hrun, <- app_assoc. repeat split.
      * simpl. now rewrite Hlen.
      * intros [|k] Hk; cbn [nth].
        -- rewrite steps_0. ring.
        -- rewrite (Hnth k) by lia. rewrite steps_S. ring.
Qed.

(** X27.  The page loop of [handleDownloadPDF] ends for every image
    height.  It produces one page, and one more for every whole page
    height of 297 mm the image spans; page [k] shows the image moved up by
    [k] page heights.  An image exactly [n] pages high thus gets [n + 1]
    pages, the last of which shows nothing of it. *)
Theorem pagePositions_pages :
  forall imgHeight : Q,
    exists fuel positions,
      pagePositions fuel imgHeight = Some positions /\
      length positions = pageCount imgHeight /\
      forall k, (k < pageCount imgHeight)%nat ->
        nth k positions 0 == - (inject_Z (Z.of_nat k) * 297).
Proof.
  intros h. unfold pageCount, pagePositions.
  set (n := Z.to_nat (Qfloor (h / 297))).
  assert (Hlow : inject_Z (Qfloor (h / 297)) <= h / 297)
    by apply Qfloor_le.
  assert (Hhigh : h / 297 < inject_Z (Qfloor (h / 297) + 1))
    by apply Qlt_floor.
  assert (Hh : h == h / 297 * 297) by (field; discriminate).
  assert (Hn : inject_Z (Qfloor (h / 297)) <= inject_Z (Z.of_nat n)).
  { rewrite <- Zle_Qle. unfold n. lia. }
  destruct (pageLoop_pages h n (h - 297) [0]) as (out & Hrun & Hlen & Hnth).
  - intros k Hk. unfold steps.
    assert (Hk' : inject_Z (Z.of_nat (S k)) <= inject_Z (Qfloor (h / 297))).
    { rewrite <- Zle_Qle. unfold n in Hk. lia. }
    rewrite Nat2Z.inj_succ, <- Z.add_1_r, inject_Z_plus in Hk'.
    change (inject_Z 1) with 1 in Hk'. nra.
  - unfold steps. rewrite inject_Z_plus in Hhigh.
    change (inject_Z 1) with 1 in Hhigh. nra.
  - exists (S n), ([0] ++ out). repeat split; [exact Hrun | |].
    + simpl. now rewrite Hlen.
    + intros [|k] Hk; cbn [app nth].
      * simpl. ring.
      * rewrite (Hnth k) by lia. unfold steps.
        rewrite Nat2Z.inj_succ, <- Z.add_1_r, inject_Z_plus.
        change (inject_Z 1) with 1. ring.
Qed.

(** ** The chairs drawn with a table *)

(** X28.  For an entry with [n] chairs whose table is at least
    [n] chair widths wide, drawn at a positive scale: every chair lies
    within the width of the table, each chair ends before the next one
    starts, and the body and the back of a chair end above the lower edge
    of the footprint the engine checked. *)
Theorem chairs_within_footprint :
  forall (scale : Q) (f : FurnitureSet) (n i : nat),
    0 < scale -> chairCount f == inject_Z (Z.of_nat n) ->
    inject_Z (Z.of_nat n) * CHAIR_DIMENSIONS.width <= tableWidth f ->
    (i < n)%nat ->
    0 <= chairXPos scale f i /\
    chairXPos scale f i + CHAIR_DIMENSIONS.width * scale
      <= tableWidth f * scale /\
    ((S i < n)%nat ->
     chairXPos scale f i + CHAIR_DIMENSIONS.width * scale
       <= chairXPos scale f (S i)) /\
    chairBodyBottom scale f <= totalHOf scale f /\
    chairBackBottom scale f <= totalHOf scale f.
Proof.
  intros scale f n i Hs Hc Hfit Hi.
  unfold chairXPos, chairBodyBottom, chairBackBottom, totalHOf.
  set (sp := chairSpacing scale f).
  set (c := inject_Z (Z.of_nat n)) in *.
  set (j := inject_Z (Z.of_nat i)).
  assert (Hj0 : 0 <= j).
  { unfold j. change 0 with (inject_Z 0). rewrite <- Zle_Qle. lia. }
  assert (Hjc : j + 1 <= c).
  { unfold j, c. change 1 with (inject_Z 1).
    rewrite <- inject_Z_plus, <- Zle_Qle. lia. }
  assert (Hsp : sp * (c + 1) ==
                tableWidth f * scale - c * (CHAIR_DIMENSIONS.width * scale)).
  { unfold sp, chairSpacing. rewrite Hc. field. lra. }
  assert (Hsp0 : 0 <= sp).
  { unfold sp, chairSpacing. rewrite Hc. apply Qle_shift_div_l; [lra|].
    unfold CHAIR_DIMENSIONS.width in *. nra. }
  unfold CHAIR_DIMENSIONS.width, CHAIR_DIMENSIONS.depth in *.
  assert (Hprod : 0 <= (c - (j + 1)) * (500 * scale + sp)) by nra.
  repeat split.
  - nra.
  - nra.
  - intros _. rewrite Nat2Z.inj_succ, <- Z.add_1_r, inject_Z_plus.
    fold j. change (inject_Z 1) with 1. nra.
  - nra.
  - nra.
Qed.

Lemma chairs_within_footprint_witness :
  0 <= chairXPos (1 # 10) type1 1 /\
  chairXPos (1 # 10) type1 1 + CHAIR_DIMENSIONS.width * (1 # 10)
    <= tableWidth type1 * (1 # 10) /\
  ((2 < 3)%nat ->
   chairXPos (1 # 10) type1 1 + CHAIR_DIMENSIONS.width * (1 # 10)
     <= chairXPos (1 # 10) type1 2) /\
  chairBodyBottom (1 # 10) type1 <= totalHOf (1 # 10) type1 /\
  chairBackBottom (1 # 10) type1 <= totalHOf (1 # 10) type1.
Proof.
  apply (chairs_within_footprint (1 # 10) type1 3 1).
  - reflexivity.
  - reflexivity.
  - discriminate.
  - lia.
Defined.

(** ** The distance to a segment *)

Lemma Qsquare_nonneg (a : Q) : 0 <= a * a.
Proof. nra. Qed.

(** The squared distance from a point to the points of a line, as a
    function of the parameter: the difference of two of its values. *)
Lemma segment_quadratic (A B C D u v : Q) :
  (A - u * C) * (A - u * C) + (B - u * D) * (B - u * D) -
  ((A - v * C) * (A - v * C) + (B - v * D) * (B - v * D)) ==
  (u - v) * ((u + v) * (C * C + D * D) - 2 * (A * C + B * D)).
Proof. ring. Qed.

(** X29.  With a [Math.sqrt] that is monotone on the non-negative
    numbers, [pDistance] is at most the distance from the point to any
    point of the segment: the point it measures to, the foot of the
    perpendicular clamped to the segment, is a closest one. *)
Theorem pDistance_least :
  forall (sqrt : Q -> Q) (x0 y0 x1 y1 x2 y2 u : Q),
    (forall a b, 0 <= a -> a <= b -> sqrt a <= sqrt b) ->
    0 <= u -> u <= 1 ->
    pDistance sqrt x0 y0 x1 y1 x2 y2 <=
    sqrt ((x0 - (x1 + u * (x2 - x1))) * (x0 - (x1 + u * (x2 - x1))) +
          (y0 - (y1 + u * (y2 - y1))) * (y0 - (y1 + u * (y2 - y1)))).
Proof.
  intros sqrt x0 y0 x1 y1 x2 y2 u Hmono Hu0 Hu1. unfold pDistance.
  assert (Hsq : forall a b : Q, 0 <= a * a + b * b) by (intros; nra).
  set (C := x2 - x1). set (D := y2 - y1).
  assert (HC : 0 <= C * C) by nra. assert (HD : 0 <= D * D) by nra.
  set (L := C * C + D * D).
  set (dot := (x0 - x1) * C + (y0 - y1) * D).
  destruct (Qeq_bool L 0) eqn:EL.
  - apply Qeq_bool_iff in EL. change (Qltb (- (1)) 0) with true. cbv iota.
    assert (HC0 : C == 0) by (unfold L in EL; nra).
    assert (HD0 : D == 0) by (unfold L in EL; nra).
    apply Hmono; [apply Hsq|]. rewrite HC0, HD0. lra.
  - apply Qeq_bool_neq in EL.
    assert (HL : 0 < L) by (unfold L in *; lra).
    set (t := dot / L).
    assert (Ht : t * L == dot) by (unfold t; field; lra).
    clearbody t.
    destruct (Qltb t 0) eqn:E0; qbool.
    + apply Hmono; [apply Hsq|].
      pose proof (segment_quadratic (x0 - x1) (y0 - y1) C D u 0) as Hq.
      fold L dot in Hq. rewrite <- Ht in Hq.
      assert (Hpos : 0 <= (u - 0) * ((u + 0) * L - 2 * (t * L))).
      { setoid_replace ((u - 0) * ((u + 0) * L - 2 * (t * L)))
          with (L * (u * (u - 2 * t))) by ring.
        apply Qmult_le_0_compat; [lra|].
        apply Qmult_le_0_compat; lra. }
      lra.
    + unfold Qgtb. destruct (Qltb 1 t) eqn:E1; qbool.
      * apply Hmono; [apply Hsq|].
        pose proof (segment_quadratic (x0 - x1) (y0 - y1) C D u 1) as Hq.
        fold L dot in Hq. rewrite <- Ht in Hq.
        assert (Hpos : 0 <= (u - 1) * ((u + 1) * L - 2 * (t * L))).
        { setoid_replace ((u - 1) * ((u + 1) * L - 2 * (t * L)))
            with (L * ((1 - u) * (2 * t - 1 - u))) by ring.
          apply Qmult_le_0_compat; [lra|].
          apply Qmult_le_0_compat; lra. }
        unfold C, D in *. lra.
      * apply Hmono; [apply Hsq|].
        pose proof (segment_quadratic (x0 - x1) (y0 - y1) C D u t) as Hq.
        fold L dot in Hq. rewrite <- Ht in Hq.
        assert (Hpos : 0 <= (u - t) * ((u + t) * L - 2 * (t * L))).
        { setoid_replace ((u - t) * ((u + t) * L - 2 * (t * L)))
            with (L * ((u - t) * (u - t))) by ring.
          apply Qmult_le_0_compat; [lra | apply Qsquare_nonneg]. }
        lra.
Qed.

Lemma pDistance_least_witness :
  pDistance (fun q => q) 3 4 0 0 10 0 <=
  (fun q : Q => q)
    ((3 - (0 + (1 # 2) * (10 - 0))) * (3 - (0 + (1 # 2) * (10 - 0))) +
     (4 - (0 + (1 # 2) * (0 - 0))) * (4 - (0 + (1 # 2) * (0 - 0)))).
Proof.
  apply (pDistance_least (fun q => q) 3 4 0 0 10 0 (1 # 2)).
  - intros a b _ H. exact H.
  - discriminate.
  - discriminate.
Defined.

(** ** Drawing an outline *)

Lemma axisLock_shares (lastPoint pos : Point) :
  x (axisLock lastPoint pos) = x lastPoint \/
  y (axisLock lastPoint pos) = y lastPoint.
Proof.
  unfold axisLock.
  destruct (Qgtb (Qabs (x pos - x lastPoint)) (Qabs (y pos - y lastPoint)));
    [right | left]; reflexivity.
Qed.

(** X30.  While an outline is drawn, a click adds exactly one point at
    the end of [tempPoints], and [handleUndo] takes it away again: the
    state is as before the click.  With the Shift key held and a point
    already set, the point added has the x or the y of the point before
    it, so the new edge is vertical or horizontal. *)
Theorem handleStageClick_then_handleUndo :
  forall (s : Drawing) (shiftKey : bool) (pos : Point),
    mode s = draw_polygon \/ mode s = draw_hole ->
    handleUndo (handleStageClick s shiftKey (Some pos)) = s /\
    (shiftKey = true -> tempPoints s <> [] ->
     x (last (tempPoints (handleStageClick s shiftKey (Some pos)))
          (mkPoint 0 0)) = x (last (tempPoints s) (mkPoint 0 0)) \/
     y (last (tempPoints (handleStageClick s shiftKey (Some pos)))
          (mkPoint 0 0)) = y (last (tempPoints s) (mkPoint 0 0))).
Proof.
  intros [poly hs m temp line] shiftKey pos Hmode. cbn [mode] in Hmode.
  assert (Hclick : handleStageClick (mkDrawing poly hs m temp line) shiftKey
                     (Some pos) =
                   mkDrawing poly hs m
                     (temp ++ [lockedPos shiftKey temp pos]) line).
  { unfold handleStageClick. cbn [mode tempPoints polygon holes scaleLine].
    destruct Hmode as [-> | ->]; reflexivity. }
  rewrite Hclick. split.
  - unfold handleUndo. cbn [polygon holes mode tempPoints scaleLine].
    now rewrite removelast_last.
  - intros -> Hne. cbn [tempPoints] in *. rewrite last_last.
    unfold lockedPos.
    assert (E : Nat.ltb 0 (length temp) = true).
    { apply Nat.ltb_lt. destruct temp; [congruence | simpl; lia]. }
    rewrite E. cbn [andb]. apply axisLock_shares.
Qed.

Lemma handleStageClick_then_handleUndo_witness :
  handleUndo
    (handleStageClick
       (mkDrawing [] [] draw_polygon [mkPoint 0 0; mkPoint 100 0] None)
       true (Some (mkPoint 110 80))) =
    mkDrawing [] [] draw_polygon [mkPoint 0 0; mkPoint 100 0] None /\
  (true = true ->
   tempPoints
     (mkDrawing [] [] draw_polygon [mkPoint 0 0; mkPoint 100 0] None)
     <> [] ->
   x (last (tempPoints
        (handleStageClick
           (mkDrawing [] [] draw_polygon [mkPoint 0 0; mkPoint 100 0] None)
           true (Some (mkPoint 110 80)))) (mkPoint 0 0)) =
     x (last (tempPoints
          (mkDrawing [] [] draw_polygon [mkPoint 0 0; mkPoint 100 0] None))
          (mkPoint 0 0)) \/
   y (last (tempPoints
        (handleStageClick
           (mkDrawing [] [] draw_polygon [mkPoint 0 0; mkPoint 100 0] None)
           true (Some (mkPoint 110 80)))) (mkPoint 0 0)) =
     y (last (tempPoints
          (mkDrawing [] [] draw_polygon [mkPoint 0 0; mkPoint 100 0] None))
          (mkPoint 0 0))).
Proof.
  apply (handleStageClick_then_handleUndo
           (mkDrawing [] [] draw_polygon [mkPoint 0 0; mkPoint 100 0] None)
           true (mkPoint 110 80)).
  left. reflexivity.
Defined.
